(** * Locally-ordered clustering BVH builder: model and verification

    A shallow embedding of [bvh::Bvh] (bvh.hpp) and of
    [bvh::LocallyOrderedClusteringBuilder]
    (locally_ordered_clustering_builder.hpp).

    - [size_t] values are integers in [0, 2^64) with the wrap-around
      written out ([wrap]).
    - Heap arrays are lists; an access outside the allocation is
      undefined behaviour in C++ and is a fault ([None]) here.
    - The scalar type, the bounding volumes (bounding_box.hpp) and the
      Morton sorter (morton_code_based_builder.hpp) are not part of the
      modelled sources; they are interfaces (type classes) and every
      result is stated for all instances of them.
    - Assertions are compiled out (NDEBUG), as in a production build. *)

From Stdlib Require Import ZArith Lia List Permutation.
From stdpp Require Import base option list sorting.

Local Open Scope Z_scope.

(** ** [size_t] arithmetic *)

Definition size_modulus : Z := 2 ^ 64.

Definition wrap (z : Z) : Z := z mod size_modulus.

(** [size_t(-1)] *)
Definition SIZE_MAX : Z := size_modulus - 1.

(** ** Arrays *)

(** [a[i]] as an rvalue. *)
Definition load {A} (a : list A) (i : Z) : option A :=
  if i <? 0 then None else a !! Z.to_nat i.

(** [a[i] = v]. *)
Definition store {A} (a : list A) (i : Z) (v : A) : option (list A) :=
  if (0 <=? i) && (i <? Z.of_nat (length a))
  then Some (<[Z.to_nat i := v]> a) else None.

(** [std::make_unique<T[]>(n)]: [n] value-initialised elements. *)
Definition make_unique {A} (zero : A) (n : Z) : list A :=
  replicate (Z.to_nat n) zero.

(** ** Counted loops

    [for (size_t i = lo; i < hi; ++i) body], threading the state [s]. The
    counter never overflows since it stays below [hi]. *)

Fixpoint iterate_from {S} (n : nat) (i : Z) (body : Z → S → option S) (s : S)
  : option S :=
  match n with
  | O => Some s
  | S n' => s' ← body i s; iterate_from n' (i + 1) body s'
  end.

Definition for_loop {S} (lo hi : Z) (body : Z → S → option S) (s : S)
  : option S :=
  iterate_from (Z.to_nat (hi - lo)) lo body s.

(** ** Interfaces of the components outside the modelled sources *)

(** The scalar type of [Bvh<Scalar>]: only comparison, the largest finite
    value and the value-initialised scalar are used by the builder.
    [index_bits] is the width of [Bvh::IndexType], the unsigned integer
    type as wide as the scalar. *)
Class ScalarOps (Scalar : Type) := {
  scalar_lt : Scalar → Scalar → bool;
  scalar_max : Scalar;
  scalar_zero : Scalar;
  index_bits : Z;
}.

(** A bounding volume type ([BoundingBox<Scalar>] or [BoundingCyl<Scalar>]):
    [extend a b] is [a.extend(b)], [half_area a] is [a.half_area()] and
    [volume_zero] is the value-initialised volume (all scalars zero). *)
Class VolumeOps (Scalar V : Type) := {
  extend : V → V → V;
  half_area : V → Scalar;
  volume_zero : V;
}.

(** [IndexType(z)]: conversion of a [size_t] to [Bvh::IndexType]. *)
Definition to_index `{ScalarOps Scalar} (z : Z) : Z := z mod 2 ^ index_bits.

(** Conversion to the bit-field [primitive_count], one bit narrower. *)
Definition to_count `{ScalarOps Scalar} (z : Z) : Z :=
  z mod 2 ^ (index_bits - 1).

(** What the builder does with a node of either kind: read and assign the
    bounding volume through its proxy, and read and assign the three
    scalar fields. An assignment changes the assigned field only. *)
Class NodeOps (Scalar V N : Type) `{ScalarOps Scalar} := {
  to_bounding_box : N → V;
  assign_bounding_box : V → N → N;
  is_leaf : N → bool;
  set_is_leaf : bool → N → N;
  primitive_count : N → Z;
  set_primitive_count : Z → N → N;
  first_child_or_primitive : N → Z;
  set_first_child_or_primitive : Z → N → N;
  value_initialized : N;

  bb_assign_bb v n : to_bounding_box (assign_bounding_box v n) = v;
  bb_set_leaf b n : to_bounding_box (set_is_leaf b n) = to_bounding_box n;
  bb_set_count z n : to_bounding_box (set_primitive_count z n) = to_bounding_box n;
  bb_set_first z n :
    to_bounding_box (set_first_child_or_primitive z n) = to_bounding_box n;
  leaf_assign_bb v n : is_leaf (assign_bounding_box v n) = is_leaf n;
  leaf_set_leaf b n : is_leaf (set_is_leaf b n) = b;
  leaf_set_count z n : is_leaf (set_primitive_count z n) = is_leaf n;
  leaf_set_first z n : is_leaf (set_first_child_or_primitive z n) = is_leaf n;
  count_assign_bb v n : primitive_count (assign_bounding_box v n) = primitive_count n;
  count_set_leaf b n : primitive_count (set_is_leaf b n) = primitive_count n;
  count_set_count z n : primitive_count (set_primitive_count z n) = to_count z;
  count_set_first z n :
    primitive_count (set_first_child_or_primitive z n) = primitive_count n;
  first_assign_bb v n :
    first_child_or_primitive (assign_bounding_box v n) = first_child_or_primitive n;
  first_set_leaf b n :
    first_child_or_primitive (set_is_leaf b n) = first_child_or_primitive n;
  first_set_count z n :
    first_child_or_primitive (set_primitive_count z n) = first_child_or_primitive n;
  first_set_first z n :
    first_child_or_primitive (set_first_child_or_primitive z n) = to_index z;
}.

Arguments value_initialized : simpl never.

Create Rewrite HintDb node_fields.
#[export] Hint Rewrite
  @bb_assign_bb @bb_set_leaf @bb_set_count @bb_set_first
  @leaf_assign_bb @leaf_set_leaf @leaf_set_count @leaf_set_first
  @count_assign_bb @count_set_leaf @count_set_count @count_set_first
  @first_assign_bb @first_set_leaf @first_set_count @first_set_first
  : node_fields.

(** [sort_primitives_by_morton_code(global, centers, count).first]: the
    primitive indices ordered by Morton code. *)
Class MortonSorter (G Center : Type) := {
  sort_primitives_by_morton_code : G → list Center → Z → list Z;
}.

(** ** bvh.hpp *)

(** [Bvh::Node]; [bounds] holds the six scalars, which the proxy reads and
    writes as one [BoundingBox]. *)
Record Node (B : Type) := mkNode {
  bounds : B;
  node_is_leaf : bool;
  node_primitive_count : Z;
  node_first_child_or_primitive : Z;
  origin : Z;
}.
Arguments mkNode {B}.
Arguments bounds {B}.
Arguments node_is_leaf {B}.
Arguments node_primitive_count {B}.
Arguments node_first_child_or_primitive {B}.
Arguments origin {B}.

(** [Bvh::CustomNode]; [cyl] holds [p1], [axis], [h] and [r], which the
    proxy reads and writes as one [BoundingCyl]. *)
Record CustomNode (C : Type) := mkCustomNode {
  cyl : C;
  cnode_is_leaf : bool;
  cnode_primitive_count : Z;
  cnode_first_child_or_primitive : Z;
}.
Arguments mkCustomNode {C}.
Arguments cyl {C}.
Arguments cnode_is_leaf {C}.
Arguments cnode_primitive_count {C}.
Arguments cnode_first_child_or_primitive {C}.

(** [bvh::Bvh]. *)
Record Bvh (B C : Type) := mkBvh {
  nodes : list (Node B);
  cnodes : list (CustomNode C);
  primitive_indices : list Z;
  cylinder : bool;
  hybrid : bool;
  node_count : Z;
}.
Arguments mkBvh {B C}.
Arguments nodes {B C}.
Arguments cnodes {B C}.
Arguments primitive_indices {B C}.
Arguments cylinder {B C}.
Arguments hybrid {B C}.
Arguments node_count {B C}.

(** [Bvh::sibling]. *)
Definition sibling (index : Z) : Z :=
  if wrap index mod 2 =? 1 then wrap (index + 1) else wrap (index - 1).

(** [Bvh::is_left_sibling]. *)
Definition is_left_sibling (index : Z) : bool := wrap index mod 2 =? 1.

Section NodeInstances.
Context {Scalar : Type} `{ScalarOps Scalar}.

#[export, refine] Instance BoxNodeOps {B} `{VolumeOps Scalar B} :
  NodeOps Scalar B (Node B) := {|
  to_bounding_box n := bounds n;
  assign_bounding_box v n :=
    mkNode v (node_is_leaf n) (node_primitive_count n)
      (node_first_child_or_primitive n) (origin n);
  is_leaf n := node_is_leaf n;
  set_is_leaf b n :=
    mkNode (bounds n) b (node_primitive_count n)
      (node_first_child_or_primitive n) (origin n);
  primitive_count n := node_primitive_count n;
  set_primitive_count z n :=
    mkNode (bounds n) (node_is_leaf n) (to_count z)
      (node_first_child_or_primitive n) (origin n);
  first_child_or_primitive n := node_first_child_or_primitive n;
  set_first_child_or_primitive z n :=
    mkNode (bounds n) (node_is_leaf n) (node_primitive_count n)
      (to_index z) (origin n);
  value_initialized := mkNode volume_zero false 0 0 0;
|}.
Proof. all: reflexivity. Defined.

#[export, refine] Instance CylNodeOps {C} `{VolumeOps Scalar C} :
  NodeOps Scalar C (CustomNode C) := {|
  to_bounding_box n := cyl n;
  assign_bounding_box v n :=
    mkCustomNode v (cnode_is_leaf n) (cnode_primitive_count n)
      (cnode_first_child_or_primitive n);
  is_leaf n := cnode_is_leaf n;
  set_is_leaf b n :=
    mkCustomNode (cyl n) b (cnode_primitive_count n)
      (cnode_first_child_or_primitive n);
  primitive_count n := cnode_primitive_count n;
  set_primitive_count z n :=
    mkCustomNode (cyl n) (cnode_is_leaf n) (to_count z)
      (cnode_first_child_or_primitive n);
  first_child_or_primitive n := cnode_first_child_or_primitive n;
  set_first_child_or_primitive z n :=
    mkCustomNode (cyl n) (cnode_is_leaf n) (cnode_primitive_count n)
      (to_index z);
  value_initialized := mkCustomNode volume_zero false 0 0;
|}.
Proof. all: reflexivity. Defined.
End NodeInstances.

(** ** locally_ordered_clustering_builder.hpp: one clustering round *)

(** The per-thread cache of merge costs: [distances] is the flat array of
    [(search_radius + 1) * search_radius] scalars and [distance_matrix] the
    array of [search_radius + 1] row pointers, kept as offsets into
    [distances]. *)
Record DistanceMatrix (Scalar : Type) := mkDistanceMatrix {
  distances : list Scalar;
  distance_matrix : list Z;
}.
Arguments mkDistanceMatrix {Scalar}.
Arguments distances {Scalar}.
Arguments distance_matrix {Scalar}.

Section Cluster.
Context {Scalar V N : Type} `{ScalarOps Scalar} `{!VolumeOps Scalar V}
  `{!NodeOps Scalar V N}.

(** The builder's parameter [search_radius]. *)
Variable search_radius : Z.

(** [search_range(i, begin, end)] *)
Definition search_range (i begin end_ : Z) : Z * Z :=
  (if wrap (begin + search_radius) <? i then wrap (i - search_radius) else begin,
   Z.min (wrap (i + search_radius + 1)) end_).

(** [input[i].bounding_box_proxy().to_bounding_box()
      .extend(input[j].bounding_box_proxy()).half_area()] *)
Definition merge_cost (input : list N) (i j : Z) : option Scalar :=
  a ← load input i;
  b ← load input j;
  Some (half_area (extend (to_bounding_box a) (to_bounding_box b))).

(** [distance_matrix[a][b]] *)
Definition dm_get (m : DistanceMatrix Scalar) (a b : Z) : option Scalar :=
  row ← load (distance_matrix m) a;
  load (distances m) (row + b).

(** [distance_matrix[a][b] = d] *)
Definition dm_set (m : DistanceMatrix Scalar) (a b : Z) (d : Scalar)
  : option (DistanceMatrix Scalar) :=
  row ← load (distance_matrix m) a;
  ds ← store (distances m) (row + b) d;
  Some (mkDistanceMatrix ds (distance_matrix m)).

(** Allocation of the cache and of its row pointers
    ([distance_matrix[i] = &distances[i * search_radius]]). *)
Definition make_distance_matrix : option (DistanceMatrix Scalar) :=
  rows ← for_loop 0 (search_radius + 1)
    (λ i rows, store rows i (wrap (i * search_radius)))
    (make_unique 0 (wrap (search_radius + 1)));
  Some (mkDistanceMatrix
          (make_unique scalar_zero (wrap ((search_radius + 1) * search_radius)))
          rows).

(** The first loop nest of a thread: the costs between the nodes just
    before the chunk, which the backward searches of the chunk will read. *)
Definition init_distance_matrix (input : list N) (begin end_ chunk_begin : Z)
  (m : DistanceMatrix Scalar) : option (DistanceMatrix Scalar) :=
  for_loop (search_range chunk_begin begin end_).1 chunk_begin
    (λ i m,
       let search_end := (search_range i begin end_).2 in
       for_loop (i + 1) search_end
         (λ j m,
            d ← merge_cost input i j;
            dm_set m (wrap (chunk_begin - i)) (wrap (j - i - 1)) d)
         m)
    m.

(** One comparison of the search: [if (distance < best_distance) ...]. *)
Definition improve (distance : Scalar) (j : Z) (best : Scalar * Z) : Scalar * Z :=
  if scalar_lt distance best.1 then (distance, j) else best.

(** Backward search, reading the cached costs. *)
Definition backward_search (m : DistanceMatrix Scalar) (i search_begin : Z)
  (best : Scalar * Z) : option (Scalar * Z) :=
  for_loop search_begin i
    (λ j best,
       distance ← dm_get m (wrap (i - j)) (wrap (i - j - 1));
       Some (improve distance j best))
    best.

(** Forward search, computing the costs and caching them in row 0. *)
Definition forward_search (input : list N) (i search_end : Z)
  (st : DistanceMatrix Scalar * (Scalar * Z))
  : option (DistanceMatrix Scalar * (Scalar * Z)) :=
  for_loop (i + 1) search_end
    (λ j st,
       distance ← merge_cost input i j;
       m ← dm_set st.1 0 (wrap (j - i - 1)) distance;
       Some (m, improve distance j st.2))
    st.

(** Rotation of the row pointers: [std::move_backward] shifts the first
    [search_radius] pointers up by one and the last one becomes row 0. *)
Definition rotate (m : DistanceMatrix Scalar) : option (DistanceMatrix Scalar) :=
  last ← load (distance_matrix m) search_radius;
  Some (mkDistanceMatrix (distances m)
          (last :: take (Z.to_nat search_radius) (distance_matrix m))).

(** The body of the nearest neighbor loop for node [i]; [neighbors] is the
    offset of the neighbor array inside the auxiliary allocation [aux]. *)
Definition nearest_neighbor (input : list N) (neighbors begin end_ i : Z)
  (st : DistanceMatrix Scalar * list Z)
  : option (DistanceMatrix Scalar * list Z) :=
  let '(search_begin, search_end) := search_range i begin end_ in
  best ← backward_search st.1 i search_begin (scalar_max, SIZE_MAX);
  '(m, best) ← forward_search input i search_end (st.1, best);
  aux ← store st.2 (neighbors + i) best.2;
  m ← rotate m;
  Some (m, aux).

(** What one thread does before the barrier, for its chunk. *)
Definition search_chunk (input : list N) (neighbors begin end_ : Z)
  (chunk_begin chunk_end : Z) (aux : list Z) : option (list Z) :=
  m ← make_distance_matrix;
  m ← init_distance_matrix input begin end_ chunk_begin m;
  st ← for_loop chunk_begin chunk_end
    (nearest_neighbor input neighbors begin end_) (m, aux);
  Some st.2.

(** The chunk of thread [thread_id] among [thread_count]. *)
Definition chunk (begin end_ thread_count thread_id : Z) : Z * Z :=
  let chunk_size := wrap (end_ - begin) / thread_count in
  let chunk_begin := wrap (begin + thread_id * chunk_size) in
  let chunk_end :=
    if thread_id =? wrap (thread_count - 1) then end_
    else wrap (chunk_begin + chunk_size) in
  (chunk_begin, chunk_end).

(** The neighbor search of all threads up to the barrier. Each thread
    writes the neighbors of its own chunk only. *)
Definition search_neighbors (input : list N) (neighbors begin end_ : Z)
  (thread_count : Z) (aux : list Z) : option (list Z) :=
  for_loop 0 thread_count
    (λ thread_id aux,
       let '(chunk_begin, chunk_end) := chunk begin end_ thread_count thread_id in
       search_chunk input neighbors begin end_ chunk_begin chunk_end aux)
    aux.

(** The loop that marks the lower member of each mutual pair. *)
Definition mark_merged (neighbors merged_index begin end_ : Z) (aux : list Z)
  : option (list Z) :=
  for_loop begin end_
    (λ i aux,
       j ← load aux (neighbors + i);
       nj ← load aux (neighbors + j);
       let is_mergeable := nj =? i in
       store aux (merged_index + i) (if (i <? j) && is_mergeable then 1 else 0))
    aux.

(** Modelled from the spec: [PrefixSum::sum_in_parallel(p, p, count)]
    (prefix_sum.hpp is not among the sources), the in-place inclusive
    prefix sum of [count] elements starting at offset [p]. *)
Definition sum_in_parallel (p count : Z) (aux : list Z) : option (list Z) :=
  for_loop 1 count
    (λ k aux,
       a ← load aux (p + k - 1);
       b ← load aux (p + k);
       store aux (p + k) (wrap (a + b)))
    aux.

(** The body of the loop that writes parents, children and survivors. *)
Definition merge_node (input : list N) (aux : list Z)
  (neighbors merged_index begin unmerged_begin children_begin i : Z)
  (output : list N) : option (list N) :=
  j ← load aux (neighbors + i);
  nj ← load aux (neighbors + j);
  if nj =? i then
    if i <? j then
      mj ← load aux (merged_index + j);
      mi ← load aux (merged_index + i);
      let slot := wrap (unmerged_begin + j - begin - mj) in
      let first_child := wrap (children_begin + (mi - 1) * 2) in
      node_i ← load input i;
      node_j ← load input j;
      unmerged_node ← load output slot;
      output ← store output slot
        (set_first_child_or_primitive first_child
           (set_is_leaf false
              (assign_bounding_box
                 (extend (to_bounding_box node_j) (to_bounding_box node_i))
                 unmerged_node)));
      output ← store output (wrap (first_child + 0)) node_i;
      store output (wrap (first_child + 1)) node_j
    else Some output
  else
    mi ← load aux (merged_index + i);
    node_i ← load input i;
    store output (wrap (unmerged_begin + i - begin - mi)) node_i.

(** The copy of the nodes of the previous level. *)
Definition copy_previous (input : list N) (end_ previous_end : Z)
  (output : list N) : option (list N) :=
  for_loop end_ previous_end
    (λ i output, node_i ← load input i; store output i node_i)
    output.

(** [cluster(input, output, neighbors, merged_index, begin, end,
    previous_end)], run by a team of [thread_count] threads. The two index
    arrays live in one allocation [aux] at offsets [neighbors] and
    [merged_index]. Returns the output array, the auxiliary array and the
    pair [(next_begin, next_end)]. *)
Definition cluster (thread_count : Z) (input output : list N) (aux : list Z)
  (neighbors merged_index begin end_ previous_end : Z)
  : option (list N * list Z * (Z * Z)) :=
  aux ← search_neighbors input neighbors begin end_ thread_count aux;
  aux ← mark_merged neighbors merged_index begin end_ aux;
  aux ← sum_in_parallel (merged_index + begin) (wrap (end_ - begin)) aux;
  merged_count ← load aux (merged_index + wrap (end_ - 1));
  let unmerged_count := wrap (end_ - begin - merged_count) in
  let children_count := wrap (merged_count * 2) in
  let children_begin := wrap (end_ - children_count) in
  let unmerged_begin := wrap (end_ - (children_count + unmerged_count)) in
  let next_begin := unmerged_begin in
  let next_end := children_begin in
  output ← for_loop begin end_
    (merge_node input aux neighbors merged_index begin unmerged_begin
       children_begin)
    output;
  output ← copy_previous input end_ previous_end output;
  Some (output, aux, (next_begin, next_end)).

End Cluster.

(** ** The build functions *)

(** The local variables of a build function that live across rounds. *)
Record BuildState (N : Type) := mkBuildState {
  st_nodes : list N;
  st_nodes_copy : list N;
  st_auxiliary_data : list Z;
  st_begin : Z;
  st_end : Z;
  st_previous_end : Z;
}.
Arguments mkBuildState {N}.
Arguments st_nodes {N}.
Arguments st_nodes_copy {N}.
Arguments st_auxiliary_data {N}.
Arguments st_begin {N}.
Arguments st_end {N}.
Arguments st_previous_end {N}.

Section Rounds.
Context {Scalar V N : Type} `{ScalarOps Scalar} `{!VolumeOps Scalar V}
  `{!NodeOps Scalar V N}.

(** The builder's fields [search_radius] and [loop_parallel_threshold]. *)
Variable search_radius : Z.
Variable loop_parallel_threshold : Z.

(** [bvh__get_num_threads()] inside a parallel region entered for the
    window [begin, end): the team size chosen by the runtime. *)
Variable num_threads : Z → Z → Z.

(** [#pragma omp parallel if (end - begin > loop_parallel_threshold)] *)
Definition team_size (begin end_ : Z) : Z :=
  if loop_parallel_threshold <? wrap (end_ - begin)
  then num_threads begin end_ else 1.

(** The loop that creates the leaves. *)
Definition create_leaves (bboxes : list V) (primitive_indices : list Z)
  (primitive_count begin : Z) (nodes : list N) : option (list N) :=
  for_loop 0 primitive_count
    (λ i nodes,
       node ← load nodes (wrap (begin + i));
       p ← load primitive_indices i;
       bbox ← load bboxes p;
       store nodes (wrap (begin + i))
         (set_first_child_or_primitive i
            (set_primitive_count 1
               (set_is_leaf true (assign_bounding_box bbox node)))))
    nodes.

(** The state before the first round: allocation and leaves. *)
Definition initial_state (bboxes : list V) (primitive_indices : list Z)
  (primitive_count : Z) : option (BuildState N) :=
  let node_count := wrap (2 * primitive_count - 1) in
  let nodes := make_unique value_initialized node_count in
  let nodes_copy := make_unique value_initialized node_count in
  let auxiliary_data := make_unique 0 (wrap (node_count * 3)) in
  let begin := wrap (node_count - primitive_count) in
  let end_ := node_count in
  let previous_end := end_ in
  nodes ← create_leaves bboxes primitive_indices primitive_count begin nodes;
  Some (mkBuildState nodes nodes_copy auxiliary_data begin end_ previous_end).

(** The body of the round loop: one call of [cluster], the swap of the
    two buffers and the update of the window. *)
Definition round (node_count : Z) (st : BuildState N) : option (BuildState N) :=
  '(output, aux, (next_begin, next_end)) ←
    cluster search_radius (team_size (st_begin st) (st_end st))
      (st_nodes st) (st_nodes_copy st) (st_auxiliary_data st)
      0 node_count (st_begin st) (st_end st) (st_previous_end st);
  Some (mkBuildState output (st_nodes st) aux next_begin next_end (st_end st)).

(** [while (end - begin > 1) { ... }]; [fuel] bounds the number of rounds
    of the model and running out of it yields [None]. *)
Fixpoint round_loop (fuel : nat) (node_count : Z) (st : BuildState N)
  : option (BuildState N) :=
  if 1 <? wrap (st_end st - st_begin st) then
    match fuel with
    | O => None
    | S fuel' => st' ← round node_count st; round_loop fuel' node_count st'
    end
  else Some st.

(** The round loop of the hybrid build, which also counts the rounds in
    [k] and leaves when [k == iteration]. *)
Fixpoint round_loop_until (fuel : nat) (node_count iteration : Z)
  (st : BuildState N) (k : Z) : option (BuildState N * Z) :=
  if 1 <? wrap (st_end st - st_begin st) then
    match fuel with
    | O => None
    | S fuel' =>
        st' ← round node_count st;
        let k' := wrap (k + 1) in
        if k' =? iteration then Some (st', k')
        else round_loop_until fuel' node_count iteration st' k'
    end
  else Some (st, k).

(** The state in which a non-hybrid build leaves its round loop. *)
Definition build_rounds (fuel : nat) (bboxes : list V)
  (primitive_indices : list Z) (primitive_count : Z)
  : option (BuildState N) :=
  st ← initial_state bboxes primitive_indices primitive_count;
  round_loop fuel (wrap (2 * primitive_count - 1)) st.

End Rounds.

Section Build.
Context {Scalar B C G Center : Type} `{ScalarOps Scalar}
  `{!VolumeOps Scalar B} `{!VolumeOps Scalar C}
  `{!MortonSorter B Center} `{!MortonSorter C Center}.

(** [BoundingCyl::AABB()], the axis-aligned box around a cylinder
    (bounding_box.hpp, not among the sources). *)
Variable AABB : C → B.

Variable search_radius : Z.
Variable loop_parallel_threshold : Z.
Variable num_threads : Z → Z → Z.

(** "Original build function": boxes throughout; the tree goes to
    [bvh.nodes]. *)
Definition build (fuel : nat) (bvh : Bvh B C) (global_bbox : B)
  (bboxes : list B) (centers : list Center) (primitive_count : Z)
  : option (Bvh B C) :=
  let primitive_indices :=
    sort_primitives_by_morton_code global_bbox centers primitive_count in
  let node_count := wrap (2 * primitive_count - 1) in
  st ← build_rounds search_radius loop_parallel_threshold num_threads fuel
         bboxes primitive_indices primitive_count;
  Some (mkBvh (st_nodes st) (cnodes bvh) primitive_indices
          (cylinder bvh) (hybrid bvh) node_count).

(** The build function "that uses bounding cylinders only (the global box
    is also a cylinder)"; the tree goes to [bvh.cnodes]. *)
Definition build_cylinders (fuel : nat) (bvh : Bvh B C) (global_bbox : C)
  (bboxes : list C) (centers : list Center) (primitive_count : Z)
  : option (Bvh B C) :=
  let primitive_indices :=
    sort_primitives_by_morton_code global_bbox centers primitive_count in
  let node_count := wrap (2 * primitive_count - 1) in
  st ← build_rounds search_radius loop_parallel_threshold num_threads fuel
         bboxes primitive_indices primitive_count;
  Some (mkBvh (nodes bvh) (st_nodes st) primitive_indices
          (cylinder bvh) (hybrid bvh) node_count).

(** The cylinder build whose global bound is a box; the tree goes to
    [bvh.cnodes]. *)
Definition build_cylinders_in_box (fuel : nat) (bvh : Bvh B C) (global_bbox : B)
  (bboxes : list C) (centers : list Center) (primitive_count : Z)
  : option (Bvh B C) :=
  let primitive_indices :=
    sort_primitives_by_morton_code global_bbox centers primitive_count in
  let node_count := wrap (2 * primitive_count - 1) in
  st ← build_rounds search_radius loop_parallel_threshold num_threads fuel
         bboxes primitive_indices primitive_count;
  Some (mkBvh (nodes bvh) (st_nodes st) primitive_indices
          (cylinder bvh) (hybrid bvh) node_count).

(** The loop "make an AABB from every cylinder" of the hybrid build. *)
Definition make_boxes (nodes : list (CustomNode C)) (primitive_count : Z)
  (begin end_ : Z) (bnodes : list (Node B)) : option (list (Node B)) :=
  for_loop 0 primitive_count
    (λ i bnodes,
       node_i ← load nodes i;
       let mynode :=
         mkNode (AABB (cyl node_i)) (cnode_is_leaf node_i)
           (cnode_primitive_count node_i)
           (cnode_first_child_or_primitive node_i) (to_index i) in
       let mynode :=
         if (begin <=? i) && (i <? end_)
         then mkNode (bounds mynode) true (node_primitive_count mynode)
                (node_first_child_or_primitive mynode) (origin mynode)
         else mynode in
       store bnodes i mynode)
    bnodes.

(** What the hybrid build computes: the state after the cylinder rounds
    with the number [k] of rounds run, the box arena right after the
    hand-off loop, and the state after the box rounds. *)
Record HybridRun := mkHybridRun {
  cylinder_phase : BuildState (CustomNode C);
  cylinder_rounds : Z;
  handoff_bnodes : list (Node B);
  box_phase : BuildState (Node B);
}.

(** "Hybrid build function", up to the end of its second round loop. *)
Definition hybrid_rounds (fuel : nat) (bboxes : list C)
  (primitive_indices : list Z) (primitive_count iteration : Z)
  : option HybridRun :=
  let node_count := wrap (2 * primitive_count - 1) in
  st ← initial_state bboxes primitive_indices primitive_count;
  '(st, k) ← round_loop_until search_radius loop_parallel_threshold
               num_threads fuel node_count iteration st 0;
  let bnode_count := wrap (2 * primitive_count - 1) in
  let bnodes := make_unique value_initialized bnode_count in
  let bnodes_copy := make_unique value_initialized bnode_count in
  bnodes ← make_boxes (st_nodes st) primitive_count (st_begin st) (st_end st)
             bnodes;
  bst ← round_loop search_radius loop_parallel_threshold num_threads fuel
          bnode_count
          (mkBuildState bnodes bnodes_copy (st_auxiliary_data st)
             (st_begin st) (st_end st) (st_previous_end st));
  Some (mkHybridRun st k bnodes bst).

(** "Hybrid build function": the box tree goes to [bvh.nodes] and the
    cylinder tree to [bvh.cnodes]. *)
Definition build_hybrid (fuel : nat) (bvh : Bvh B C) (global_bbox : B)
  (bboxes : list C) (centers : list Center) (primitive_count iteration : Z)
  : option (Bvh B C) :=
  let primitive_indices :=
    sort_primitives_by_morton_code global_bbox centers primitive_count in
  let node_count := wrap (2 * primitive_count - 1) in
  run ← hybrid_rounds fuel bboxes primitive_indices primitive_count iteration;
  Some (mkBvh (st_nodes (box_phase run)) (st_nodes (cylinder_phase run))
          primitive_indices (cylinder bvh) (hybrid bvh) node_count).

End Build.

(** ** A concrete instance, for running the builder

    Scalars are integers with a largest element on top; boxes have integer
    corners; cylinders lie along the x axis and are boxed with their
    radius as margin on every side. The sorter keeps the input order. *)

Module Concrete.

Inductive Cost := Finite (z : Z) | Largest.

Definition cost_lt (a b : Cost) : bool :=
  match a, b with
  | Finite x, Finite y => x <? y
  | Finite _, Largest => true
  | Largest, _ => false
  end.

#[export] Instance CostOps : ScalarOps Cost := {|
  scalar_lt := cost_lt;
  scalar_max := Largest;
  scalar_zero := Finite 0;
  index_bits := 64;
|}.

Record Box := mkBox { bmin : Z * Z * Z; bmax : Z * Z * Z }.

Definition vec_map2 (f : Z → Z → Z) (a b : Z * Z * Z) : Z * Z * Z :=
  let '(a0, a1, a2) := a in
  let '(b0, b1, b2) := b in
  (f a0 b0, f a1 b1, f a2 b2).

Definition box_extend (a b : Box) : Box :=
  mkBox (vec_map2 Z.min (bmin a) (bmin b)) (vec_map2 Z.max (bmax a) (bmax b)).

Definition box_half_area (a : Box) : Cost :=
  let '(d0, d1, d2) := vec_map2 Z.sub (bmax a) (bmin a) in
  Finite ((d0 + d1) * d2 + d0 * d1).

#[export] Instance BoxOps : VolumeOps Cost Box := {|
  extend := box_extend;
  half_area := box_half_area;
  volume_zero := mkBox (0, 0, 0) (0, 0, 0);
|}.

(** The cylinder of radius [radius] around the segment from [base] to
    [top] of the x axis. *)
Record Cyl := mkCyl { base : Z; top : Z; radius : Z }.

Definition cyl_extend (a b : Cyl) : Cyl :=
  mkCyl (Z.min (base a) (base b)) (Z.max (top a) (top b))
    (Z.max (radius a) (radius b)).

Definition cyl_half_area (a : Cyl) : Cost :=
  Finite (radius a * (top a - base a + radius a)).

#[export] Instance CylOps : VolumeOps Cost Cyl := {|
  extend := cyl_extend;
  half_area := cyl_half_area;
  volume_zero := mkCyl 0 0 0;
|}.

Definition cyl_AABB (a : Cyl) : Box :=
  mkBox (base a - radius a, - radius a, - radius a)
        (top a + radius a, radius a, radius a).

(** The indices [0, 1, ..., count - 1]. *)
Definition identity_order (count : Z) : list Z :=
  map Z.of_nat (seq 0 (Z.to_nat count)).

#[export] Instance BoxSorter : MortonSorter Box (Z * Z * Z) := {|
  sort_primitives_by_morton_code _ _ count := identity_order count;
|}.

#[export] Instance CylSorter : MortonSorter Cyl (Z * Z * Z) := {|
  sort_primitives_by_morton_code _ _ count := identity_order count;
|}.

(** The unit cube centred at [(2 * x, 0, 0)], in half units. *)
Definition unit_box (x : Z) : Box := mkBox (2 * x - 1, -1, -1) (2 * x + 1, 1, 1).

Definition empty_bvh : Bvh Box Cyl := mkBvh [] [] [] false false 0.

End Concrete.

(** ** Assumptions on the scalar type

    [scalar_lt] is a strict weak order, as [<] is on the floating point
    numbers other than NaN, and every half area is below the largest
    finite scalar. *)
Class ScalarOrder (Scalar : Type) `{ScalarOps Scalar} : Prop := {
  scalar_lt_irrefl a : scalar_lt a a = false;
  scalar_lt_trans a b c :
    scalar_lt a b = true → scalar_lt b c = true → scalar_lt a c = true;
  scalar_ge_trans a b c :
    scalar_lt a b = false → scalar_lt b c = false → scalar_lt a c = false;
}.

Class FiniteAreas (Scalar V : Type) `{ScalarOps Scalar}
  `{!VolumeOps Scalar V} : Prop := {
  half_area_finite (v : V) : scalar_lt (half_area v) scalar_max = true;
}.

(** The union of two volumes has the same half area whichever of the two
    is extended by the other. *)
Class SymmetricCost (Scalar V : Type) `{!VolumeOps Scalar V} : Prop := {
  merge_cost_symmetric (a b : V) :
    half_area (extend a b) = half_area (extend b a);
}.

(** ** Reference definitions used in the statements *)

Section Reference.
Context {Scalar V N : Type} `{ScalarOps Scalar} `{!VolumeOps Scalar V}
  `{!NodeOps Scalar V N}.

Variable search_radius : Z.

(** The node at index [i], for statements about indices known to be inside
    the array. *)
Definition node_at (a : list N) (i : Z) : N :=
  default value_initialized (load a i).

(** The integer at index [i] of an index array. *)
Definition int_at (a : list Z) (i : Z) : Z := default 0 (load a i).

(** The merge cost of nodes [i] and [j], with the volume of [i] extended
    by the volume of [j]. *)
Definition distance (input : list N) (i j : Z) : Scalar :=
  half_area
    (extend (to_bounding_box (node_at input i))
       (to_bounding_box (node_at input j))).

(** The cost the builder uses for the pair [{i, j}]: it always extends the
    volume of the lower index by the volume of the higher one. *)
Definition pair_distance (input : list N) (i j : Z) : Scalar :=
  distance input (Z.min i j) (Z.max i j).

(** The neighbors of [i] in the order of the two searches: backward part
    first, from the lowest index, then the forward part. *)
Definition candidates (begin end_ i : Z) : list Z :=
  let '(search_begin, search_end) := search_range search_radius i begin end_ in
  seqZ search_begin (i - search_begin) ++ seqZ (i + 1) (search_end - (i + 1)).

(** The search of the builder without its cache. *)
Definition scan (input : list N) (i : Z) (js : list Z) (best : Scalar * Z)
  : Scalar * Z :=
  fold_left (λ best j, improve (pair_distance input i j) j best) js best.

Definition direct_neighbor (input : list N) (begin end_ i : Z) : Z :=
  (scan input i (candidates begin end_ i) (scalar_max, SIZE_MAX)).2.

(** The cache-free reference of the specification: evaluate
    [half_area(union(volume(i), volume(j)))] for every [j] of
    [[max(begin, i - R), min(end, i + R + 1))] other than [i], lowest
    index first, and keep the first [j] of minimal cost. *)
Definition reference_candidates (begin end_ i : Z) : list Z :=
  let lo := Z.max begin (i - search_radius) in
  let hi := Z.min end_ (i + search_radius + 1) in
  filter (λ j, j ≠ i) (seqZ lo (hi - lo)).

Definition reference_step (input : list N) (i : Z) (best : option Z) (j : Z)
  : option Z :=
  match best with
  | None => Some j
  | Some b =>
      if scalar_lt (distance input i j) (distance input i b)
      then Some j else Some b
  end.

Definition reference_neighbor (input : list N) (begin end_ i : Z) : option Z :=
  fold_left (reference_step input i) (reference_candidates begin end_ i) None.

End Reference.

(** ** Invariants of the cost cache *)

Section CacheInvariants.
Context {Scalar V N : Type} `{ScalarOps Scalar} `{!VolumeOps Scalar V}
  `{!NodeOps Scalar V N}.

Variable search_radius : Z.

(** The offset of row [a] inside [distances]. *)
Definition row_offset (m : DistanceMatrix Scalar) (a : Z) : Z :=
  int_at (distance_matrix m) a.

(** The rows are [search_radius + 1] disjoint blocks of [search_radius]
    scalars of [distances]. *)
Definition cache_shape (m : DistanceMatrix Scalar) : Prop :=
  Z.of_nat (length (distance_matrix m)) = search_radius + 1 ∧
  Z.of_nat (length (distances m)) = (search_radius + 1) * search_radius ∧
  (∀ a, 0 ≤ a ≤ search_radius →
        ∃ k, 0 ≤ k ≤ search_radius ∧ row_offset m a = k * search_radius) ∧
  (∀ a a', 0 ≤ a ≤ search_radius → 0 ≤ a' ≤ search_radius →
           row_offset m a = row_offset m a' → a = a').

(** Seen from node [i], row [a] holds the forward costs of node [i - a],
    for the nodes [i - a] of [[lo, hi)]. *)
Definition rows_cached (input : list N) (end_ i lo hi : Z)
  (m : DistanceMatrix Scalar) : Prop :=
  ∀ a c, 1 ≤ a ≤ search_radius → 0 ≤ c < search_radius →
         lo ≤ i - a < hi → i - a + 1 + c < end_ →
         dm_get m a c = Some (distance input (i - a) (i - a + 1 + c)).

End CacheInvariants.

(** ** The outcome of a round, in terms of the neighbor function *)

Section RoundOutcome.

(** [n i] is the neighbor chosen for node [i]. *)
Variable n : Z → Z.
Variables begin end_ : Z.

(** [i] and its neighbor chose each other. *)
Definition mutual (i : Z) : bool := n (n i) =? i.

(** The merge flag of [i]: [i < j && is_mergeable]. *)
Definition owner (i : Z) : bool := (i <? n i) && (n (n i) =? i).

(** The number of flagged nodes in [[lo, hi)]. *)
Definition count_owners (lo hi : Z) : Z :=
  Z.of_nat (length (filter (λ k, owner k = true) (seqZ lo (hi - lo)))).

(** The inclusive prefix sum at [i]. *)
Definition rank (i : Z) : Z := count_owners begin (i + 1).

Definition merged_count : Z := count_owners begin end_.
Definition next_begin : Z := begin - merged_count.
Definition next_end : Z := end_ - 2 * merged_count.

(** The slot of the next window that receives node [i] or, when [i] is the
    upper member of a mutual pair, the parent of the pair. *)
Definition slot (i : Z) : Z := next_begin + (i - begin) - rank i.

(** The address of the first child of the pair owned by [i]. *)
Definition first_child_of (i : Z) : Z := next_end + 2 * (rank i - 1).

(** Where the round copies node [i] of the window to; the nodes above
    the window keep their index. *)
Definition destination (i : Z) : Z :=
  if end_ <=? i then i
  else if owner i then first_child_of i
  else if mutual i then first_child_of (n i) + 1
  else slot i.

End RoundOutcome.

Section Unflagged.
Variable n : Z → Z.
Variable begin : Z.

(** The number of unflagged nodes of [[begin, i)]. *)
Definition unflagged_below (i : Z) : Z := (i - begin) - count_owners n begin i.

End Unflagged.

Section Written.
Variable n : Z → Z.
Variables begin end_ : Z.

(** The output index [x] is written when the loop handles node [i]. *)
Definition written_by (i x : Z) : Prop :=
  (mutual n i = false ∧ x = slot n begin end_ i) ∨
  (owner n i = true ∧
   (x = slot n begin end_ (n i) ∨ x = first_child_of n begin end_ i ∨
    x = first_child_of n begin end_ i + 1)).

End Written.

Section Parent.
Context {Scalar V N : Type} `{ScalarOps Scalar} `{!VolumeOps Scalar V}
  `{!NodeOps Scalar V N}.

(** The parent written over the stale node [old] for the children
    [node_i] (first) and [node_j] (second) placed at [first_child]. *)
Definition parent_node (old node_i node_j : N) (first_child : Z) : N :=
  set_first_child_or_primitive first_child
    (set_is_leaf false
       (assign_bounding_box
          (extend (to_bounding_box node_j) (to_bounding_box node_i)) old)).

End Parent.

(** ** Invariants of the round loop *)

Section Invariants.
Context {Scalar V N : Type} `{ScalarOps Scalar} `{!VolumeOps Scalar V}
  `{!NodeOps Scalar V N}.

Variable bboxes : list V.
Variable primitive_indices : list Z.
(** The number of primitives of the build. *)
Variable primitives : Z.

Local Abbreviation node_count := (2 * primitives - 1).

(** The buffers have their full size and the window [[begin, end)] of
    [begin + 1] nodes ends at the odd index [2 * begin + 1]. *)
Record window_invariant (st : BuildState N) : Prop := {
  inv_nodes_length : Z.of_nat (length (st_nodes st)) = node_count;
  inv_copy_length : Z.of_nat (length (st_nodes_copy st)) = node_count;
  inv_aux_length : Z.of_nat (length (st_auxiliary_data st)) = 3 * node_count;
  inv_begin : 0 ≤ st_begin st;
  inv_end : st_end st = 2 * st_begin st + 1;
  inv_previous_end : st_end st ≤ st_previous_end st ≤ node_count;
}.

(** The nodes from [begin] on form a forest: the ones in the window are
    the roots, the ones above the window are their descendants. *)
Record forest_invariant (st : BuildState N) : Prop := {
  (** the spare buffer already holds the nodes that no round will copy *)
  inv_copy x :
    st_previous_end st ≤ x < node_count →
    load (st_nodes_copy st) x = load (st_nodes st) x;
  (** a leaf is the leaf created for a primitive *)
  inv_leaf x :
    st_begin st ≤ x < node_count →
    is_leaf (node_at (st_nodes st) x) = true →
    primitive_count (node_at (st_nodes st) x) = 1 ∧
    0 ≤ first_child_or_primitive (node_at (st_nodes st) x) < primitives ∧
    ∃ p, load primitive_indices
           (first_child_or_primitive (node_at (st_nodes st) x)) = Some p ∧
         load bboxes p = Some (to_bounding_box (node_at (st_nodes st) x));
  (** every rank of the permutation has its leaf *)
  inv_leaf_exists r :
    0 ≤ r < primitives →
    ∃ x, st_begin st ≤ x < node_count ∧
         is_leaf (node_at (st_nodes st) x) = true ∧
         first_child_or_primitive (node_at (st_nodes st) x) = r;
  (** and only one *)
  inv_leaf_unique x y :
    st_begin st ≤ x < node_count → st_begin st ≤ y < node_count →
    is_leaf (node_at (st_nodes st) x) = true →
    is_leaf (node_at (st_nodes st) y) = true →
    first_child_or_primitive (node_at (st_nodes st) x) =
    first_child_or_primitive (node_at (st_nodes st) y) →
    x = y;
  (** an internal node has its two children at an odd index above the
      window and holds the second child's volume extended by the
      first child's *)
  inv_internal x :
    st_begin st ≤ x < node_count →
    is_leaf (node_at (st_nodes st) x) = false →
    let first_child := first_child_or_primitive (node_at (st_nodes st) x) in
    st_end st ≤ first_child ∧ first_child + 1 < node_count ∧
    first_child mod 2 = 1 ∧
    to_bounding_box (node_at (st_nodes st) x) =
    extend (to_bounding_box (node_at (st_nodes st) (first_child + 1)))
           (to_bounding_box (node_at (st_nodes st) first_child));
  (** every node above the window is a child of some node *)
  inv_parent c :
    st_end st ≤ c < node_count →
    ∃ x, st_begin st ≤ x < node_count ∧
         is_leaf (node_at (st_nodes st) x) = false ∧
         (first_child_or_primitive (node_at (st_nodes st) x) = c ∨
          first_child_or_primitive (node_at (st_nodes st) x) + 1 = c);
}.

End Invariants.

(** ** The contract of the sorter and the leaves *)

(** The sorter returns the indices [0 .. count - 1] in some order. *)
Definition is_permutation (primitive_indices : list Z) (count : Z) : Prop :=
  Permutation primitive_indices (seqZ 0 count).

Section Leaves.
Context {Scalar V N : Type} `{ScalarOps Scalar} `{!VolumeOps Scalar V}
  `{!NodeOps Scalar V N}.

(** The leaf that [create_leaves] makes of the value-initialised node for
    the primitive of rank [i], whose volume is [bbox]. *)
Definition leaf_node (bbox : V) (i : Z) : N :=
  set_first_child_or_primitive i
    (set_primitive_count 1
       (set_is_leaf true (assign_bounding_box bbox value_initialized))).

End Leaves.

(** ** What the theorems assume of the build parameters *)

(** The search radius is at least 1 and its cache can be allocated, every
    team has at least one thread, there is at least one primitive, the
    sizes computed by the build do not overflow [size_t], and the node
    indices fit [Bvh::IndexType]. *)
Record build_assumptions `{ScalarOps Scalar} (search_radius : Z)
  (num_threads : Z → Z → Z) (primitives : Z) : Prop := {
  radius_positive : 1 ≤ search_radius;
  cache_fits : (search_radius + 1) * search_radius < size_modulus;
  threads_valid : ∀ b e, 1 ≤ num_threads b e < size_modulus;
  size_fits : 1 ≤ primitives ∧ 6 * primitives + search_radius < size_modulus;
  index_fits : 2 ≤ index_bits ∧ 2 * primitives - 1 ≤ 2 ^ index_bits;
}.

(** What the theorems on one call of [cluster] assume: the window has at
    least two nodes and lies inside the buffers, its image fits below it,
    the two index arrays lie inside [auxiliary_data] one after the other,
    no size overflows [size_t] and the node indices fit
    [Bvh::IndexType]. *)
Record cluster_assumptions `{ScalarOps Scalar} {N : Type}
  (search_radius thread_count : Z) (input output : list N) (aux : list Z)
  (neighbors merged_index begin end_ previous_end : Z) : Prop := {
  call_radius : 1 ≤ search_radius;
  call_cache : (search_radius + 1) * search_radius < size_modulus;
  call_threads : 1 ≤ thread_count < size_modulus;
  call_window :
    0 ≤ begin ∧ begin + 2 ≤ end_ ∧ end_ ≤ previous_end ∧
    previous_end ≤ Z.of_nat (length input);
  call_output : length output = length input;
  call_sizes : end_ + search_radius + 1 < size_modulus;
  call_arrays :
    0 ≤ neighbors ∧ neighbors + end_ ≤ merged_index ∧
    merged_index + end_ ≤ Z.of_nat (length aux);
  call_room : end_ - begin ≤ begin + 1;
  call_indices : end_ ≤ 2 ^ index_bits;
}.

(** ** Properties of a finished arena *)

Section Arena.
Context {Scalar V N : Type} `{ScalarOps Scalar} `{!VolumeOps Scalar V}
  `{!NodeOps Scalar V N}.

Variable bboxes : list V.
Variable primitive_indices : list Z.
Variable primitives : Z.

(** Leaf number [i] is at index [node_count - primitives + i] and is made
    of primitive [primitive_indices[i]]; the nodes before the leaves are
    still value-initialised. *)
Definition seeded (nodes : list N) : Prop :=
  (∀ i, 0 ≤ i < primitives →
     ∃ p bbox node,
       load primitive_indices i = Some p ∧ load bboxes p = Some bbox ∧
       load nodes ((2 * primitives - 1) - primitives + i) = Some node ∧
       to_bounding_box node = bbox ∧ is_leaf node = true ∧
       primitive_count node = 1 ∧ first_child_or_primitive node = i) ∧
  (∀ x, 0 ≤ x < (2 * primitives - 1) - primitives →
     load nodes x = Some value_initialized).

(** The leaf at index [x] covers primitive [p]: [p] is one of the
    [primitive_count] entries of the permutation that start at
    [first_child_or_primitive]. *)
Definition covers (nodes : list N) (x p : Z) : Prop :=
  is_leaf (node_at nodes x) = true ∧
  ∃ t, 0 ≤ t < primitive_count (node_at nodes x) ∧
       load primitive_indices
         (first_child_or_primitive (node_at nodes x) + t) = Some p.

(** Every primitive is covered by exactly one leaf among the nodes from
    index [from] on. *)
Definition covers_once (nodes : list N) (from : Z) : Prop :=
  ∀ p, 0 ≤ p < primitives →
    ∃ x, from ≤ x < 2 * primitives - 1 ∧ covers nodes x p ∧
         ∀ y, from ≤ y < 2 * primitives - 1 → covers nodes y p → y = x.

(** Every internal node from index [from] on has its children inside the
    array and holds the volume of its second child extended by the volume
    of its first child. *)
Definition volumes_are_unions (nodes : list N) (from : Z) : Prop :=
  ∀ x, from ≤ x < 2 * primitives - 1 →
    is_leaf (node_at nodes x) = false →
    let first_child := first_child_or_primitive (node_at nodes x) in
    from ≤ first_child ∧ first_child + 1 < 2 * primitives - 1 ∧
    to_bounding_box (node_at nodes x) =
    extend (to_bounding_box (node_at nodes (first_child + 1)))
           (to_bounding_box (node_at nodes first_child)).

(** [x] is the parent of [c]. *)
Definition parent_of (nodes : list N) (x c : Z) : Prop :=
  0 ≤ x < 2 * primitives - 1 ∧ is_leaf (node_at nodes x) = false ∧
  (first_child_or_primitive (node_at nodes x) = c ∨
   first_child_or_primitive (node_at nodes x) + 1 = c).

(** The first child of every internal node is odd, every node but the
    root has a parent, and [sibling] maps each child of a node to the
    other child of that node. *)
Definition siblings_adjacent (nodes : list N) : Prop :=
  (∀ x, 0 ≤ x < 2 * primitives - 1 →
     is_leaf (node_at nodes x) = false →
     first_child_or_primitive (node_at nodes x) mod 2 = 1) ∧
  (∀ c, 1 ≤ c < 2 * primitives - 1 →
     ∃ x, parent_of nodes x c ∧ parent_of nodes x (sibling c) ∧
          sibling c ≠ c ∧ sibling (sibling c) = c ∧
          1 ≤ sibling c < 2 * primitives - 1 ∧
          (is_left_sibling c = true ↔
           first_child_or_primitive (node_at nodes x) = c)).

End Arena.

(** ** The shape of an arena *)

Section Shape.
Context {Scalar V N : Type} `{ScalarOps Scalar} `{!VolumeOps Scalar V}
  `{!NodeOps Scalar V N}.

Variable primitives : Z.

(** From index [from] on, the children of an internal node are stored
    after the node, and two internal nodes have different first
    children. *)
Record tree_shape (nodes : list N) (from : Z) : Prop := {
  shape_order x :
    from ≤ x < 2 * primitives - 1 → is_leaf (node_at nodes x) = false →
    x < first_child_or_primitive (node_at nodes x);
  shape_distinct x y :
    from ≤ x < 2 * primitives - 1 → from ≤ y < 2 * primitives - 1 →
    is_leaf (node_at nodes x) = false → is_leaf (node_at nodes y) = false →
    first_child_or_primitive (node_at nodes x) =
    first_child_or_primitive (node_at nodes y) →
    x = y;
}.

(** The arena is a binary tree rooted at index 0: the two children of an
    internal node are inside the array, after the node; every node but
    the root is a child of exactly one node; the root is a child of
    none. *)
Definition is_tree (nodes : list N) : Prop :=
  (∀ x, 0 ≤ x < 2 * primitives - 1 → is_leaf (node_at nodes x) = false →
     x < first_child_or_primitive (node_at nodes x) ∧
     first_child_or_primitive (node_at nodes x) + 1 < 2 * primitives - 1) ∧
  (∀ c, 1 ≤ c < 2 * primitives - 1 →
     ∃ x, parent_of primitives nodes x c ∧
          ∀ y, parent_of primitives nodes y c → y = x) ∧
  (∀ x, ¬ parent_of primitives nodes x 0).

End Shape.

Section LeafContents.
Context {Scalar V N : Type} `{ScalarOps Scalar} `{!VolumeOps Scalar V}
  `{!NodeOps Scalar V N}.

(** Every leaf of the arena holds one primitive: its [primitive_count] is
    1, its [first_child_or_primitive] is a rank of the permutation and its
    volume is the volume of the primitive of that rank. *)
Definition leaves_are_primitives (bboxes : list V) (primitive_indices : list Z)
  (primitives : Z) (nodes : list N) : Prop :=
  ∀ x, 0 ≤ x < 2 * primitives - 1 → is_leaf (node_at nodes x) = true →
    primitive_count (node_at nodes x) = 1 ∧
    0 ≤ first_child_or_primitive (node_at nodes x) < primitives ∧
    ∃ p, load primitive_indices (first_child_or_primitive (node_at nodes x))
           = Some p ∧
         load bboxes p = Some (to_bounding_box (node_at nodes x)).

End LeafContents.

(** ** Enclosure

    What a hierarchy needs of the union of two volumes: the result
    encloses both. This holds of [BoundingBox::extend], which takes the
    minimum and the maximum of the corners. *)
Class Enclosure (Scalar V : Type) `{!VolumeOps Scalar V} := {
  encloses : V → V → Prop;
  encloses_refl a : encloses a a;
  encloses_trans a b c : encloses a b → encloses b c → encloses a c;
  extend_encloses_left a b : encloses (extend a b) a;
  extend_encloses_right a b : encloses (extend a b) b;
}.

Section Census.
Context {Scalar V N : Type} `{ScalarOps Scalar} `{!VolumeOps Scalar V}
  `{!NodeOps Scalar V N}.

(** The number of leaves and of internal nodes of an arena of
    [2 * primitives - 1] nodes. *)
Definition leaf_count (primitives : Z) (nodes : list N) : Z :=
  Z.of_nat (length (filter (λ x, is_leaf (node_at nodes x) = true)
                      (seqZ 0 (2 * primitives - 1)))).

Definition internal_count (primitives : Z) (nodes : list N) : Z :=
  Z.of_nat (length (filter (λ x, ¬ is_leaf (node_at nodes x) = true)
                      (seqZ 0 (2 * primitives - 1)))).

(** The volume of the root encloses the volume of every node and of
    every primitive. *)
Definition root_encloses_all `{!Enclosure Scalar V} (bboxes : list V)
  (primitives : Z) (nodes : list N) : Prop :=
  (∀ x, 0 ≤ x < 2 * primitives - 1 →
     encloses (to_bounding_box (node_at nodes 0))
              (to_bounding_box (node_at nodes x))) ∧
  (∀ p, 0 ≤ p < primitives →
     ∃ bbox, load bboxes p = Some bbox ∧
             encloses (to_bounding_box (node_at nodes 0)) bbox).

End Census.

(** * Verification *)

(** ** Arithmetic modulo [2^64] *)

Lemma size_modulus_eq : size_modulus = 18446744073709551616.
Proof. reflexivity. Qed.

Lemma wrap_small z : 0 ≤ z < size_modulus → wrap z = z.
Proof. intros ?. unfold wrap. apply Z.mod_small. lia. Qed.

Lemma wrap_range z : 0 ≤ wrap z < size_modulus.
Proof. unfold wrap. apply Z.mod_pos_bound. rewrite size_modulus_eq. lia. Qed.

Lemma wrap_minus_one : wrap (-1) = SIZE_MAX.
Proof. reflexivity. Qed.

Opaque size_modulus.

(** ** Arrays *)

Section Arrays.
Context {A : Type}.
Implicit Types (a : list A) (i j : Z) (v : A).

Lemma load_Some a i v :
  load a i = Some v ↔ 0 ≤ i ∧ a !! Z.to_nat i = Some v.
Proof.
  unfold load. destruct (Z.ltb_spec i 0).
  - split; [done|lia].
  - split; [intros ?; split; [lia|done] | intros [_ ?]; done].
Qed.

Lemma load_lt a i v : load a i = Some v → 0 ≤ i < Z.of_nat (length a).
Proof.
  intros [? Hl]%load_Some. apply lookup_lt_Some in Hl. lia.
Qed.

Lemma load_is_Some a i : 0 ≤ i < Z.of_nat (length a) → is_Some (load a i).
Proof.
  intros ?. unfold load. destruct (Z.ltb_spec i 0); [lia|].
  apply lookup_lt_is_Some. lia.
Qed.

Lemma load_None a i : ¬ (0 ≤ i < Z.of_nat (length a)) → load a i = None.
Proof.
  intros ?. destruct (load a i) eqn:E; [|done].
  apply load_lt in E. lia.
Qed.

Lemma store_Some a i v :
  0 ≤ i < Z.of_nat (length a) → store a i v = Some (<[Z.to_nat i := v]> a).
Proof.
  intros ?. unfold store.
  destruct (Z.leb_spec 0 i); [|lia]. destruct (Z.ltb_spec i (Z.of_nat (length a))); [|lia].
  reflexivity.
Qed.

Lemma store_inv a i v a' :
  store a i v = Some a' →
  0 ≤ i < Z.of_nat (length a) ∧ a' = <[Z.to_nat i := v]> a.
Proof.
  unfold store.
  destruct (Z.leb_spec 0 i); [|discriminate].
  destruct (Z.ltb_spec i (Z.of_nat (length a))); [|discriminate].
  simpl. intros [= <-]. split; [lia|done].
Qed.

Lemma store_length a i v a' : store a i v = Some a' → length a' = length a.
Proof. intros [_ ->]%store_inv. apply length_insert. Qed.

Lemma load_store_eq a i v a' : store a i v = Some a' → load a' i = Some v.
Proof.
  intros [? ->]%store_inv. apply load_Some. split; [lia|].
  apply list_lookup_insert_eq. lia.
Qed.

Lemma load_store_ne a i j v a' :
  store a i v = Some a' → i ≠ j → load a' j = load a j.
Proof.
  intros [? ->]%store_inv ?. unfold load.
  destruct (Z.ltb_spec j 0); [done|].
  apply list_lookup_insert_ne. lia.
Qed.

Lemma load_make_unique (zero : A) n i :
  0 ≤ i < n → load (make_unique zero n) i = Some zero.
Proof.
  intros ?. apply load_Some. split; [lia|].
  unfold make_unique. apply lookup_replicate_2. lia.
Qed.

Lemma length_make_unique (zero : A) n :
  0 ≤ n → Z.of_nat (length (make_unique zero n)) = n.
Proof. intros ?. unfold make_unique. rewrite length_replicate. lia. Qed.

Lemma load_ext a a' :
  (∀ i, load a i = load a' i) → a = a'.
Proof.
  intros Hext. apply list_eq. intros k.
  specialize (Hext (Z.of_nat k)). unfold load in Hext.
  destruct (Z.ltb_spec (Z.of_nat k) 0); [lia|].
  by rewrite Nat2Z.id in Hext.
Qed.

End Arrays.

(** ** Counted loops *)

Lemma seqZ_snoc lo j : lo ≤ j → seqZ lo (j + 1 - lo) = seqZ lo (j - lo) ++ [j].
Proof.
  intros ?. replace (j + 1 - lo) with ((j - lo) + 1) by lia.
  rewrite seqZ_app by lia. f_equal.
  replace (lo + (j - lo)) with j by lia. reflexivity.
Qed.

Section Loops.
Context {S : Type}.
Implicit Types (body : Z → S → option S) (s : S).

Lemma for_loop_done lo hi body s : hi ≤ lo → for_loop lo hi body s = Some s.
Proof.
  intros ?. unfold for_loop. replace (Z.to_nat (hi - lo)) with O by lia. done.
Qed.

Lemma for_loop_first lo hi body s :
  lo < hi →
  for_loop lo hi body s = body lo s ≫= for_loop (lo + 1) hi body.
Proof.
  intros ?. unfold for_loop.
  replace (Z.to_nat (hi - lo)) with (Datatypes.S (Z.to_nat (hi - (lo + 1)))) by lia.
  reflexivity.
Qed.

Lemma iterate_from_app n k i body s :
  iterate_from (n + k) i body s =
  iterate_from n i body s ≫= iterate_from k (i + Z.of_nat n) body.
Proof.
  revert i s. induction n as [|n IH]; intros i s.
  - simpl. f_equal. lia.
  - simpl. destruct (body i s) as [s'|]; [|done]. simpl.
    rewrite IH. do 2 f_equal. lia.
Qed.

Lemma for_loop_split mid lo hi body s :
  lo ≤ mid ≤ hi →
  for_loop lo hi body s = for_loop lo mid body s ≫= for_loop mid hi body.
Proof.
  intros ?. unfold for_loop.
  replace (Z.to_nat (hi - lo))
    with (Z.to_nat (mid - lo) + Z.to_nat (hi - mid))%nat by lia.
  rewrite iterate_from_app. do 2 f_equal. lia.
Qed.

Lemma for_loop_last lo hi body s :
  lo ≤ hi →
  for_loop lo (hi + 1) body s = for_loop lo hi body s ≫= body hi.
Proof.
  intros ?. rewrite (for_loop_split hi) by lia.
  destruct (for_loop lo hi body s) as [s'|]; [|done]. simpl.
  rewrite for_loop_first by lia. destruct (body hi s'); [|done]. simpl.
  apply for_loop_done. lia.
Qed.

(** Two bodies that agree on the range run the same loop. *)
Lemma for_loop_ext lo hi body body' s :
  (∀ i s, lo ≤ i < hi → body i s = body' i s) →
  for_loop lo hi body s = for_loop lo hi body' s.
Proof.
  intros Hext. unfold for_loop.
  assert (∀ (n : nat) i s, lo ≤ i → i + Z.of_nat n ≤ hi →
    iterate_from n i body s = iterate_from n i body' s) as Hn.
  { induction n as [|n IH]; intros i s1 ??; [done|]. simpl.
    rewrite Hext by lia. destruct (body' i s1); [|done]. simpl.
    apply IH; lia. }
  destruct (Z.le_gt_cases hi lo).
  - replace (Z.to_nat (hi - lo)) with O by lia. done.
  - apply Hn; lia.
Qed.

(** The invariant rule: a body that preserves [Inv] and never faults
    makes the loop end in a state that satisfies [Inv hi]. *)
Lemma for_loop_invariant (Inv : Z → S → Prop) lo hi body s :
  lo ≤ hi →
  Inv lo s →
  (∀ i s, lo ≤ i < hi → Inv i s → ∃ s', body i s = Some s' ∧ Inv (i + 1) s') →
  ∃ s', for_loop lo hi body s = Some s' ∧ Inv hi s'.
Proof.
  intros Hle Hinit Hstep.
  assert (∀ n : nat, lo + Z.of_nat n ≤ hi →
    ∃ s', for_loop lo (lo + Z.of_nat n) body s = Some s' ∧
          Inv (lo + Z.of_nat n) s') as Hn.
  { induction n as [|n IH]; intros Hb.
    - exists s. rewrite Z.add_0_r. split; [apply for_loop_done; lia|done].
    - destruct IH as (s1 & Hrun & Hinv); [lia|].
      destruct (Hstep (lo + Z.of_nat n) s1 ltac:(lia) Hinv) as (s2 & Hbody & Hinv2).
      exists s2. replace (lo + Z.of_nat (Datatypes.S n)) with (lo + Z.of_nat n + 1) by lia.
      rewrite for_loop_last by lia. rewrite Hrun. simpl. done. }
  specialize (Hn (Z.to_nat (hi - lo))).
  replace (lo + Z.of_nat (Z.to_nat (hi - lo))) with hi in Hn by lia.
  apply Hn. lia.
Qed.

End Loops.

(** ** The nearest neighbor search and its cache *)

Section Reads.
Context {Scalar V N : Type} `{ScalarOps Scalar} `{!VolumeOps Scalar V}
  `{!NodeOps Scalar V N}.

Lemma node_at_load (a : list N) i n : load a i = Some n → node_at a i = n.
Proof. intros Hl. unfold node_at. by rewrite Hl. Qed.

Lemma load_node_at (a : list N) i :
  0 ≤ i < Z.of_nat (length a) → load a i = Some (node_at a i).
Proof.
  intros Hi. destruct (load_is_Some a i Hi) as [n Hn].
  by rewrite (node_at_load _ _ _ Hn).
Qed.

Lemma int_at_load (a : list Z) i z : load a i = Some z → int_at a i = z.
Proof. intros Hl. unfold int_at. by rewrite Hl. Qed.

Lemma load_int_at (a : list Z) i :
  0 ≤ i < Z.of_nat (length a) → load a i = Some (int_at a i).
Proof.
  intros Hi. destruct (load_is_Some a i Hi) as [n Hn].
  by rewrite (int_at_load _ _ _ Hn).
Qed.

Lemma merge_cost_distance (input : list N) i j :
  0 ≤ i < Z.of_nat (length input) → 0 ≤ j < Z.of_nat (length input) →
  merge_cost input i j = Some (distance input i j).
Proof.
  intros Hi Hj. unfold merge_cost, distance.
  rewrite (load_node_at _ _ Hi), (load_node_at _ _ Hj). reflexivity.
Qed.

End Reads.

Section SearchChunk.
Context {Scalar V N : Type} `{ScalarOps Scalar} `{!VolumeOps Scalar V}
  `{!NodeOps Scalar V N}.

Variable search_radius : Z.
Variable input : list N.
Variables begin end_ : Z.

Hypothesis radius_nonneg : 0 ≤ search_radius.
Hypothesis cache_fits : (search_radius + 1) * search_radius < size_modulus.
Hypothesis window_in_input : 0 ≤ begin ≤ end_ ∧ end_ ≤ Z.of_nat (length input).
Hypothesis no_overflow : end_ + search_radius + 1 < size_modulus.

Local Abbreviation R := search_radius.
Implicit Types (m : DistanceMatrix Scalar) (best : Scalar * Z).

Lemma search_range_spec i :
  begin ≤ i ≤ end_ →
  search_range R i begin end_ = (Z.max begin (i - R), Z.min (i + R + 1) end_).
Proof.
  intros Hi. unfold search_range.
  rewrite (wrap_small (begin + R)) by lia.
  rewrite (wrap_small (i + R + 1)) by lia.
  destruct (Z.ltb_spec (begin + R) i).
  - rewrite wrap_small by lia. f_equal. lia.
  - f_equal. lia.
Qed.

Lemma block_disjoint k k' c c' :
  0 ≤ c < R → 0 ≤ c' < R → k * R + c = k' * R + c' → k = k' ∧ c = c'.
Proof.
  intros Hc Hc' Heq.
  assert (k = k') as ->.
  { assert ((k * R + c) / R = k) as Hk by (rewrite Z.div_add_l by lia; rewrite Z.div_small; lia).
    assert ((k' * R + c') / R = k') as Hk' by (rewrite Z.div_add_l by lia; rewrite Z.div_small; lia).
    congruence. }
  split; [done|lia].
Qed.

Lemma row_offset_load (m : DistanceMatrix Scalar) a :
  cache_shape R m → 0 ≤ a ≤ R →
  load (distance_matrix m) a = Some (row_offset m a).
Proof.
  intros (Hlen & _) Ha. apply load_int_at. lia.
Qed.

Lemma row_offset_bounds (m : DistanceMatrix Scalar) a c :
  cache_shape R m → 0 ≤ a ≤ R → 0 ≤ c < R →
  0 ≤ row_offset m a + c < Z.of_nat (length (distances m)).
Proof.
  intros (_ & Hlen & Hrows & _) Ha Hc.
  destruct (Hrows a Ha) as (k & Hk & ->). rewrite Hlen. nia.
Qed.

Lemma dm_get_spec (m : DistanceMatrix Scalar) a c :
  cache_shape R m → 0 ≤ a ≤ R →
  dm_get m a c = load (distances m) (row_offset m a + c).
Proof.
  intros Hs Ha. unfold dm_get. by rewrite (row_offset_load _ _ Hs Ha).
Qed.

Lemma dm_set_spec (m : DistanceMatrix Scalar) a c d :
  cache_shape R m → 0 ≤ a ≤ R → 0 ≤ c < R →
  ∃ m', dm_set m a c d = Some m' ∧
        cache_shape R m' ∧
        distance_matrix m' = distance_matrix m ∧
        dm_get m' a c = Some d ∧
        (∀ a' c', 0 ≤ a' ≤ R → 0 ≤ c' < R → (a' ≠ a ∨ c' ≠ c) →
                  dm_get m' a' c' = dm_get m a' c').
Proof.
  intros Hs Ha Hc. unfold dm_set.
  rewrite (row_offset_load _ _ Hs Ha). simpl.
  pose proof (row_offset_bounds _ _ _ Hs Ha Hc) as Hb.
  rewrite store_Some by done. simpl.
  set (m' := mkDistanceMatrix _ _).
  assert (cache_shape R m') as Hs'.
  { destruct Hs as (H1 & H2 & H3 & H4). unfold cache_shape, row_offset. simpl.
    rewrite length_insert. done. }
  exists m'. split; [done|]. split; [done|]. split; [done|]. split.
  - rewrite dm_get_spec by done. unfold row_offset. simpl.
    apply load_Some. split; [apply Hb|]. apply list_lookup_insert_eq. lia.
  - intros a' c' Ha' Hc' Hne.
    rewrite !dm_get_spec by done. unfold row_offset. simpl.
    fold (row_offset m a) (row_offset m a').
    pose proof (row_offset_bounds _ _ _ Hs Ha' Hc') as Hb'.
    unfold load. destruct (Z.ltb_spec (row_offset m a' + c') 0); [done|].
    apply list_lookup_insert_ne.
    intros Heq. apply Z2Nat.inj in Heq; [|lia..].
    destruct Hs as (_ & _ & Hrows & Hinj).
    destruct (Hrows a Ha) as (k & Hk & Hka).
    destruct (Hrows a' Ha') as (k' & Hk' & Hka').
    rewrite Hka, Hka' in Heq.
    apply block_disjoint in Heq as [-> ->]; [|lia..].
    destruct Hne as [Hne|Hne]; [|done].
    apply Hne. apply Hinj; [done..|]. congruence.
Qed.

Lemma make_distance_matrix_spec :
  ∃ m, make_distance_matrix R = Some m ∧ cache_shape R m.
Proof.
  unfold make_distance_matrix.
  rewrite (wrap_small (R + 1)) by nia.
  rewrite (wrap_small ((R + 1) * R)) by nia.
  destruct (for_loop_invariant
    (λ i rows, Z.of_nat (length rows) = R + 1 ∧
               ∀ a, 0 ≤ a < i → load rows a = Some (a * R))
    0 (R + 1) (λ i rows, store rows i (wrap (i * R))) (make_unique 0 (R + 1)))
    as (rows & Hrun & Hlen & Hrows).
  - lia.
  - split; [apply length_make_unique; lia|]. intros; lia.
  - intros i rows Hi [Hlen Hrows].
    rewrite wrap_small by nia. rewrite store_Some by lia.
    eexists. split; [done|]. split; [by rewrite length_insert|].
    intros a Ha. destruct (decide (a = i)) as [->|Hne].
    + apply load_Some. split; [lia|]. apply list_lookup_insert_eq. lia.
    + unfold load. destruct (Z.ltb_spec a 0); [lia|].
      rewrite list_lookup_insert_ne by lia.
      specialize (Hrows a ltac:(lia)). apply load_Some in Hrows. apply Hrows.
  - rewrite Hrun. simpl. eexists. split; [done|].
    assert (∀ a, 0 ≤ a ≤ R →
      row_offset {| distances := make_unique scalar_zero ((R + 1) * R);
                    distance_matrix := rows |} a = a * R) as Hoff.
    { intros a Ha. unfold row_offset. simpl. apply int_at_load. apply Hrows. lia. }
    split; [done|]. split; [simpl; apply length_make_unique; nia|]. split.
    + intros a Ha. exists a. split; [done|]. by apply Hoff.
    + intros a a' Ha Ha'. rewrite !Hoff by done. nia.
Qed.

(** The inner loop of the initialisation fills the row of node [i]. *)
Lemma init_row chunk_begin i m :
  cache_shape R m →
  Z.max begin (chunk_begin - R) ≤ i < chunk_begin → chunk_begin ≤ end_ →
  ∃ m', for_loop (i + 1) (search_range R i begin end_).2
          (λ j m, d ← merge_cost input i j;
                  dm_set m (wrap (chunk_begin - i)) (wrap (j - i - 1)) d) m
        = Some m' ∧
        cache_shape R m' ∧
        (∀ a c, 0 ≤ a ≤ R → 0 ≤ c < R → a ≠ chunk_begin - i →
                dm_get m' a c = dm_get m a c) ∧
        (∀ c, 0 ≤ c < R → i + 1 + c < end_ →
              dm_get m' (chunk_begin - i) c = Some (distance input i (i + 1 + c))).
Proof.
  intros Hs Hi Hcb.
  rewrite search_range_spec by lia. simpl.
  destruct (for_loop_invariant
    (λ j m', cache_shape R m' ∧
       (∀ a c, 0 ≤ a ≤ R → 0 ≤ c < R → a ≠ chunk_begin - i →
               dm_get m' a c = dm_get m a c) ∧
       (∀ c, 0 ≤ c < j - i - 1 →
             dm_get m' (chunk_begin - i) c = Some (distance input i (i + 1 + c))))
    (i + 1) (Z.min (i + R + 1) end_)
    (λ j m, d ← merge_cost input i j;
            dm_set m (wrap (chunk_begin - i)) (wrap (j - i - 1)) d) m)
    as (m' & Hrun & Hs' & Hother & Hrow).
  - lia.
  - split; [done|]. split; [done|]. intros; lia.
  - intros j m1 Hj (Hs1 & Hother & Hrow).
    rewrite merge_cost_distance by lia. simpl.
    rewrite !wrap_small by lia.
    destruct (dm_set_spec m1 (chunk_begin - i) (j - i - 1) (distance input i j) Hs1)
      as (m2 & Hset & Hs2 & _ & Hget & Hrest); [lia..|].
    exists m2. split; [done|]. split; [done|]. split.
    + intros a c Ha Hc Hne. rewrite Hrest by auto. by apply Hother.
    + intros c Hc. destruct (decide (c = j - i - 1)) as [->|Hne].
      * rewrite Hget. do 2 f_equal. lia.
      * rewrite Hrest by (auto || lia). apply Hrow. lia.
  - exists m'. split; [done|]. split; [done|]. split; [done|].
    intros c Hc Hend. apply Hrow. lia.
Qed.

Lemma init_distance_matrix_spec chunk_begin m :
  cache_shape R m → begin ≤ chunk_begin ≤ end_ →
  ∃ m', init_distance_matrix R input begin end_ chunk_begin m = Some m' ∧
        cache_shape R m' ∧
        rows_cached R input end_ chunk_begin begin chunk_begin m'.
Proof.
  intros Hs Hcb. unfold init_distance_matrix.
  rewrite (search_range_spec chunk_begin) by lia. simpl.
  destruct (for_loop_invariant
    (λ i m', cache_shape R m' ∧
             rows_cached R input end_ chunk_begin
               (Z.max begin (chunk_begin - R)) i m')
    (Z.max begin (chunk_begin - R)) chunk_begin
    (λ i m,
       let search_end := (search_range R i begin end_).2 in
       for_loop (i + 1) search_end
         (λ j m, d ← merge_cost input i j;
                 dm_set m (wrap (chunk_begin - i)) (wrap (j - i - 1)) d) m) m)
    as (m' & Hrun & Hs' & Hrows).
  - lia.
  - split; [done|]. intros a c ????. lia.
  - intros i m1 Hi (Hs1 & Hrows). simpl.
    destruct (init_row chunk_begin i m1 Hs1) as (m2 & Hrun & Hs2 & Hother & Hrow);
      [lia..|].
    exists m2. split; [done|]. split; [done|].
    intros a c Ha Hc Hlo Hend.
    destruct (decide (a = chunk_begin - i)) as [->|Hne].
    + rewrite Hrow by lia. do 2 f_equal; lia.
    + rewrite Hother by lia. apply Hrows; lia.
  - exists m'. split; [done|]. split; [done|].
    intros a c Ha Hc Hlo Hend. apply Hrows; lia.
Qed.

Lemma scan_app i js js' (best : Scalar * Z) :
  scan input i (js ++ js') best = scan input i js' (scan input i js best).
Proof. unfold scan. apply fold_left_app. Qed.

Lemma backward_search_spec i m best :
  cache_shape R m → rows_cached R input end_ i begin i m →
  begin ≤ i < end_ →
  let search_begin := Z.max begin (i - R) in
  backward_search m i search_begin best =
  Some (scan input i (seqZ search_begin (i - search_begin)) best).
Proof.
  intros Hs Hrows Hi sb. unfold backward_search.
  destruct (for_loop_invariant
    (λ j b, b = scan input i (seqZ sb (j - sb)) best)
    sb i
    (λ j (best : Scalar * Z),
       distance ← dm_get m (wrap (i - j)) (wrap (i - j - 1));
       Some (improve distance j best)) best)
    as (b & Hrun & ->); [lia| | |done].
  - rewrite seqZ_nil by lia. reflexivity.
  - intros j b Hj ->. rewrite !wrap_small by lia.
    rewrite (Hrows (i - j) (i - j - 1)) by lia. simpl.
    eexists. split; [done|].
    rewrite seqZ_snoc by lia. rewrite scan_app. simpl.
    unfold pair_distance. rewrite Z.min_r, Z.max_l by lia.
    do 3 f_equal; lia.
Qed.

Lemma forward_search_spec i m best :
  cache_shape R m → begin ≤ i < end_ →
  let search_end := Z.min (i + R + 1) end_ in
  ∃ m', forward_search input i search_end (m, best) =
          Some (m', scan input i (seqZ (i + 1) (search_end - (i + 1))) best) ∧
        cache_shape R m' ∧
        (∀ a c, 1 ≤ a ≤ R → 0 ≤ c < R → dm_get m' a c = dm_get m a c) ∧
        (∀ c, 0 ≤ c < R → i + 1 + c < end_ →
              dm_get m' 0 c = Some (distance input i (i + 1 + c))).
Proof.
  intros Hs Hi se. unfold forward_search.
  destruct (for_loop_invariant
    (λ j st, cache_shape R st.1 ∧
       st.2 = scan input i (seqZ (i + 1) (j - (i + 1))) best ∧
       (∀ a c, 1 ≤ a ≤ R → 0 ≤ c < R → dm_get st.1 a c = dm_get m a c) ∧
       (∀ c, 0 ≤ c < j - i - 1 →
             dm_get st.1 0 c = Some (distance input i (i + 1 + c))))
    (i + 1) se
    (λ j (st : DistanceMatrix Scalar * (Scalar * Z)),
       distance ← merge_cost input i j;
       m ← dm_set st.1 0 (wrap (j - i - 1)) distance;
       Some (m, improve distance j st.2)) (m, best))
    as ([m' b] & Hrun & Hs' & Hb & Hother & Hrow); [lia| | |].
  - simpl. split; [done|]. split; [by rewrite seqZ_nil by lia|].
    split; [done|]. intros; lia.
  - intros j [m1 b1] Hj (Hs1 & Hb1 & Hother & Hrow). simpl in *.
    rewrite merge_cost_distance by lia. simpl.
    rewrite wrap_small by lia.
    destruct (dm_set_spec m1 0 (j - i - 1) (distance input i j) Hs1)
      as (m2 & Hset & Hs2 & _ & Hget & Hrest); [lia..|].
    rewrite Hset. simpl. eexists. split; [done|]. simpl.
    split; [done|]. split; [|split].
    + subst b1. rewrite seqZ_snoc by lia. rewrite scan_app. simpl.
      unfold pair_distance. rewrite Z.min_l, Z.max_r by lia. reflexivity.
    + intros a c Ha Hc. rewrite Hrest by lia. by apply Hother.
    + intros c Hc. destruct (decide (c = j - i - 1)) as [->|Hne].
      * rewrite Hget. do 2 f_equal. lia.
      * rewrite Hrest by lia. apply Hrow. lia.
  - simpl in *. exists m'. rewrite Hrun, Hb. split; [done|]. split; [done|].
    split; [done|]. intros c Hc Hend. apply Hrow. lia.
Qed.

Lemma rotate_spec m :
  cache_shape R m →
  ∃ m', rotate R m = Some m' ∧ cache_shape R m' ∧
        (∀ a c, 1 ≤ a ≤ R → dm_get m' a c = dm_get m (a - 1) c).
Proof.
  intros Hs. unfold rotate.
  rewrite (row_offset_load _ _ Hs) by lia. simpl.
  set (m' := mkDistanceMatrix _ _). exists m'. split; [done|].
  pose proof Hs as (Hlen & Hlen2 & Hrows & Hinj).
  assert (Z.of_nat (length (distance_matrix m')) = R + 1) as Hlen'.
  { simpl. rewrite length_take. lia. }
  assert (∀ a, 1 ≤ a ≤ R → row_offset m' a = row_offset m (a - 1)) as Hshift.
  { intros a Ha. unfold row_offset at 1. apply int_at_load.
    apply load_Some. split; [lia|]. simpl.
    replace (Z.to_nat a) with (Datatypes.S (Z.to_nat (a - 1))) by lia. simpl.
    rewrite lookup_take_lt by lia.
    pose proof (row_offset_load m (a - 1) Hs ltac:(lia)) as Hl.
    apply load_Some in Hl. apply Hl. }
  assert (row_offset m' 0 = row_offset m R) as Hzero.
  { unfold row_offset at 1. by apply int_at_load. }
  assert (∀ a, 0 ≤ a ≤ R →
    row_offset m' a = row_offset m (if decide (a = 0) then R else a - 1)) as Hrot.
  { intros a Ha. destruct (decide (a = 0)) as [->|]; [done|]. apply Hshift. lia. }
  assert (cache_shape R m') as Hs'.
  { split; [done|]. split; [done|]. split.
    - intros a Ha. rewrite Hrot by done. apply Hrows. destruct (decide (a = 0)); lia.
    - intros a a' Ha Ha'. rewrite !Hrot by done. intros Heq.
      apply Hinj in Heq; repeat destruct (decide _); lia. }
  split; [done|].
  intros a c Ha. rewrite !dm_get_spec by (done || lia).
  by rewrite Hshift.
Qed.

Lemma direct_neighbor_unfold i :
  begin ≤ i < end_ →
  direct_neighbor R input begin end_ i =
  (scan input i (seqZ (i + 1) (Z.min (i + R + 1) end_ - (i + 1)))
     (scan input i (seqZ (Z.max begin (i - R)) (i - Z.max begin (i - R)))
        (scalar_max, SIZE_MAX))).2.
Proof.
  intros Hi. unfold direct_neighbor, candidates.
  rewrite search_range_spec by lia. by rewrite scan_app.
Qed.

(** A thread's search over its chunk stores, for each node of the chunk,
    the neighbor that the search without cache finds. *)
Lemma search_chunk_spec neighbors chunk_begin chunk_end aux :
  begin ≤ chunk_begin ≤ chunk_end → chunk_end ≤ end_ →
  0 ≤ neighbors → neighbors + end_ ≤ Z.of_nat (length aux) →
  ∃ aux',
    search_chunk R input neighbors begin end_ chunk_begin chunk_end aux = Some aux' ∧
    for_loop chunk_begin chunk_end
      (λ i aux, store aux (neighbors + i) (direct_neighbor R input begin end_ i))
      aux = Some aux' ∧
    length aux' = length aux.
Proof.
  intros Hcb Hce Hnb Haux. unfold search_chunk.
  destruct make_distance_matrix_spec as (m0 & -> & Hs0). simpl.
  destruct (init_distance_matrix_spec chunk_begin m0 Hs0) as (m1 & -> & Hs1 & Hrows1);
    [lia|]. simpl.
  destruct (for_loop_invariant
    (λ i st, cache_shape R st.1 ∧ rows_cached R input end_ i begin i st.1 ∧
       length st.2 = length aux ∧
       for_loop chunk_begin i
         (λ i aux, store aux (neighbors + i) (direct_neighbor R input begin end_ i))
         aux = Some st.2)
    chunk_begin chunk_end (nearest_neighbor R input neighbors begin end_) (m1, aux))
    as ([m' aux'] & Hrun & _ & _ & Hlen & Hloop); [lia| | |].
  - simpl. split; [done|]. split; [done|]. split; [done|].
    apply for_loop_done. lia.
  - intros i [m a1] Hi (Hs & Hrows & Hlen & Hloop). simpl in *.
    unfold nearest_neighbor. rewrite search_range_spec by lia. simpl.
    rewrite backward_search_spec by (done || lia). simpl.
    destruct (forward_search_spec i m
      (scan input i (seqZ (Z.max begin (i - R)) (i - Z.max begin (i - R)))
         (scalar_max, SIZE_MAX)) Hs)
      as (m2 & -> & Hs2 & Hother & Hrow); [lia|]. simpl.
    rewrite <- direct_neighbor_unfold by lia.
    rewrite store_Some by lia. simpl.
    destruct (rotate_spec m2 Hs2) as (m3 & -> & Hs3 & Hshift). simpl.
    eexists. split; [done|]. simpl. split; [done|]. split; [|split].
    + intros a c Ha Hc Hlo Hend. rewrite Hshift by done.
      destruct (decide (a = 1)) as [->|Hne].
      * replace (1 - 1) with 0 by lia. rewrite Hrow by lia. do 2 f_equal; lia.
      * rewrite Hother by lia. rewrite (Hrows (a - 1) c) by lia.
        do 2 f_equal; lia.
    + rewrite length_insert. done.
    + rewrite for_loop_last by lia. rewrite Hloop. simpl.
      apply store_Some. lia.
  - simpl in *. rewrite Hrun. simpl. exists aux'. done.
Qed.

(** The chunks of the threads tile the window, so the whole team stores
    the neighbors that one sweep over the window would store. *)
Lemma search_neighbors_spec neighbors thread_count aux :
  1 ≤ thread_count < size_modulus →
  0 ≤ neighbors → neighbors + end_ ≤ Z.of_nat (length aux) →
  ∃ aux',
    search_neighbors R input neighbors begin end_ thread_count aux = Some aux' ∧
    for_loop begin end_
      (λ i aux, store aux (neighbors + i) (direct_neighbor R input begin end_ i))
      aux = Some aux' ∧
    length aux' = length aux.
Proof.
  intros HT Hnb Haux. unfold search_neighbors.
  set (F := λ i (aux : list Z),
         store aux (neighbors + i) (direct_neighbor R input begin end_ i)).
  set (cs := (end_ - begin) / thread_count).
  assert (0 ≤ cs) as Hcs0 by (apply Z.div_pos; lia).
  assert (thread_count * cs ≤ end_ - begin) as Hcs
    by (apply Z.mul_div_le; lia).
  set (bound := λ t, if t <? thread_count then begin + t * cs else end_).
  assert (∀ t, 0 ≤ t < thread_count →
    chunk begin end_ thread_count t = (bound t, bound (t + 1))) as Hchunk.
  { intros t Ht. unfold chunk, bound.
    rewrite (wrap_small (end_ - begin)) by lia. fold cs.
    rewrite (wrap_small (thread_count - 1)) by lia.
    rewrite (wrap_small (begin + t * cs)) by nia.
    destruct (Z.ltb_spec t thread_count); [|lia].
    destruct (Z.eqb_spec t (thread_count - 1)) as [->|Hne].
    - destruct (Z.ltb_spec (thread_count - 1 + 1) thread_count); [lia|done].
    - destruct (Z.ltb_spec (t + 1) thread_count); [|lia].
      rewrite wrap_small by nia. f_equal. lia. }
  assert (∀ t, 0 ≤ t < thread_count → begin ≤ bound t ≤ bound (t + 1) ∧ bound (t + 1) ≤ end_)
    as Hmono.
  { intros t Ht. unfold bound.
    destruct (Z.ltb_spec t thread_count); [|lia].
    destruct (Z.ltb_spec (t + 1) thread_count); nia. }
  destruct (for_loop_invariant
    (λ t a, length a = length aux ∧ for_loop begin (bound t) F aux = Some a)
    0 thread_count
    (λ thread_id aux,
       let '(chunk_begin, chunk_end) := chunk begin end_ thread_count thread_id in
       search_chunk R input neighbors begin end_ chunk_begin chunk_end aux) aux)
    as (aux' & Hrun & Hlen & Hloop); [lia| | |].
  - split; [done|]. apply for_loop_done. unfold bound.
    destruct (Z.ltb_spec 0 thread_count); lia.
  - intros t a Ht [Hlen Hloop]. rewrite Hchunk by done.
    destruct (Hmono t Ht) as [Hb1 Hb2].
    destruct (search_chunk_spec neighbors (bound t) (bound (t + 1)) a)
      as (a' & Hrun & Hloop' & Hlen'); [lia..|].
    exists a'. split; [done|]. split; [congruence|].
    rewrite (for_loop_split (bound t)) by lia. rewrite Hloop. simpl. apply Hloop'.
  - exists aux'. split; [done|]. split; [|done].
    replace end_ with (bound thread_count); [done|]. unfold bound.
    destruct (Z.ltb_spec thread_count thread_count); [lia|done].
Qed.

End SearchChunk.

(** ** Merge flags and their prefix sums *)

Section StoreSweep.
Context {A : Type}.

(** A loop that stores [g i] at [off + i] for each [i] of [[lo, hi)]. *)
Lemma store_sweep (g : Z → A) off lo hi (a : list A) :
  lo ≤ hi → 0 ≤ off + lo → off + hi ≤ Z.of_nat (length a) →
  ∃ a', for_loop lo hi (λ i a, store a (off + i) (g i)) a = Some a' ∧
        length a' = length a ∧
        (∀ i, lo ≤ i < hi → load a' (off + i) = Some (g i)) ∧
        (∀ x, ¬ (off + lo ≤ x < off + hi) → load a' x = load a x).
Proof.
  intros Hle Hlo Hhi.
  destruct (for_loop_invariant
    (λ k a', length a' = length a ∧
       (∀ i, lo ≤ i < k → load a' (off + i) = Some (g i)) ∧
       (∀ x, ¬ (off + lo ≤ x < off + k) → load a' x = load a x))
    lo hi (λ i a, store a (off + i) (g i)) a)
    as (a' & Hrun & Hinv); [lia| | |by exists a'].
  - split; [done|]. split; [intros; lia|done].
  - intros k a1 Hk (Hlen & Hin & Hout).
    destruct (store a1 (off + k) (g k)) as [a2|] eqn:Hst;
      [|rewrite store_Some in Hst by lia; done].
    exists a2. split; [done|]. split; [|split].
    + apply store_length in Hst. congruence.
    + intros i Hi. destruct (decide (i = k)) as [->|Hne].
      * by apply load_store_eq in Hst.
      * rewrite (load_store_ne _ _ _ _ _ Hst) by lia. apply Hin. lia.
    + intros x Hx. rewrite (load_store_ne _ _ _ _ _ Hst) by lia. apply Hout. lia.
Qed.

End StoreSweep.

Section Counting.
Variable n : Z → Z.

Lemma count_owners_empty lo hi : hi ≤ lo → count_owners n lo hi = 0.
Proof. intros ?. unfold count_owners. by rewrite seqZ_nil by lia. Qed.

Lemma count_owners_last lo hi :
  lo ≤ hi →
  count_owners n lo (hi + 1) =
  count_owners n lo hi + (if owner n hi then 1 else 0).
Proof.
  intros ?. unfold count_owners. rewrite seqZ_snoc by lia.
  rewrite filter_app, length_app.
  destruct (owner n hi) eqn:E.
  - rewrite filter_cons_True by done. simpl. lia.
  - rewrite filter_cons_False by (rewrite E; done). simpl. lia.
Qed.

Lemma count_owners_range lo hi :
  lo ≤ hi → 0 ≤ count_owners n lo hi ≤ hi - lo.
Proof.
  intros ?. unfold count_owners.
  pose proof (length_filter (λ k, owner n k = true) (seqZ lo (hi - lo))) as Hl.
  rewrite length_seqZ in Hl. lia.
Qed.

Lemma count_owners_mono lo hi hi' :
  lo ≤ hi ≤ hi' → count_owners n lo hi ≤ count_owners n lo hi'.
Proof.
  intros [Hlo Hhi].
  replace hi' with (hi + Z.of_nat (Z.to_nat (hi' - hi))) by lia.
  induction (Z.to_nat (hi' - hi)) as [|k IH].
  - rewrite Z.add_0_r. lia.
  - replace (hi + Z.of_nat (Datatypes.S k)) with (hi + Z.of_nat k + 1) by lia.
    rewrite count_owners_last by lia. destruct (owner n _); lia.
Qed.

End Counting.

Section Flags.
Variable n : Z → Z.
Variables neighbors merged_index begin end_ : Z.
Variable aux : list Z.

Hypothesis window : 0 ≤ begin ≤ end_ ∧ end_ < size_modulus.
Hypothesis arrays : 0 ≤ neighbors ∧ neighbors + end_ ≤ merged_index ∧
                    merged_index + end_ ≤ Z.of_nat (length aux).
Hypothesis neighbors_stored :
  ∀ i, begin ≤ i < end_ → load aux (neighbors + i) = Some (n i).
Hypothesis neighbors_in_window :
  ∀ i, begin ≤ i < end_ → begin ≤ n i < end_.

Lemma mark_merged_spec :
  ∃ aux', mark_merged neighbors merged_index begin end_ aux = Some aux' ∧
          length aux' = length aux ∧
          (∀ i, begin ≤ i < end_ →
                load aux' (merged_index + i) = Some (if owner n i then 1 else 0)) ∧
          (∀ x, ¬ (merged_index + begin ≤ x < merged_index + end_) →
                load aux' x = load aux x).
Proof.
  destruct (store_sweep (λ i, if owner n i then 1 else 0) merged_index
              begin end_ aux) as (aux' & Hrun & Hspec); [lia..|].
  exists aux'. split; [|done]. rewrite <- Hrun. unfold mark_merged.
  assert (∀ k a, begin ≤ k ≤ end_ →
    (∀ x, ¬ (merged_index + begin ≤ x < merged_index + end_) →
          load a x = load aux x) →
    length a = length aux →
    for_loop k end_
      (λ i aux, j ← load aux (neighbors + i);
                nj ← load aux (neighbors + j);
                let is_mergeable := nj =? i in
                store aux (merged_index + i)
                  (if (i <? j) && is_mergeable then 1 else 0)) a =
    for_loop k end_
      (λ i a, store a (merged_index + i) (if owner n i then 1 else 0)) a) as Hgen.
  { intros k a Hk. remember (Z.to_nat (end_ - k)) as m eqn:Hm.
    revert k a Hk Hm. induction m as [|m IH]; intros k a Hk Hm Hout Hlen.
    - rewrite !for_loop_done by lia. done.
    - rewrite !(for_loop_first k) by lia.
      rewrite Hout by lia. rewrite neighbors_stored by lia. simpl.
      pose proof (neighbors_in_window k ltac:(lia)) as Hnk.
      rewrite Hout by lia. rewrite neighbors_stored by lia. simpl.
      fold (owner n k).
      destruct (store a (merged_index + k) _) as [a'|] eqn:Hst; [|done]. simpl.
      apply IH; [lia|lia| |].
      + intros x Hx. rewrite (load_store_ne _ _ _ _ _ Hst) by lia. by apply Hout.
      + apply store_length in Hst. congruence. }
  apply Hgen; [lia|done|done].
Qed.

Lemma sum_in_parallel_spec aux1 :
  length aux1 = length aux →
  (∀ i, begin ≤ i < end_ →
        load aux1 (merged_index + i) = Some (if owner n i then 1 else 0)) →
  ∃ aux', sum_in_parallel (merged_index + begin) (wrap (end_ - begin)) aux1
            = Some aux' ∧
          length aux' = length aux ∧
          (∀ i, begin ≤ i < end_ →
                load aux' (merged_index + i) = Some (rank n begin i)) ∧
          (∀ x, ¬ (merged_index + begin ≤ x < merged_index + end_) →
                load aux' x = load aux1 x).
Proof.
  intros Hlen Hflags. unfold sum_in_parallel.
  rewrite wrap_small by lia.
  destruct (Z.le_gt_cases (end_ - begin) 1) as [Hsmall|Hbig].
  { rewrite for_loop_done by lia. exists aux1. split; [done|]. split; [done|].
    split; [|done]. intros i Hi. rewrite Hflags by done.
    unfold rank. replace i with begin by lia.
    rewrite count_owners_last, count_owners_empty by lia. done. }
  destruct (for_loop_invariant
    (λ k a, length a = length aux ∧
       (∀ i, begin ≤ i < begin + k →
             load a (merged_index + i) = Some (rank n begin i)) ∧
       (∀ i, begin + k ≤ i < end_ →
             load a (merged_index + i) = Some (if owner n i then 1 else 0)) ∧
       (∀ x, ¬ (merged_index + begin ≤ x < merged_index + end_) →
             load a x = load aux1 x))
    1 (end_ - begin)
    (λ k aux, a ← load aux (merged_index + begin + k - 1);
              b ← load aux (merged_index + begin + k);
              store aux (merged_index + begin + k) (wrap (a + b))) aux1)
    as (aux' & Hrun & Hlen' & Hsum & _ & Hout); [lia| | |].
  - split; [done|]. split; [|split; [|done]].
    + intros i Hi. rewrite Hflags by lia. unfold rank.
      replace i with begin by lia.
      rewrite count_owners_last, count_owners_empty by lia. done.
    + intros i Hi. apply Hflags. lia.
  - intros k a Hk (Hlen1 & Hsum & Hfl & Hout).
    replace (merged_index + begin + k - 1) with (merged_index + (begin + k - 1)) by lia.
    replace (merged_index + begin + k) with (merged_index + (begin + k)) by lia.
    rewrite (Hsum (begin + k - 1)) by lia. simpl.
    rewrite (Hfl (begin + k)) by lia. simpl.
    assert (rank n begin (begin + k - 1) + (if owner n (begin + k) then 1 else 0)
            = rank n begin (begin + k)) as Hrank.
    { unfold rank. replace (begin + k - 1 + 1) with (begin + k) by lia.
      rewrite (count_owners_last n begin (begin + k)) by lia. done. }
    rewrite Hrank.
    pose proof (count_owners_range n begin (begin + k + 1) ltac:(lia)) as Hr.
    fold (rank n begin (begin + k)) in Hr.
    rewrite wrap_small by lia.
    destruct (store a (merged_index + (begin + k)) (rank n begin (begin + k)))
      as [a'|] eqn:Hst; [|rewrite store_Some in Hst by lia; done].
    exists a'. split; [done|]. split; [|split; [|split]].
    + apply store_length in Hst. congruence.
    + intros i Hi. destruct (decide (i = begin + k)) as [->|Hne].
      * by apply load_store_eq in Hst.
      * rewrite (load_store_ne _ _ _ _ _ Hst) by lia. apply Hsum. lia.
    + intros i Hi. rewrite (load_store_ne _ _ _ _ _ Hst) by lia. apply Hfl. lia.
    + intros x Hx. rewrite (load_store_ne _ _ _ _ _ Hst) by lia. by apply Hout.
  - exists aux'. split; [done|]. split; [done|]. split; [|done].
    intros i Hi. apply Hsum. lia.
Qed.

End Flags.

(** ** Where the nodes of a window go *)

(** A function that grows by steps of 0 or 1 takes every value between
    its first and its last one. *)
Lemma unit_steps_reach (f : Z → Z) lo hi t :
  lo ≤ hi →
  (∀ i, lo ≤ i < hi → f (i + 1) = f i ∨ f (i + 1) = f i + 1) →
  f lo ≤ t < f hi →
  ∃ i, lo ≤ i < hi ∧ f i = t ∧ f (i + 1) = t + 1.
Proof.
  intros Hle Hstep.
  replace hi with (lo + Z.of_nat (Z.to_nat (hi - lo))) by lia.
  assert (∀ k : nat, lo + Z.of_nat k ≤ hi →
    f lo ≤ t < f (lo + Z.of_nat k) →
    ∃ i, lo ≤ i < lo + Z.of_nat k ∧ f i = t ∧ f (i + 1) = t + 1) as Hk.
  { induction k as [|k IH]; intros Hb Ht.
    - rewrite Z.add_0_r in Ht. lia.
    - replace (lo + Z.of_nat (Datatypes.S k)) with (lo + Z.of_nat k + 1) in * by lia.
      destruct (Z.lt_ge_cases t (f (lo + Z.of_nat k))) as [Hlt|Hge].
      + destruct IH as (i & Hi & Hfi); [lia|lia|]. exists i. split; [lia|done].
      + exists (lo + Z.of_nat k).
        destruct (Hstep (lo + Z.of_nat k)) as [Hs|Hs]; [lia| |]; lia. }
  apply Hk. lia.
Qed.

Lemma length_filter_split {A} (P : A → Prop) `{∀ x, Decision (P x)} (l : list A) :
  (length (filter P l) + length (filter (λ x, ¬ P x) l) = length l)%nat.
Proof.
  induction l as [|x l IH]; [done|].
  rewrite !filter_cons. destruct (decide (P x)).
  - rewrite decide_False by tauto. simpl. lia.
  - rewrite decide_True by done. simpl. lia.
Qed.

Section Relocation.
Variable n : Z → Z.
Variables begin end_ : Z.

Hypothesis window : begin ≤ end_.
Hypothesis neighbors_valid :
  ∀ i, begin ≤ i < end_ → begin ≤ n i < end_ ∧ n i ≠ i.

Local Abbreviation own := (owner n).
Local Abbreviation mut := (mutual n).
Local Abbreviation count := (count_owners n).
Local Abbreviation rnk := (rank n begin).
Local Abbreviation slt := (slot n begin end_).
Local Abbreviation fco := (first_child_of n begin end_).
Local Abbreviation mc := (merged_count n begin end_).
Local Abbreviation nbeg := (next_begin n begin end_).
Local Abbreviation nend := (next_end n begin end_).
Local Abbreviation unflagged_below := (unflagged_below n begin).

Lemma owner_spec i : own i = true ↔ i < n i ∧ n (n i) = i.
Proof.
  unfold owner. rewrite andb_true_iff, Z.ltb_lt, Z.eqb_eq. done.
Qed.

Lemma mutual_spec i : mut i = true ↔ n (n i) = i.
Proof. unfold mutual. apply Z.eqb_eq. Qed.

Lemma owner_mutual i : own i = true → mut i = true.
Proof. rewrite owner_spec, mutual_spec. tauto. Qed.

Lemma partner_not_owner i : own i = true → own (n i) = false.
Proof.
  rewrite owner_spec. intros [Hlt Hnn].
  apply not_true_is_false. rewrite owner_spec. rewrite Hnn. lia.
Qed.

Lemma partner_mutual i : mut i = true → mut (n i) = true.
Proof. rewrite !mutual_spec. congruence. Qed.

Lemma partner_owner i :
  begin ≤ i < end_ → mut i = true → own i = false → own (n i) = true.
Proof.
  intros Hi Hm Ho. apply mutual_spec in Hm.
  apply owner_spec. rewrite Hm. split; [|congruence].
  destruct (neighbors_valid i Hi) as [_ Hne].
  destruct (Z.lt_ge_cases i (n i)) as [Hlt|Hge]; [|lia].
  assert (own i = true) by (apply owner_spec; done). congruence.
Qed.

Lemma count_split mid lo hi :
  lo ≤ mid ≤ hi → count lo hi = count lo mid + count mid hi.
Proof.
  intros ?. unfold count_owners.
  replace (hi - lo) with ((mid - lo) + (hi - mid)) by lia.
  rewrite seqZ_app by lia. rewrite filter_app, length_app.
  replace (lo + (mid - lo)) with mid by lia. lia.
Qed.

Lemma rank_owner i :
  begin ≤ i → rnk i = count begin i + (if own i then 1 else 0).
Proof. intros ?. unfold rank. by rewrite count_owners_last. Qed.

(** There is room for two children per merged pair. *)
Lemma merged_count_half : 0 ≤ mc ∧ 2 * mc ≤ end_ - begin.
Proof.
  unfold merged_count, count_owners.
  set (W := seqZ begin (end_ - begin)).
  set (O := filter (λ k, own k = true) W).
  assert (length (n <$> O) ≤ length (filter (λ k, ¬ own k = true) W))%nat as Hle.
  { apply submseteq_length. apply NoDup_submseteq.
    - apply NoDup_fmap_2_strong; [|apply NoDup_filter, NoDup_seqZ].
      intros x y Hx Hy Heq.
      apply list_elem_of_filter in Hx as [Hx _]. apply list_elem_of_filter in Hy as [Hy _].
      apply owner_spec in Hx as [_ Hx]. apply owner_spec in Hy as [_ Hy]. congruence.
    - intros x Hx. apply list_elem_of_fmap in Hx as (i & -> & Hi).
      apply list_elem_of_filter in Hi as [Ho Hi].
      apply elem_of_seqZ in Hi.
      apply list_elem_of_filter. split.
      + rewrite partner_not_owner by done. done.
      + apply elem_of_seqZ. destruct (neighbors_valid i) as [? _]; lia. }
  rewrite length_fmap in Hle.
  pose proof (length_filter_split (λ k, own k = true) W) as Hsplit.
  fold O in Hsplit. subst W. rewrite length_seqZ in Hsplit.
  unfold O in *. lia.
Qed.

Lemma unflagged_step i :
  begin ≤ i →
  unflagged_below (i + 1) = unflagged_below i + (if own i then 0 else 1).
Proof.
  intros ?. unfold unflagged_below. rewrite count_owners_last by lia.
  destruct (own i); lia.
Qed.

Lemma unflagged_mono i i' :
  begin ≤ i ≤ i' → unflagged_below i ≤ unflagged_below i'.
Proof.
  intros ?. unfold unflagged_below. rewrite (count_split i begin i') by lia.
  pose proof (count_owners_range n i i'). lia.
Qed.

Lemma slot_unflagged i :
  begin ≤ i → own i = false → slt i = nbeg + unflagged_below i.
Proof.
  intros ? Ho. unfold slot, unflagged_below.
  rewrite rank_owner by done. rewrite Ho. lia.
Qed.

Lemma slot_range i :
  begin ≤ i < end_ → own i = false → nbeg ≤ slt i < nend.
Proof.
  intros Hi Ho. rewrite slot_unflagged by (done || lia).
  pose proof (unflagged_mono (i + 1) end_ ltac:(lia)) as Hm.
  rewrite unflagged_step, Ho in Hm by lia.
  assert (0 ≤ unflagged_below i).
  { unfold unflagged_below. pose proof (count_owners_range n begin i). lia. }
  unfold next_begin, next_end, merged_count in *.
  unfold unflagged_below in Hm at 2. lia.
Qed.

Lemma slot_lt i i' :
  begin ≤ i < i' → own i = false → own i' = false → slt i < slt i'.
Proof.
  intros Hi Ho Ho'. rewrite !slot_unflagged by (done || lia).
  pose proof (unflagged_mono (i + 1) i' ltac:(lia)) as Hm.
  rewrite unflagged_step, Ho in Hm by lia. lia.
Qed.

Lemma slot_inj i i' :
  begin ≤ i → begin ≤ i' → own i = false → own i' = false →
  slt i = slt i' → i = i'.
Proof.
  intros Hi Hi' Ho Ho' Heq.
  destruct (Z.lt_trichotomy i i') as [Hlt|[->|Hgt]]; [|done|].
  - pose proof (slot_lt i i' ltac:(lia) Ho Ho'). lia.
  - pose proof (slot_lt i' i ltac:(lia) Ho' Ho). lia.
Qed.

Lemma first_child_range i :
  begin ≤ i < end_ → own i = true →
  nend ≤ fco i ∧ fco i + 1 < end_.
Proof.
  intros Hi Ho. unfold first_child_of, next_end.
  rewrite rank_owner, Ho by lia.
  pose proof (count_owners_range n begin i ltac:(lia)).
  pose proof (count_owners_mono n begin (i + 1) end_ ltac:(lia)) as Hm.
  rewrite count_owners_last, Ho in Hm by lia.
  unfold merged_count. lia.
Qed.

Lemma first_child_lt i i' :
  begin ≤ i < i' → own i = true → own i' = true →
  fco i + 2 ≤ fco i'.
Proof.
  intros Hi Ho Ho'. unfold first_child_of.
  rewrite !rank_owner, Ho, Ho' by lia.
  pose proof (count_owners_mono n begin (i + 1) i' ltac:(lia)) as Hm.
  rewrite count_owners_last, Ho in Hm by lia. lia.
Qed.

(** Every slt of the next window is the slt of an unflagged node. *)
Lemma slot_surjective x :
  nbeg ≤ x < nend →
  ∃ i, begin ≤ i < end_ ∧ own i = false ∧ slt i = x.
Proof.
  intros Hx.
  destruct (unit_steps_reach unflagged_below begin end_ (x - nbeg))
    as (i & Hi & Hu & Hu'); [done| | |].
  - intros i Hi. rewrite unflagged_step by lia. destruct (own i); lia.
  - unfold unflagged_below. rewrite count_owners_empty by lia.
    unfold next_begin, next_end, merged_count in *. lia.
  - rewrite unflagged_step in Hu' by lia.
    exists i. destruct (own i) eqn:Ho; [lia|].
    split; [done|]. split; [done|]. rewrite slot_unflagged by (done || lia). lia.
Qed.

(** Every index from [nend] up to [end_] is a child of a flagged node. *)
Lemma child_surjective x :
  nend ≤ x < end_ →
  ∃ i, begin ≤ i < end_ ∧ own i = true ∧
       (x = fco i ∨ x = fco i + 1).
Proof.
  intros Hx.
  destruct (unit_steps_reach (count begin) begin end_ ((x - nend) / 2))
    as (i & Hi & Hc & Hc'); [done| | |].
  - intros i Hi. rewrite count_owners_last by lia. destruct (own i); lia.
  - rewrite count_owners_empty by lia.
    unfold next_end, merged_count in *.
    split; [apply Z.div_pos; lia|]. apply Z.div_lt_upper_bound; lia.
  - rewrite count_owners_last in Hc' by lia.
    exists i. destruct (own i) eqn:Ho; [|lia].
    split; [done|]. split; [done|].
    unfold first_child_of. rewrite rank_owner, Ho by lia.
    pose proof (Z.div_mod (x - nend) 2 ltac:(lia)) as Hdm.
    pose proof (Z.mod_pos_bound (x - nend) 2 ltac:(lia)) as Hmb.
    lia.
Qed.

End Relocation.

(** ** The loop that writes parents, children and survivors *)

Section MergeLoop.
Context {Scalar V N : Type} `{ScalarOps Scalar} `{!VolumeOps Scalar V}
  `{!NodeOps Scalar V N}.

Variable n : Z → Z.
Variables (input output : list N) (aux : list Z).
Variables neighbors merged_index begin end_ : Z.

Hypothesis window : 0 ≤ begin < end_ ∧ end_ < size_modulus.
Hypothesis input_length : end_ ≤ Z.of_nat (length input).
Hypothesis output_length : length output = length input.
Hypothesis neighbors_valid :
  ∀ i, begin ≤ i < end_ → begin ≤ n i < end_ ∧ n i ≠ i.
Hypothesis room : merged_count n begin end_ ≤ begin.
Hypothesis offsets : 0 ≤ neighbors ∧ 0 ≤ merged_index.
Hypothesis neighbors_stored :
  ∀ i, begin ≤ i < end_ → load aux (neighbors + i) = Some (n i).
Hypothesis ranks_stored :
  ∀ i, begin ≤ i < end_ → load aux (merged_index + i) = Some (rank n begin i).

Local Abbreviation own := (owner n).
Local Abbreviation mut := (mutual n).
Local Abbreviation slt := (slot n begin end_).
Local Abbreviation fco := (first_child_of n begin end_).
Local Abbreviation nbeg := (next_begin n begin end_).
Local Abbreviation nend := (next_end n begin end_).
Local Abbreviation step :=
  (merge_node input aux neighbors merged_index begin nbeg nend).

Lemma next_window_range : 0 ≤ nbeg ∧ nbeg < nend ∧ nend ≤ end_.
Proof.
  pose proof (merged_count_half n begin end_ ltac:(lia) neighbors_valid).
  unfold next_begin, next_end. lia.
Qed.

Lemma merge_node_survivor i (out : list N) :
  begin ≤ i < end_ → length out = length input → mut i = false →
  ∃ out', step i out = Some out' ∧ length out' = length input ∧
          load out' (slt i) = Some (node_at input i) ∧
          (∀ x, x ≠ slt i → load out' x = load out x).
Proof.
  intros Hi Hlen Hm. unfold merge_node.
  pose proof (neighbors_valid i Hi) as [Hni _].
  rewrite neighbors_stored by done. simpl.
  rewrite neighbors_stored by done. simpl.
  fold (mut i). rewrite Hm.
  rewrite ranks_stored by done. simpl.
  rewrite load_node_at by lia. simpl.
  assert (own i = false) as Ho.
  { apply not_true_is_false. intros Ho%owner_mutual. congruence. }
  pose proof (slot_range n begin end_ i Hi Ho) as Hs.
  pose proof next_window_range as Hw.
  replace (wrap (nbeg + i - begin - rank n begin i)) with (slt i)
    by (unfold slot in *; rewrite wrap_small; lia).
  destruct (store out (slt i) (node_at input i)) as [out'|] eqn:Hst;
    [|rewrite store_Some in Hst by lia; done].
  exists out'. split; [done|]. split; [|split].
  - apply store_length in Hst. congruence.
  - by apply load_store_eq in Hst.
  - intros x Hx. by apply (load_store_ne _ _ _ _ _ Hst).
Qed.

Lemma merge_node_partner i (out : list N) :
  begin ≤ i < end_ → mut i = true → own i = false → step i out = Some out.
Proof.
  intros Hi Hm Ho. unfold merge_node.
  pose proof (neighbors_valid i Hi) as [Hni _].
  rewrite neighbors_stored by done. simpl.
  rewrite neighbors_stored by done. simpl.
  fold (mut i). rewrite Hm.
  destruct (Z.ltb_spec i (n i)) as [Hlt|]; [|done].
  assert (own i = true); [|congruence].
  apply owner_spec. split; [done|]. by apply mutual_spec.
Qed.

Lemma merge_node_owner i (out : list N) :
  begin ≤ i < end_ → length out = length input → own i = true →
  ∃ out', step i out = Some out' ∧ length out' = length input ∧
          load out' (slt (n i)) =
            Some (parent_node (node_at out (slt (n i))) (node_at input i)
                    (node_at input (n i)) (fco i)) ∧
          load out' (fco i) = Some (node_at input i) ∧
          load out' (fco i + 1) = Some (node_at input (n i)) ∧
          (∀ x, x ≠ slt (n i) → x ≠ fco i → x ≠ fco i + 1 →
                load out' x = load out x).
Proof.
  intros Hi Hlen Ho. unfold merge_node.
  pose proof (neighbors_valid i Hi) as [Hni _].
  pose proof Ho as [Hlt Hnn]%owner_spec.
  rewrite neighbors_stored by done. simpl.
  rewrite neighbors_stored by done. simpl.
  rewrite Hnn, Z.eqb_refl.
  destruct (Z.ltb_spec i (n i)) as [_|]; [|lia].
  rewrite !ranks_stored by done. simpl.
  rewrite (load_node_at input i), (load_node_at input (n i)) by lia. simpl.
  pose proof (partner_not_owner n i Ho) as Hpo.
  pose proof (slot_range n begin end_ (n i) Hni Hpo) as Hs.
  pose proof (first_child_range n begin end_ i Hi Ho) as Hf.
  pose proof next_window_range as Hw.
  replace (wrap (nbeg + n i - begin - rank n begin (n i))) with (slt (n i))
    by (unfold slot in *; rewrite wrap_small; lia).
  replace (wrap (nend + (rank n begin i - 1) * 2)) with (fco i)
    by (unfold first_child_of in *; rewrite wrap_small; lia).
  rewrite (wrap_small (fco i + 0)), (wrap_small (fco i + 1)) by lia.
  replace (fco i + 0) with (fco i) by lia.
  rewrite load_node_at by lia. simpl.
  fold (parent_node (node_at out (slt (n i))) (node_at input i)
          (node_at input (n i)) (fco i)).
  destruct (store out (slt (n i)) _) as [out1|] eqn:Hst1;
    [|rewrite store_Some in Hst1 by lia; done]. simpl.
  pose proof (store_length _ _ _ _ Hst1) as Hlen1.
  destruct (store out1 (fco i) _) as [out2|] eqn:Hst2;
    [|rewrite store_Some in Hst2 by lia; done]. simpl.
  pose proof (store_length _ _ _ _ Hst2) as Hlen2.
  destruct (store out2 (fco i + 1) _) as [out3|] eqn:Hst3;
    [|rewrite store_Some in Hst3 by lia; done].
  pose proof (store_length _ _ _ _ Hst3) as Hlen3.
  exists out3. split; [done|]. split; [congruence|]. split; [|split; [|split]].
  - rewrite (load_store_ne _ _ _ _ _ Hst3) by lia.
    rewrite (load_store_ne _ _ _ _ _ Hst2) by lia.
    by apply load_store_eq in Hst1.
  - rewrite (load_store_ne _ _ _ _ _ Hst3) by lia.
    by apply load_store_eq in Hst2.
  - by apply load_store_eq in Hst3.
  - intros x Hx1 Hx2 Hx3.
    rewrite (load_store_ne _ _ _ _ _ Hst3) by lia.
    rewrite (load_store_ne _ _ _ _ _ Hst2) by lia.
    by rewrite (load_store_ne _ _ _ _ _ Hst1) by lia.
Qed.

Lemma not_mutual_not_owner i : mut i = false → own i = false.
Proof.
  intros Hm. apply not_true_is_false. intros Ho%owner_mutual. congruence.
Qed.

Lemma written_by_range i x :
  begin ≤ i < end_ → written_by n begin end_ i x → nbeg ≤ x < end_.
Proof.
  intros Hi Hw. pose proof next_window_range as Hr.
  destruct (neighbors_valid i Hi) as [Hni _].
  destruct Hw as [[Hm ->]|[Ho Hx]].
  - pose proof (slot_range n begin end_ i Hi (not_mutual_not_owner i Hm)). lia.
  - pose proof (slot_range n begin end_ (n i) Hni (partner_not_owner n i Ho)).
    pose proof (first_child_range n begin end_ i Hi Ho). lia.
Qed.

(** No output index is written twice. *)
Lemma written_by_once i i' x :
  begin ≤ i < end_ → begin ≤ i' < end_ →
  written_by n begin end_ i x → written_by n begin end_ i' x → i = i'.
Proof.
  assert (∀ a b y, begin ≤ a < end_ → begin ≤ b < end_ →
    mut a = false → y = slt a → own b = true →
    (y = slt (n b) ∨ y = fco b ∨ y = fco b + 1) → False) as Hmixed.
  { intros a b y Ha Hb Hm -> Ho' Hx.
    destruct (neighbors_valid b Hb) as [Hnb _].
    pose proof (slot_range n begin end_ a Ha (not_mutual_not_owner a Hm)).
    pose proof (first_child_range n begin end_ b Hb Ho').
    destruct Hx as [Hx|Hx]; [|lia].
    apply slot_inj in Hx;
      [|lia|lia|by apply not_mutual_not_owner|by apply partner_not_owner].
    pose proof (partner_mutual n b (owner_mutual n b Ho')). congruence. }
  intros Hi Hi' [[Hm ->]|[Ho Hx]] [[Hm' Hx']|[Ho' Hx']].
  - apply slot_inj in Hx'; [done|lia|lia|by apply not_mutual_not_owner..].
  - exfalso. by eapply (Hmixed i i' (slt i)).
  - exfalso. by eapply (Hmixed i' i x).
  - destruct (neighbors_valid i Hi) as [Hni _].
    destruct (neighbors_valid i' Hi') as [Hni' _].
    pose proof (slot_range n begin end_ (n i) Hni (partner_not_owner n i Ho)).
    pose proof (slot_range n begin end_ (n i') Hni' (partner_not_owner n i' Ho')).
    pose proof (first_child_range n begin end_ i Hi Ho).
    pose proof (first_child_range n begin end_ i' Hi' Ho').
    assert (x = slt (n i) ∧ x = slt (n i') ∨
            (x = fco i ∨ x = fco i + 1) ∧ (x = fco i' ∨ x = fco i' + 1))
      as [[-> Hs]|[Hf Hf']] by lia.
    + apply slot_inj in Hs; [|lia|lia|by apply partner_not_owner..].
      apply owner_spec in Ho as [_ Ho]. apply owner_spec in Ho' as [_ Ho'].
      congruence.
    + destruct (Z.lt_trichotomy i i') as [Hlt|[->|Hgt]]; [|done|].
      * pose proof (first_child_lt n begin end_ i i' ltac:(lia) Ho Ho'). lia.
      * pose proof (first_child_lt n begin end_ i' i ltac:(lia) Ho' Ho). lia.
Qed.

Lemma merge_loop_spec :
  ∃ out', for_loop begin end_ step output = Some out' ∧
    length out' = length input ∧
    (∀ i, begin ≤ i < end_ → mut i = false →
          load out' (slt i) = Some (node_at input i)) ∧
    (∀ i, begin ≤ i < end_ → own i = true →
          load out' (slt (n i)) =
            Some (parent_node (node_at output (slt (n i))) (node_at input i)
                    (node_at input (n i)) (fco i)) ∧
          load out' (fco i) = Some (node_at input i) ∧
          load out' (fco i + 1) = Some (node_at input (n i))) ∧
    (∀ x, ¬ (nbeg ≤ x < end_) → load out' x = load output x).
Proof.
  destruct (for_loop_invariant
    (λ k out,
       length out = length input ∧
       (∀ i, begin ≤ i < k → mut i = false →
             load out (slt i) = Some (node_at input i)) ∧
       (∀ i, begin ≤ i < k → own i = true →
             load out (slt (n i)) =
               Some (parent_node (node_at output (slt (n i))) (node_at input i)
                       (node_at input (n i)) (fco i)) ∧
             load out (fco i) = Some (node_at input i) ∧
             load out (fco i + 1) = Some (node_at input (n i))) ∧
       (∀ x, (∀ i, begin ≤ i < k → ¬ written_by n begin end_ i x) →
             load out x = load output x))
    begin end_ step output)
    as (out' & Hrun & Hlen & Hsurv & Hpar & Hrest); [lia| | |].
  - split; [done|]. split; [intros; lia|]. split; [intros; lia|done].
  - intros k out Hk (Hlen & Hsurv & Hpar & Hrest).
    assert (∀ i x, begin ≤ i < k → written_by n begin end_ i x →
                   ¬ written_by n begin end_ k x) as Hfresh.
    { intros i x Hi Hw Hw'.
      pose proof (written_by_once i k x ltac:(lia) ltac:(lia) Hw Hw'). lia. }
    destruct (mut k) eqn:Hm; [destruct (own k) eqn:Ho|].
    + (* the lower member of a mutual pair *)
      destruct (merge_node_owner k out Hk Hlen Ho)
        as (out' & Hstep & Hlen' & Hp & Hc0 & Hc1 & Hother).
      assert (∀ x, written_by n begin end_ k x ↔
                   x = slt (n k) ∨ x = fco k ∨ x = fco k + 1) as Hwk.
      { intros x. unfold written_by. rewrite Hm, Ho. split.
        - intros [[? _]|[_ ?]]; done.
        - intros ?. right. done. }
      exists out'. split; [done|]. split; [done|]. split; [|split].
      * intros i Hi Hmi. assert (i ≠ k) by (intros ->; congruence).
        rewrite Hother.
        -- apply Hsurv; [lia|done].
        -- intros Hx. eapply (Hfresh i (slt i)); [lia| |apply Hwk; auto]. by left.
        -- intros Hx. eapply (Hfresh i (slt i)); [lia| |apply Hwk; auto]. by left.
        -- intros Hx. eapply (Hfresh i (slt i)); [lia| |apply Hwk; auto]. by left.
      * intros i Hi Hoi. destruct (decide (i = k)) as [->|Hne].
        -- split; [|done]. rewrite Hp. do 2 f_equal.
           unfold node_at. rewrite Hrest; [done|].
           intros i Hi' Hw. eapply (Hfresh i); [done|done|]. apply Hwk. auto.
        -- destruct (Hpar i ltac:(lia) Hoi) as (H1 & H2 & H3).
           assert (∀ x, written_by n begin end_ i x → load out' x = load out x) as Hkeep.
           { intros x Hw. apply Hother; intros ->;
               (eapply (Hfresh i); [lia|exact Hw|apply Hwk; auto]). }
           rewrite !Hkeep; [done|right; auto..].
      * intros x Hx. rewrite Hother.
        -- apply Hrest. intros i Hi. apply Hx. lia.
        -- intros ->. apply (Hx k); [lia|]. apply Hwk. auto.
        -- intros ->. apply (Hx k); [lia|]. apply Hwk. auto.
        -- intros ->. apply (Hx k); [lia|]. apply Hwk. auto.
    + (* the upper member of a mutual pair *)
      rewrite merge_node_partner by done.
      exists out. split; [done|]. split; [done|]. split; [|split].
      * intros i Hi Hmi. apply Hsurv; [|done].
        destruct (decide (i = k)) as [->|]; [congruence|lia].
      * intros i Hi Hoi. apply Hpar; [|done].
        destruct (decide (i = k)) as [->|]; [congruence|lia].
      * intros x Hx. apply Hrest. intros i Hi. apply Hx. lia.
    + (* a node without mutual neighbor *)
      destruct (merge_node_survivor k out Hk Hlen Hm)
        as (out' & Hstep & Hlen' & Hs & Hother).
      assert (written_by n begin end_ k (slt k)) as Hwk by (by left).
      exists out'. split; [done|]. split; [done|]. split; [|split].
      * intros i Hi Hmi. destruct (decide (i = k)) as [->|Hne]; [done|].
        rewrite Hother; [apply Hsurv; [lia|done]|].
        intros Hx. eapply (Hfresh i (slt i)); [lia|by left|by rewrite Hx].
      * intros i Hi Hoi.
        assert (i ≠ k) by (intros ->; pose proof (owner_mutual n k Hoi); congruence).
        destruct (Hpar i ltac:(lia) Hoi) as (H1 & H2 & H3).
        assert (∀ x, written_by n begin end_ i x → load out' x = load out x) as Hkeep.
        { intros x Hw. apply Hother. intros ->.
          eapply (Hfresh i); [lia|exact Hw|done]. }
        rewrite !Hkeep; [done|right; auto..].
      * intros x Hx. rewrite Hother.
        -- apply Hrest. intros i Hi. apply Hx. lia.
        -- intros ->. apply (Hx k); [lia|done].
  - exists out'. split; [done|]. split; [done|]. split; [done|]. split; [done|].
    intros x Hx. apply Hrest. intros i Hi Hw.
    apply written_by_range in Hw; [|done]. lia.
Qed.

End MergeLoop.

(** ** One call of [cluster] *)

Lemma copy_previous_spec {A} (input output : list A) (d : A) end_ previous_end :
  0 ≤ end_ ≤ previous_end → previous_end ≤ Z.of_nat (length input) →
  length output = length input →
  ∃ out', for_loop end_ previous_end
            (λ i output, node_i ← load input i; store output i node_i) output
          = Some out' ∧
          length out' = length input ∧
          (∀ i, end_ ≤ i < previous_end → load out' i = load input i) ∧
          (∀ x, ¬ (end_ ≤ x < previous_end) → load out' x = load output x).
Proof.
  intros Hwin Hin Hout.
  destruct (store_sweep (λ i, default d (load input i)) 0 end_ previous_end output)
    as (out' & Hrun & Hlen & Hcopied & Hrest); [lia..|].
  exists out'. split; [|split; [congruence|split]].
  - rewrite <- Hrun. apply for_loop_ext. intros i s Hi.
    destruct (load_is_Some input i ltac:(lia)) as [v Hv]. rewrite Hv. done.
  - intros i Hi. specialize (Hcopied i Hi). rewrite Z.add_0_l in Hcopied.
    rewrite Hcopied.
    destruct (load_is_Some input i ltac:(lia)) as [v Hv]. rewrite Hv. done.
  - intros x Hx. apply Hrest. lia.
Qed.

Section ClusterSpec.
Context {Scalar V N : Type} `{ScalarOps Scalar} `{!VolumeOps Scalar V}
  `{!NodeOps Scalar V N}.

Variables search_radius thread_count : Z.
Variables (input output : list N) (aux : list Z).
Variables neighbors merged_index begin end_ previous_end : Z.

Local Abbreviation n := (direct_neighbor search_radius input begin end_).

Hypothesis radius_nonneg : 0 ≤ search_radius.
Hypothesis cache_fits : (search_radius + 1) * search_radius < size_modulus.
Hypothesis threads : 1 ≤ thread_count < size_modulus.
Hypothesis window :
  0 ≤ begin < end_ ∧ end_ ≤ previous_end ∧
  previous_end ≤ Z.of_nat (length input).
Hypothesis output_length : length output = length input.
Hypothesis no_overflow : end_ + search_radius + 1 < size_modulus.
Hypothesis arrays :
  0 ≤ neighbors ∧ neighbors + end_ ≤ merged_index ∧
  merged_index + end_ ≤ Z.of_nat (length aux).
Hypothesis room : end_ - begin ≤ begin + 1.
Hypothesis neighbors_valid :
  ∀ i, begin ≤ i < end_ → begin ≤ n i < end_ ∧ n i ≠ i.

Lemma merged_count_room :
  0 ≤ merged_count n begin end_ ≤ begin ∧
  2 * merged_count n begin end_ ≤ end_ - begin.
Proof.
  pose proof (merged_count_half n begin end_ ltac:(lia) neighbors_valid). lia.
Qed.

Lemma cluster_spec :
  ∃ out' aux',
    cluster search_radius thread_count input output aux neighbors merged_index
      begin end_ previous_end
    = Some (out', aux', (next_begin n begin end_, next_end n begin end_)) ∧
    length out' = length input ∧ length aux' = length aux ∧
    (∀ i, begin ≤ i < end_ → load aux' (neighbors + i) = Some (n i)) ∧
    (∀ i, begin ≤ i < end_ →
          load aux' (merged_index + i) = Some (rank n begin i)) ∧
    (∀ x, ¬ (neighbors + begin ≤ x < neighbors + end_) →
          ¬ (merged_index + begin ≤ x < merged_index + end_) →
          load aux' x = load aux x) ∧
    (∀ i, begin ≤ i < end_ → mutual n i = false →
          load out' (slot n begin end_ i) = Some (node_at input i)) ∧
    (∀ i, begin ≤ i < end_ → owner n i = true →
          load out' (slot n begin end_ (n i)) =
            Some (parent_node (node_at output (slot n begin end_ (n i)))
                    (node_at input i) (node_at input (n i))
                    (first_child_of n begin end_ i)) ∧
          load out' (first_child_of n begin end_ i) = Some (node_at input i) ∧
          load out' (first_child_of n begin end_ i + 1) =
            Some (node_at input (n i))) ∧
    (∀ i, end_ ≤ i < previous_end → load out' i = load input i) ∧
    (∀ x, ¬ (next_begin n begin end_ ≤ x < previous_end) →
          load out' x = load output x).
Proof.
  pose proof merged_count_room as Hmc.
  assert (∀ i, begin ≤ i < end_ → begin ≤ n i < end_) as Hin
    by (intros i Hi; by apply neighbors_valid).
  unfold cluster.
  destruct (search_neighbors_spec search_radius input begin end_)
    with (neighbors := neighbors) (thread_count := thread_count) (aux := aux)
    as (aux1 & -> & Hsweep & Hlen1); [first [lia|done]..|]. simpl.
  destruct (store_sweep n neighbors begin end_ aux)
    as (aux1' & Hsweep' & _ & Hnb & Hnb_rest); [lia..|].
  assert (aux1' = aux1) as -> by congruence.
  destruct (mark_merged_spec n neighbors merged_index begin end_ aux1)
    as (aux2 & -> & Hlen2 & Hflags & Hflags_rest); [first [lia|done]..|].
  simpl.
  destruct (sum_in_parallel_spec n neighbors merged_index begin end_ aux1)
    with (aux1 := aux2)
    as (aux3 & -> & Hlen3 & Hranks & Hranks_rest); [first [lia|done]..|].
  simpl.
  assert (∀ x, ¬ (merged_index + begin ≤ x < merged_index + end_) →
               load aux3 x = load aux1 x) as Hrest3.
  { intros x Hx. rewrite Hranks_rest, Hflags_rest by done. done. }
  assert (∀ i, begin ≤ i < end_ → load aux3 (neighbors + i) = Some (n i)) as Hnb3.
  { intros i Hi. rewrite Hrest3 by lia. by apply Hnb. }
  rewrite wrap_small by lia.
  rewrite (Hranks (end_ - 1)) by lia. simpl.
  replace (rank n begin (end_ - 1)) with (merged_count n begin end_)
    by (unfold rank, merged_count; f_equal; lia).
  set (mc := merged_count n begin end_) in *.
  rewrite (wrap_small (end_ - begin - mc)) by lia.
  rewrite (wrap_small (mc * 2)) by lia.
  rewrite (wrap_small (end_ - mc * 2)) by lia.
  rewrite (wrap_small (end_ - (mc * 2 + (end_ - begin - mc)))) by lia.
  replace (end_ - (mc * 2 + (end_ - begin - mc))) with (next_begin n begin end_)
    by (unfold next_begin; fold mc; lia).
  replace (end_ - mc * 2) with (next_end n begin end_)
    by (unfold next_end; fold mc; lia).
  destruct (merge_loop_spec n input output aux3 neighbors merged_index begin end_)
    as (out1 & -> & Hlen_out1 & Hsurv & Hpar & Hout_rest);
    [first [lia|done|fold mc; lia]..|].
  simpl. unfold copy_previous.
  destruct (copy_previous_spec input out1 value_initialized end_ previous_end)
    as (out2 & -> & Hlen_out2 & Hcopied & Hcopy_rest); [lia|lia|done|].
  simpl. exists out2, aux3. split; [done|]. split; [done|]. split; [congruence|].
  assert (0 ≤ next_begin n begin end_ ∧
          next_begin n begin end_ < next_end n begin end_ ≤ end_) as Hnw.
  { unfold next_begin, next_end. fold mc. lia. }
  split; [done|]. split; [done|]. split; [|split; [|split; [|split; [done|]]]].
  - intros x Hx1 Hx2. rewrite Hrest3 by done. by apply Hnb_rest.
  - intros i Hi Hm. rewrite Hcopy_rest; [by apply Hsurv|].
    pose proof (slot_range n begin end_ i Hi (not_mutual_not_owner n i Hm)). lia.
  - intros i Hi Ho. destruct (Hpar i Hi Ho) as (H1 & H2 & H3).
    pose proof (slot_range n begin end_ (n i) (Hin i Hi) (partner_not_owner n i Ho)).
    pose proof (first_child_range n begin end_ i Hi Ho).
    rewrite !Hcopy_rest by lia. done.
  - intros x Hx. rewrite Hcopy_rest by lia. apply Hout_rest. lia.
Qed.

Hypothesis spare_buffer :
  ∀ x, previous_end ≤ x → load output x = load input x.

Local Abbreviation dest := (destination n begin end_).

Lemma destination_owner i :
  begin ≤ i < end_ → owner n i = true → dest i = first_child_of n begin end_ i.
Proof.
  intros Hi Ho. unfold destination.
  destruct (Z.leb_spec end_ i); [lia|]. by rewrite Ho.
Qed.

Lemma destination_partner i :
  begin ≤ i < end_ → owner n i = true →
  dest (n i) = first_child_of n begin end_ i + 1.
Proof.
  intros Hi Ho. unfold destination.
  destruct (neighbors_valid i Hi) as [Hni _].
  destruct (Z.leb_spec end_ (n i)); [lia|].
  rewrite (partner_not_owner n i Ho).
  rewrite (partner_mutual n i (owner_mutual n i Ho)).
  apply owner_spec in Ho as [_ ->]. done.
Qed.

Lemma destination_survivor i :
  begin ≤ i < end_ → mutual n i = false → dest i = slot n begin end_ i.
Proof.
  intros Hi Hm. unfold destination.
  destruct (Z.leb_spec end_ i); [lia|].
  by rewrite (not_mutual_not_owner n i Hm), Hm.
Qed.

(** A round moves every node from [begin] on to its destination and fills
    the remaining slots of the next window with the new parents. *)
Lemma cluster_relocates :
  ∃ out' aux',
    cluster search_radius thread_count input output aux neighbors merged_index
      begin end_ previous_end
    = Some (out', aux', (next_begin n begin end_, next_end n begin end_)) ∧
    length out' = length input ∧ length aux' = length aux ∧
    (∀ i, begin ≤ i < Z.of_nat (length input) →
          next_begin n begin end_ ≤ dest i < Z.of_nat (length input) ∧
          load out' (dest i) = load input i) ∧
    (∀ x, next_begin n begin end_ ≤ x < Z.of_nat (length input) →
          (∃ i, begin ≤ i < Z.of_nat (length input) ∧ dest i = x) ∨
          (∃ i, begin ≤ i < end_ ∧ owner n i = true ∧
                x = slot n begin end_ (n i))) ∧
    (∀ i, begin ≤ i < end_ → owner n i = true →
          next_begin n begin end_ ≤ slot n begin end_ (n i)
            < next_end n begin end_ ∧
          load out' (slot n begin end_ (n i)) =
            Some (parent_node (node_at output (slot n begin end_ (n i)))
                    (node_at input i) (node_at input (n i))
                    (first_child_of n begin end_ i))).
Proof.
  destruct cluster_spec
    as (out' & aux' & Hrun & Hlen & Hlen_aux & _ & _ & _ & Hsurv & Hpar &
        Hcopied & Hrest).
  pose proof merged_count_room as Hmc.
  assert (0 ≤ next_begin n begin end_ ∧
          next_begin n begin end_ < next_end n begin end_ ≤ end_) as Hnw.
  { unfold next_begin, next_end. lia. }
  assert (∀ i, begin ≤ i < end_ → begin ≤ n i < end_) as Hin
    by (intros i Hi; by apply neighbors_valid).
  assert (begin ≤ end_) as Hbe by lia.
  exists out', aux'. split; [done|]. split; [done|]. split; [done|].
  split; [|split].
  - intros i Hi. destruct (Z.lt_ge_cases i end_) as [Hlt|Hge].
    + assert (begin ≤ i < end_) as Hw by lia.
      rewrite (load_node_at input i) by lia.
      destruct (owner n i) eqn:Ho; [|destruct (mutual n i) eqn:Hm].
      * rewrite destination_owner by done.
        pose proof (first_child_range n begin end_ i Hw Ho).
        destruct (Hpar i Hw Ho) as (_ & -> & _). split; [lia|done].
      * pose proof (partner_owner n begin end_ neighbors_valid i Hw Hm Ho) as Hpo.
        pose proof (first_child_range n begin end_ (n i) (Hin i Hw) Hpo).
        apply mutual_spec in Hm.
        pose proof (destination_partner (n i) (Hin i Hw) Hpo) as Hd.
        rewrite Hm in Hd. rewrite Hd.
        destruct (Hpar (n i) (Hin i Hw) Hpo) as (_ & _ & ->).
        rewrite Hm. split; [lia|done].
      * rewrite destination_survivor by done.
        pose proof (slot_range n begin end_ i Hw Ho).
        rewrite Hsurv by done. split; [lia|done].
    + unfold destination. destruct (Z.leb_spec end_ i); [|lia].
      split; [lia|].
      destruct (Z.lt_ge_cases i previous_end).
      * apply Hcopied. lia.
      * rewrite Hrest by lia. apply spare_buffer. lia.
  - intros x Hx. destruct (Z.lt_ge_cases x end_) as [Hlt|Hge];
      [destruct (Z.lt_ge_cases x (next_end n begin end_)) as [Hlow|Hhigh]|].
    + assert (next_begin n begin end_ ≤ x < next_end n begin end_) as Hx' by lia.
      destruct (slot_surjective n begin end_ Hbe x Hx') as (i & Hi & Ho & Hs).
      destruct (mutual n i) eqn:Hm.
      * right. exists (n i).
        pose proof (partner_owner n begin end_ neighbors_valid i Hi Hm Ho) as Hpo.
        apply mutual_spec in Hm. rewrite Hm. auto.
      * left. exists i. split; [lia|]. by rewrite destination_survivor.
    + assert (next_end n begin end_ ≤ x < end_) as Hx' by lia.
      destruct (child_surjective n begin end_ Hbe x Hx')
        as (i & Hi & Ho & [->| ->]); left.
      * exists i. split; [lia|]. by apply destination_owner.
      * exists (n i). pose proof (Hin i Hi). split; [lia|].
        by apply destination_partner.
    + left. exists x. split; [lia|]. unfold destination.
      destruct (Z.leb_spec end_ x); [done|lia].
  - intros i Hi Ho. split.
    + apply slot_range; [by apply Hin|by apply partner_not_owner].
    + by destruct (Hpar i Hi Ho) as (-> & _).
Qed.

End ClusterSpec.

(** ** The chosen neighbors *)

Lemma first_true (P : Z → bool) lo (d : nat) :
  (∀ k, lo ≤ k < lo + Z.of_nat d → P k = false) ∨
  (∃ m, lo ≤ m < lo + Z.of_nat d ∧ P m = true ∧ ∀ k, lo ≤ k < m → P k = false).
Proof.
  induction d as [|d [Hnone|(m & Hm & HPm & Hleast)]].
  - left. intros k Hk. lia.
  - destruct (P (lo + Z.of_nat d)) eqn:HP.
    + right. exists (lo + Z.of_nat d). split; [lia|]. split; [done|].
      intros k Hk. apply Hnone. lia.
    + left. intros k Hk. destruct (decide (k = lo + Z.of_nat d)) as [->|]; [done|].
      apply Hnone. lia.
  - right. exists m. split; [lia|done].
Qed.

Lemma least_index (P : Z → bool) lo a :
  lo ≤ a → P a = true →
  ∃ m, lo ≤ m ≤ a ∧ P m = true ∧ ∀ k, lo ≤ k < m → P k = false.
Proof.
  intros Hle Ha.
  destruct (first_true P lo (Z.to_nat (a - lo + 1)))
    as [Hnone|(m & Hm & HPm & Hleast)].
  - rewrite Hnone in Ha by lia. done.
  - exists m. split; [lia|done].
Qed.

Section Scan.
Context {Scalar V N : Type} `{ScalarOps Scalar} `{!VolumeOps Scalar V}
  `{!NodeOps Scalar V N} `{!ScalarOrder Scalar}.

Variable input : list N.
Variable i : Z.

Local Abbreviation cost := (pair_distance input i).

(** The search keeps a first candidate of minimal cost, if a candidate
    improves on the initial best distance at all. *)
Lemma scan_spec js (best : Scalar * Z) :
  let result := scan input i js best in
  (∀ x, x ∈ js → scalar_lt (cost x) result.1 = false) ∧
  scalar_lt best.1 result.1 = false ∧
  (result = best ∨
   ∃ l1 l2, js = l1 ++ result.2 :: l2 ∧ result.1 = cost result.2 ∧
            scalar_lt result.1 best.1 = true ∧
            ∀ x, x ∈ l1 → scalar_lt result.1 (cost x) = true).
Proof.
  revert best. induction js as [|j js IH]; intros best result; subst result.
  - split; [intros x Hx; by apply elem_of_nil in Hx|].
    split; [apply scalar_lt_irrefl|by left].
  - change (scan input i (j :: js) best)
      with (scan input i js (improve (cost j) j best)).
    unfold improve. destruct (scalar_lt (cost j) best.1) eqn:Hlt.
    + destruct (IH (cost j, j)) as (Hmin & Hbest & Hcase). simpl in Hbest.
      split; [|split].
      * intros x [->|Hx]%elem_of_cons; [done|by apply Hmin].
      * destruct (scalar_lt best.1 (scan input i js (cost j, j)).1) eqn:Hb; [|done].
        pose proof (scalar_lt_trans _ _ _ Hlt Hb). congruence.
      * right. destruct Hcase as [Heq|(l1 & l2 & Hjs & Hcost & Hlt' & Hfirst)].
        -- exists [], js. rewrite Heq. simpl. split; [done|]. split; [done|].
           split; [done|]. intros x Hx. by apply elem_of_nil in Hx.
        -- simpl in Hlt'. exists (j :: l1), l2.
           split; [simpl; f_equal; exact Hjs|]. split; [done|].
           split; [by eapply scalar_lt_trans|].
           intros x [->|Hx]%elem_of_cons; [done|by apply Hfirst].
    + destruct (IH best) as (Hmin & Hbest & Hcase).
      split; [|split; [done|]].
      * intros x [->|Hx]%elem_of_cons; [|by apply Hmin].
        by eapply scalar_ge_trans.
      * destruct Hcase as [Heq|(l1 & l2 & Hjs & Hcost & Hlt' & Hfirst)];
          [by left|right].
        exists (j :: l1), l2. split; [simpl; f_equal; exact Hjs|].
        split; [done|]. split; [done|].
        intros x [->|Hx]%elem_of_cons; [|by apply Hfirst].
        destruct (scalar_lt (scan input i js best).1 (cost j)) eqn:Hc; [done|].
        pose proof (scalar_ge_trans _ _ _ Hc Hlt). congruence.
Qed.

End Scan.

Lemma seqZ_sorted m len : StronglySorted Z.lt (seqZ m len).
Proof.
  destruct (Z.le_gt_cases len 0) as [Hle|Hgt].
  { rewrite seqZ_nil by done. constructor. }
  replace len with (Z.of_nat (Z.to_nat len)) by lia.
  generalize (Z.to_nat len) as k. clear. intros k. revert m.
  induction k as [|k IH]; intros m.
  - rewrite seqZ_nil by lia. constructor.
  - rewrite seqZ_cons by lia. constructor.
    + replace (Z.pred (Z.of_nat (S k))) with (Z.of_nat k) by lia. apply IH.
    + apply Forall_seqZ. intros j Hj. lia.
Qed.

Section NeighborChoice.
Context {Scalar V N : Type} `{ScalarOps Scalar} `{!VolumeOps Scalar V}
  `{!NodeOps Scalar V N} `{!ScalarOrder Scalar} `{!FiniteAreas Scalar V}.

Variable search_radius : Z.
Variable input : list N.
Variables begin end_ : Z.

Hypothesis radius_positive : 1 ≤ search_radius.
Hypothesis window : 0 ≤ begin ∧ begin + 2 ≤ end_.
Hypothesis no_overflow : end_ + search_radius + 1 < size_modulus.

Local Abbreviation R := search_radius.
Local Abbreviation n := (direct_neighbor search_radius input begin end_).

Lemma candidates_unfold i :
  begin ≤ i < end_ →
  candidates R begin end_ i =
  seqZ (Z.max begin (i - R)) (i - Z.max begin (i - R)) ++
  seqZ (i + 1) (Z.min (i + R + 1) end_ - (i + 1)).
Proof.
  intros Hi. unfold candidates, search_range.
  rewrite (wrap_small (begin + R)) by lia.
  rewrite (wrap_small (i + R + 1)) by lia.
  destruct (Z.ltb_spec (begin + R) i).
  - rewrite wrap_small by lia. rewrite Z.max_r by lia. done.
  - rewrite Z.max_l by lia. done.
Qed.

Lemma candidates_spec i x :
  begin ≤ i < end_ →
  x ∈ candidates R begin end_ i ↔ begin ≤ x < end_ ∧ i - R ≤ x ≤ i + R ∧ x ≠ i.
Proof.
  intros Hi. rewrite candidates_unfold by done.
  rewrite elem_of_app, !elem_of_seqZ. lia.
Qed.

Lemma candidates_sorted i :
  begin ≤ i < end_ → StronglySorted Z.lt (candidates R begin end_ i).
Proof.
  intros Hi. rewrite candidates_unfold by done.
  apply StronglySorted_app_2; [|apply seqZ_sorted..].
  intros x y Hx%elem_of_seqZ Hy%elem_of_seqZ. lia.
Qed.

Lemma candidates_symmetric i j :
  begin ≤ i < end_ → j ∈ candidates R begin end_ i →
  i ∈ candidates R begin end_ j.
Proof.
  intros Hi Hj. apply candidates_spec in Hj; [|done].
  apply candidates_spec; lia.
Qed.

Lemma pair_distance_sym i j :
  pair_distance input i j = pair_distance input j i.
Proof. unfold pair_distance. by rewrite Z.min_comm, Z.max_comm. Qed.

(** The neighbor of a node is one of its candidates, no candidate costs
    less, and the candidates before it cost more. *)
Lemma direct_neighbor_spec i :
  begin ≤ i < end_ →
  n i ∈ candidates R begin end_ i ∧
  (∀ x, x ∈ candidates R begin end_ i →
        scalar_lt (pair_distance input i x) (pair_distance input i (n i)) = false) ∧
  (∀ x, x ∈ candidates R begin end_ i → x < n i →
        scalar_lt (pair_distance input i (n i)) (pair_distance input i x) = true).
Proof.
  intros Hi. unfold direct_neighbor.
  pose proof (scan_spec input i (candidates R begin end_ i) (scalar_max, SIZE_MAX))
    as (Hmin & _ & Hcase). simpl in Hcase.
  pose proof (candidates_sorted i Hi) as Hsorted.
  set (result := scan input i (candidates R begin end_ i) (scalar_max, SIZE_MAX)) in *.
  destruct Hcase as [Heq|(l1 & l2 & Hjs & Hcost & _ & Hfirst)].
  - exfalso.
    assert (∃ x, x ∈ candidates R begin end_ i) as [x Hx].
    { destruct (decide (i + 1 < end_)).
      - exists (i + 1). apply candidates_spec; [done|lia].
      - exists (i - 1). apply candidates_spec; [done|lia]. }
    specialize (Hmin x Hx). rewrite Heq in Hmin. simpl in Hmin.
    unfold pair_distance, distance in Hmin. rewrite half_area_finite in Hmin. done.
  - rewrite Hjs in Hsorted. split; [|split].
    + rewrite Hjs. apply elem_of_app. right. by left.
    + intros x Hx. rewrite <- Hcost. by apply Hmin.
    + intros x Hx Hlt. rewrite <- Hcost. apply Hfirst.
      rewrite Hjs in Hx. apply elem_of_app in Hx as [Hx|Hx]; [done|].
      apply elem_of_cons in Hx as [->|Hx]; [lia|].
      apply StronglySorted_app_1_r in Hsorted.
      apply StronglySorted_cons in Hsorted as [Hall _].
      rewrite Forall_forall in Hall. specialize (Hall x Hx). lia.
Qed.

Lemma neighbors_valid i :
  begin ≤ i < end_ → begin ≤ n i < end_ ∧ n i ≠ i.
Proof.
  intros Hi. destruct (direct_neighbor_spec i Hi) as (Hin & _).
  apply candidates_spec in Hin; [|done]. lia.
Qed.

Local Abbreviation best_cost := (λ i, pair_distance input i (n i)).

Lemma exists_cheapest lo hi :
  lo < hi →
  ∃ a, lo ≤ a < hi ∧
       ∀ i, lo ≤ i < hi → scalar_lt (best_cost i) (best_cost a) = false.
Proof.
  intros Hlt. replace hi with (lo + 1 + Z.of_nat (Z.to_nat (hi - lo - 1))) by lia.
  generalize (Z.to_nat (hi - lo - 1)) as k. clear Hlt. intros k.
  induction k as [|k (a & Ha & Hmin)].
  - exists lo. split; [lia|]. intros i Hi. replace i with lo by lia.
    apply scalar_lt_irrefl.
  - set (top := lo + 1 + Z.of_nat k) in *.
    replace (lo + 1 + Z.of_nat (S k)) with (top + 1) by lia.
    destruct (scalar_lt (best_cost top) (best_cost a)) eqn:Hcmp.
    + exists top. split; [lia|]. intros i Hi.
      destruct (decide (i = top)) as [->|]; [apply scalar_lt_irrefl|].
      destruct (scalar_lt (best_cost i) (best_cost top)) eqn:Hi'; [|done].
      pose proof (scalar_lt_trans _ _ _ Hi' Hcmp) as Hc.
      rewrite Hmin in Hc by lia. done.
    + exists a. split; [lia|]. intros i Hi.
      destruct (decide (i = top)) as [->|]; [done|]. apply Hmin. lia.
Qed.

(** Among the cheapest pairs, the one with the lowest index is mutual. *)
Lemma exists_owner : ∃ a, begin ≤ a < end_ ∧ owner n a = true.
Proof.
  destruct (exists_cheapest begin end_) as (a0 & Ha0 & Hcheapest); [lia|].
  set (cheapest := λ i, negb (scalar_lt (best_cost a0) (best_cost i))).
  destruct (least_index cheapest begin a0) as (a & Ha & Hca & Hleast); [lia| |].
  { unfold cheapest. by rewrite scalar_lt_irrefl. }
  assert (∀ i, begin ≤ i < end_ → cheapest i = true →
               scalar_lt (best_cost a0) (best_cost i) = false) as Hch.
  { intros i _ Hc. unfold cheapest in Hc. by apply negb_true_iff in Hc. }
  assert (∀ i, begin ≤ i < end_ → cheapest i = true → cheapest (n i) = true)
    as Hpartner.
  { intros i Hi Hc. unfold cheapest. apply negb_true_iff.
    destruct (direct_neighbor_spec i Hi) as (Hj & _).
    pose proof (candidates_symmetric i (n i) Hi Hj) as Hij.
    apply candidates_spec in Hj; [|done].
    assert (begin ≤ n i < end_) as Hni by lia.
    destruct (direct_neighbor_spec (n i) Hni) as (_ & Hmin & _).
    specialize (Hmin i Hij). rewrite (pair_distance_sym (n i) i) in Hmin.
    eapply scalar_ge_trans; [by apply (Hch i)|exact Hmin]. }
  assert (begin ≤ a < end_) as Ha_range by lia.
  destruct (direct_neighbor_spec a Ha_range) as (Hb & Hmin_a & Hfirst_a).
  set (b := n a) in *.
  pose proof Hb as Hb_range. apply candidates_spec in Hb_range; [|lia].
  assert (begin ≤ b < end_) as Hb_win by lia.
  assert (cheapest b = true) as Hcb by (apply (Hpartner a); [lia|done]).
  assert (a < b) as Hab.
  { destruct (Z.lt_ge_cases a b) as [|Hge]; [done|].
    rewrite Hleast in Hcb by lia. done. }
  destruct (direct_neighbor_spec b Hb_win) as (Ha' & Hmin_b & Hfirst_b).
  pose proof Ha' as Ha'_range. apply candidates_spec in Ha'_range; [|lia].
  assert (cheapest (n b) = true) as Hca' by (apply (Hpartner b); [lia|done]).
  assert (n b = a) as Hnb.
  { destruct (Z.lt_trichotomy (n b) a) as [Hlt|[Heq|Hgt]]; [|done|].
    - rewrite Hleast in Hca' by lia. done.
    - exfalso.
      pose proof (candidates_symmetric a b Ha_range Hb) as Hab'.
      specialize (Hfirst_b a Hab' Hgt).
      rewrite (pair_distance_sym b a) in Hfirst_b. fold (best_cost a) in Hfirst_b.
      pose proof (Hcheapest b Hb_win) as H1.
      pose proof (Hch a Ha_range Hca) as H2.
      pose proof (scalar_ge_trans _ _ _ H1 H2) as H3.
      unfold b in *. congruence. }
  exists a. split; [lia|]. apply owner_spec. fold b. split; [done|exact Hnb].
Qed.

Lemma merged_count_positive : 1 ≤ merged_count n begin end_.
Proof.
  destruct exists_owner as (a & Ha & Ho).
  pose proof (count_owners_mono n begin (a + 1) end_ ltac:(lia)) as Hm.
  rewrite count_owners_last, Ho in Hm by lia.
  pose proof (count_owners_range n begin a ltac:(lia)).
  unfold merged_count. lia.
Qed.

End NeighborChoice.

(** ** One round of a build *)

Lemma odd_mod k : (2 * k + 1) mod 2 = 1.
Proof. rewrite Z.add_comm, Z.mul_comm, Z.mod_add by lia. reflexivity. Qed.

Section ParentFields.
Context {Scalar V N : Type} `{ScalarOps Scalar} `{!VolumeOps Scalar V}
  `{!NodeOps Scalar V N}.

Lemma to_index_small z : 0 ≤ z < 2 ^ index_bits → to_index z = z.
Proof. intros ?. unfold to_index. by apply Z.mod_small. Qed.

Lemma parent_node_is_leaf (old a b : N) f : is_leaf (parent_node old a b f) = false.
Proof. unfold parent_node. by autorewrite with node_fields. Qed.

Lemma parent_node_first_child (old a b : N) f :
  first_child_or_primitive (parent_node old a b f) = to_index f.
Proof. unfold parent_node. by autorewrite with node_fields. Qed.

Lemma parent_node_volume (old a b : N) f :
  to_bounding_box (parent_node old a b f) =
  extend (to_bounding_box b) (to_bounding_box a).
Proof. unfold parent_node. by autorewrite with node_fields. Qed.

Lemma parent_node_primitive_count (old a b : N) f :
  primitive_count (parent_node old a b f) = primitive_count old.
Proof. unfold parent_node. by autorewrite with node_fields. Qed.

End ParentFields.

Section RoundStep.
Context {Scalar V N : Type} `{ScalarOps Scalar} `{!VolumeOps Scalar V}
  `{!NodeOps Scalar V N} `{!ScalarOrder Scalar} `{!FiniteAreas Scalar V}.

Variables search_radius loop_parallel_threshold : Z.
Variable num_threads : Z → Z → Z.
Variable bboxes : list V.
Variable primitive_indices : list Z.
Variable primitives : Z.

Hypothesis radius_positive : 1 ≤ search_radius.
Hypothesis cache_fits : (search_radius + 1) * search_radius < size_modulus.
Hypothesis threads_valid : ∀ b e, 1 ≤ num_threads b e < size_modulus.
Hypothesis size_fits : 1 ≤ primitives ∧ 6 * primitives + search_radius < size_modulus.
Hypothesis index_fits : 2 * primitives - 1 ≤ 2 ^ index_bits.

Local Abbreviation node_count := (2 * primitives - 1).
Local Abbreviation run_round :=
  (round search_radius loop_parallel_threshold num_threads node_count).
Local Abbreviation window_ok := (window_invariant (N:=N) primitives).
Local Abbreviation forest_ok :=
  (forest_invariant (N:=N) bboxes primitive_indices primitives).

Lemma team_size_valid b e :
  1 ≤ team_size loop_parallel_threshold num_threads b e < size_modulus.
Proof.
  unfold team_size. destruct (_ <? _); [apply threads_valid|].
  rewrite size_modulus_eq. lia.
Qed.

Lemma spare_buffer_agrees (st : BuildState N) :
  window_ok st → forest_ok st →
  ∀ x, st_previous_end st ≤ x →
       load (st_nodes_copy st) x = load (st_nodes st) x.
Proof.
  intros Hw Hf x Hx. destruct (Z.lt_ge_cases x node_count) as [Hlt|Hge].
  - apply (inv_copy _ _ _ _ Hf). lia.
  - destruct Hw. rewrite !load_None by lia. done.
Qed.

Section OneRound.
Variable st : BuildState N.
Hypothesis Hwin : window_ok st.
Hypothesis Hwork : 1 < st_end st - st_begin st.

Local Abbreviation n :=
  (direct_neighbor search_radius (st_nodes st) (st_begin st) (st_end st)).
Local Abbreviation dest := (destination n (st_begin st) (st_end st)).

Lemma round_neighbors_valid i :
  st_begin st ≤ i < st_end st →
  st_begin st ≤ n i < st_end st ∧ n i ≠ i.
Proof.
  destruct Hwin. intros Hi.
  apply neighbors_valid; [done|lia|lia|done].
Qed.

Lemma round_merges :
  1 ≤ merged_count n (st_begin st) (st_end st) ≤ st_begin st ∧
  2 * merged_count n (st_begin st) (st_end st) ≤ st_end st - st_begin st.
Proof.
  destruct Hwin.
  pose proof (merged_count_positive search_radius (st_nodes st) (st_begin st)
                (st_end st) radius_positive ltac:(lia) ltac:(lia)).
  pose proof (merged_count_half n (st_begin st) (st_end st) ltac:(lia)
                round_neighbors_valid).
  lia.
Qed.

(** The round succeeds, its result does not depend on the team size, and
    the window shrinks. *)
Lemma round_window :
  ∃ st', run_round st = Some st' ∧
         window_ok st' ∧
         st_begin st' = next_begin n (st_begin st) (st_end st) ∧
         st_end st' = next_end n (st_begin st) (st_end st) ∧
         st_previous_end st' = st_end st ∧
         st_nodes_copy st' = st_nodes st ∧
         st_begin st' < st_begin st.
Proof.
  pose proof round_merges as Hmc. pose proof Hwin as [].
  unfold round.
  destruct (cluster_spec search_radius
              (team_size loop_parallel_threshold num_threads (st_begin st) (st_end st))
              (st_nodes st) (st_nodes_copy st) (st_auxiliary_data st)
              0 node_count (st_begin st) (st_end st) (st_previous_end st))
    as (out' & aux' & -> & Hlen & Hlen_aux & _);
    [first [lia|done|apply team_size_valid|apply round_neighbors_valid]..|].
  simpl. eexists. split; [done|]. simpl.
  split; [|unfold next_begin; repeat split; lia].
  split; simpl; unfold next_begin, next_end; lia.
Qed.

Hypothesis Hforest : forest_ok st.

Local Abbreviation b := (st_begin st).
Local Abbreviation e := (st_end st).
Local Abbreviation nodes := (st_nodes st).

Lemma round_forest :
  ∃ st', run_round st = Some st' ∧ window_ok st' ∧ forest_ok st' ∧
         st_begin st' < st_begin st.
Proof.
  destruct round_window as (st' & Hrun & Hwin' & Hb' & He' & Hpe' & Hcopy' & Hless).
  exists st'. split; [done|]. split; [done|]. split; [|done].
  pose proof round_merges as Hmc. pose proof Hwin as [].
  pose proof Hforest as [Fcopy Fleaf Fexists Funique Finternal Fparent].
  assert (b ≤ e) as Hbe by lia.
  assert (∀ i, b ≤ i < e → b ≤ n i < e) as Hin
    by (intros i Hi; by apply round_neighbors_valid).
  unfold round in Hrun.
  destruct (cluster_relocates search_radius
              (team_size loop_parallel_threshold num_threads b e)
              (st_nodes st) (st_nodes_copy st) (st_auxiliary_data st)
              0 node_count b e (st_previous_end st))
    as (out' & aux' & Hcl & Hlen & _ & HR1 & HR2 & HR4);
    [first [lia|done|apply team_size_valid|apply round_neighbors_valid
           |by apply spare_buffer_agrees]..|].
  rewrite Hcl in Hrun. simpl in Hrun.
  injection Hrun as <-. simpl in *.
  rewrite inv_nodes_length0 in HR1, HR2.
  assert (∀ i, b ≤ i < node_count → node_at out' (dest i) = node_at nodes i)
    as Hmoved.
  { intros i Hi. unfold node_at. by destruct (HR1 i Hi) as [_ ->]. }
  assert (∀ i, e ≤ i → dest i = i) as Hstay.
  { intros i Hi. unfold destination.
    destruct (Z.leb_spec e i); [done|lia]. }
  assert (0 ≤ next_begin n b e ∧ 0 ≤ next_end n b e ≤ e) as Hnext
    by (unfold next_begin, next_end; lia).
  assert (∀ y, e ≤ y < node_count → node_at out' y = node_at nodes y) as Hsame.
  { intros y Hy. pose proof (Hmoved y ltac:(lia)) as Hm.
    by rewrite Hstay in Hm by lia. }
  assert (∀ i, b ≤ i < e → owner n i = true →
    dest i = first_child_of n b e i ∧ dest (n i) = first_child_of n b e i + 1 ∧
    next_end n b e ≤ first_child_of n b e i ∧ first_child_of n b e i + 1 < e ∧
    first_child_of n b e i mod 2 = 1 ∧
    next_begin n b e ≤ slot n b e (n i) < next_end n b e ∧
    node_at out' (slot n b e (n i)) =
      parent_node (node_at (st_nodes_copy st) (slot n b e (n i)))
        (node_at nodes i) (node_at nodes (n i)) (first_child_of n b e i))
    as Hpair.
  { intros i Hi Ho. destruct (HR4 i Hi Ho) as [Hs Hp].
    pose proof (first_child_range n b e i Hi Ho) as Hf.
    split; [|split; [|split; [lia|split; [lia|split; [|split; [done|]]]]]].
    - unfold destination. destruct (Z.leb_spec e i); [lia|]. by rewrite Ho.
    - unfold destination. destruct (Z.leb_spec e (n i)); [specialize (Hin i Hi); lia|].
      rewrite (partner_not_owner n i Ho).
      rewrite (partner_mutual n i (owner_mutual n i Ho)).
      apply owner_spec in Ho as [_ ->]. done.
    - pose proof (count_owners_range n b (i + 1) ltac:(lia)) as Hr.
      unfold first_child_of, next_end, rank.
      replace (e - 2 * merged_count n b e + 2 * (count_owners n b (i + 1) - 1))
        with (2 * (b - merged_count n b e + count_owners n b (i + 1) - 1) + 1) by lia.
      apply odd_mod.
    - unfold node_at at 1. by rewrite Hp. }
  assert (∀ x, next_begin n b e ≤ x < node_count →
    (∃ i, b ≤ i < node_count ∧ dest i = x ∧ node_at out' x = node_at nodes i) ∨
    (∃ i, b ≤ i < e ∧ owner n i = true ∧ x = slot n b e (n i) ∧
          is_leaf (node_at out' x) = false)) as Hclass.
  { intros x Hx. destruct (HR2 x Hx) as [(i & Hi & Hd)|(i & Hi & Ho & ->)].
    - left. exists i. split; [done|]. split; [done|]. rewrite <- Hd. by apply Hmoved.
    - right. exists i. split; [done|]. split; [done|]. split; [done|].
      destruct (Hpair i Hi Ho) as (_ & _ & _ & _ & _ & _ & ->).
      apply parent_node_is_leaf. }
  split; simpl; rewrite ?Hb', ?He'.
  - (* the spare buffer *)
    intros x Hx. destruct (HR1 x ltac:(lia)) as [_ Hl].
    rewrite Hstay in Hl by lia. done.
  - (* leaves *)
    intros x Hx Hleaf.
    destruct (Hclass x Hx) as [(i & Hi & _ & Hnode)|(i & _ & _ & _ & Hnl)];
      [|congruence].
    rewrite Hnode in *. by apply Fleaf.
  - intros r Hr. destruct (Fexists r Hr) as (x & Hx & Hleaf & Hfirst).
    exists (dest x). destruct (HR1 x Hx) as [Hd _].
    rewrite (Hmoved x Hx). done.
  - intros x y Hx Hy Hlx Hly Heq.
    destruct (Hclass x Hx) as [(i & Hi & <- & Hnx)|(i & _ & _ & _ & Hnl)];
      [|congruence].
    destruct (Hclass y Hy) as [(j & Hj & <- & Hny)|(j & _ & _ & _ & Hnl)];
      [|congruence].
    rewrite Hnx, Hny in *. f_equal. by apply Funique.
  - (* internal nodes *)
    intros x Hx Hnl.
    destruct (HR2 x Hx) as [(i & Hi & Hd)|(i & Hi & Ho & ->)].
    + rewrite <- Hd in *. rewrite (Hmoved i Hi) in *.
      destruct (Finternal i Hi Hnl) as (Hf1 & Hf2 & Hodd & Hvol).
      set (f := first_child_or_primitive (node_at nodes i)) in *.
      split; [unfold next_end; lia|]. split; [done|]. split; [done|].
      rewrite !Hsame by lia. done.
    + destruct (Hpair i Hi Ho) as (Hdi & Hdn & Hf1 & Hf2 & Hodd & _ & Hnode).
      rewrite Hnode. rewrite parent_node_first_child, parent_node_volume.
      rewrite to_index_small by lia.
      split; [done|]. split; [lia|]. split; [done|].
      rewrite <- Hdi at 2. rewrite <- Hdn.
      rewrite !Hmoved by (specialize (Hin i Hi); lia). done.
  - (* parents *)
    intros c Hc. destruct (Z.lt_ge_cases c e) as [Hlt|Hge].
    + assert (next_end n b e ≤ c < e) as Hc' by lia.
      destruct (child_surjective n b e Hbe c Hc') as (i & Hi & Ho & Hchild).
      destruct (Hpair i Hi Ho) as (_ & _ & Hf1 & Hf2 & _ & Hs & Hnode).
      exists (slot n b e (n i)). split; [lia|].
      rewrite Hnode, parent_node_is_leaf, parent_node_first_child.
      rewrite to_index_small by lia. split; [done|]. lia.
    + destruct (Fparent c ltac:(lia)) as (x & Hx & Hnl & Hchild).
      exists (dest x). destruct (HR1 x Hx) as [Hd _].
      rewrite (Hmoved x Hx). done.
Qed.

(** A round keeps the children after their parents and the first
    children distinct. *)
Lemma round_tree_shape :
  tree_shape primitives nodes b →
  ∃ st', run_round st = Some st' ∧
         tree_shape primitives (st_nodes st') (st_begin st').
Proof.
  intros [Sorder Sdistinct].
  destruct round_window as (st' & Hrun & Hwin' & Hb' & He' & Hpe' & Hcopy' & Hless).
  exists st'. split; [done|].
  pose proof round_merges as Hmc. pose proof Hwin as [].
  pose proof Hforest as [Fcopy Fleaf Fexists Funique Finternal Fparent].
  assert (b ≤ e) as Hbe by lia.
  assert (∀ i, b ≤ i < e → b ≤ n i < e) as Hin
    by (intros i Hi; by apply round_neighbors_valid).
  unfold round in Hrun.
  destruct (cluster_relocates search_radius
              (team_size loop_parallel_threshold num_threads b e)
              (st_nodes st) (st_nodes_copy st) (st_auxiliary_data st)
              0 node_count b e (st_previous_end st))
    as (out' & aux' & Hcl & Hlen & _ & HR1 & HR2 & HR4);
    [first [lia|done|apply team_size_valid|apply round_neighbors_valid
           |by apply spare_buffer_agrees]..|].
  rewrite Hcl in Hrun. simpl in Hrun.
  injection Hrun as <-. simpl in *.
  rewrite inv_nodes_length0 in HR1, HR2.
  assert (∀ i, b ≤ i < node_count → node_at out' (dest i) = node_at nodes i)
    as Hmoved.
  { intros i Hi. unfold node_at. by destruct (HR1 i Hi) as [_ ->]. }
  assert (∀ y, e ≤ y < node_count → node_at out' y = node_at nodes y) as Hsame.
  { intros y Hy. pose proof (Hmoved y ltac:(lia)) as Hm.
    unfold destination in Hm. destruct (Z.leb_spec e y); [done|lia]. }
  assert (0 ≤ next_begin n b e ∧ 0 ≤ next_end n b e ≤ e) as Hnext
    by (unfold next_begin, next_end; lia).
  assert (∀ x, next_begin n b e ≤ x < node_count →
    is_leaf (node_at out' x) = false →
    (∃ i, b ≤ i < node_count ∧ dest i = x ∧
          is_leaf (node_at nodes i) = false ∧
          first_child_or_primitive (node_at out' x) =
          first_child_or_primitive (node_at nodes i) ∧
          e ≤ first_child_or_primitive (node_at nodes i)) ∨
    (∃ i, b ≤ i < e ∧ owner n i = true ∧ x = slot n b e (n i) ∧
          x < next_end n b e ∧
          first_child_or_primitive (node_at out' x) = first_child_of n b e i ∧
          next_end n b e ≤ first_child_of n b e i ∧
          first_child_of n b e i + 1 < e)) as Hclass.
  { intros x Hx Hnl. destruct (HR2 x Hx) as [(i & Hi & Hd)|(i & Hi & Ho & ->)].
    - left. exists i. rewrite <- Hd in *. rewrite (Hmoved i Hi) in *.
      destruct (Finternal i Hi Hnl) as (Hf1 & _). done.
    - right. exists i. destruct (HR4 i Hi Ho) as [Hs Hp].
      pose proof (first_child_range n b e i Hi Ho) as Hf.
      split; [done|]. split; [done|]. split; [done|]. split; [lia|].
      split; [|done]. unfold node_at at 1. rewrite Hp. simpl.
      rewrite parent_node_first_child. apply to_index_small. lia. }
  split.
  - intros x Hx Hnl. destruct (Z.lt_ge_cases x e) as [Hlt|Hge].
    + destruct (Hclass x Hx Hnl)
        as [(i & _ & _ & _ & -> & Hfar)|(i & _ & _ & _ & Hslot & -> & Hf & _)];
        lia.
    + rewrite Hsame in * by lia. apply Sorder; [lia|done].
  - intros x y Hx Hy Hlx Hly Heq.
    destruct (Hclass x Hx Hlx)
      as [(i & Hi & Hdi & Hli & Hfi & Hfar)|(i & Hi & Hoi & Hsi & _ & Hfi & Hi1 & Hi2)];
    destruct (Hclass y Hy Hly)
      as [(j & Hj & Hdj & Hlj & Hfj & Hfar')|(j & Hj & Hoj & Hsj & _ & Hfj & Hj1 & Hj2)].
    + rewrite <- Hdi, <- Hdj. f_equal. apply Sdistinct; [done..|congruence].
    + lia.
    + lia.
    + assert (i = j) as ->; [|congruence].
      destruct (Z.lt_trichotomy i j) as [Hlt|[->|Hgt]]; [|done|].
      * pose proof (first_child_lt n b e i j ltac:(lia) Hoi Hoj). lia.
      * pose proof (first_child_lt n b e j i ltac:(lia) Hoj Hoi). lia.
Qed.

End OneRound.

End RoundStep.

(** ** The builds *)

Lemma permutation_lookup perm count i :
  is_permutation perm count → 0 ≤ i < count →
  ∃ p, load perm i = Some p ∧ 0 ≤ p < count.
Proof.
  intros Hperm Hi. pose proof (Permutation_length Hperm) as Hlen.
  rewrite length_seqZ in Hlen.
  destruct (load_is_Some perm i ltac:(lia)) as [p Hp].
  exists p. split; [done|].
  apply load_Some in Hp as [_ Hp]. apply list_elem_of_lookup_2 in Hp.
  rewrite Hperm in Hp. apply elem_of_seqZ in Hp. lia.
Qed.

Section BuildProofs.
Context {Scalar V N : Type} `{ScalarOps Scalar} `{!VolumeOps Scalar V}
  `{!NodeOps Scalar V N} `{!ScalarOrder Scalar} `{!FiniteAreas Scalar V}.

Variables search_radius loop_parallel_threshold : Z.
Variable num_threads : Z → Z → Z.
Variable bboxes : list V.
Variable primitive_indices : list Z.
Variable primitives : Z.

Hypothesis radius_positive : 1 ≤ search_radius.
Hypothesis cache_fits : (search_radius + 1) * search_radius < size_modulus.
Hypothesis threads_valid : ∀ b e, 1 ≤ num_threads b e < size_modulus.
Hypothesis size_fits : 1 ≤ primitives ∧ 6 * primitives + search_radius < size_modulus.
Hypothesis index_fits : 2 ≤ index_bits ∧ 2 * primitives - 1 ≤ 2 ^ index_bits.
Hypothesis bboxes_length : Z.of_nat (length bboxes) = primitives.
Hypothesis sorted : is_permutation primitive_indices primitives.

Local Abbreviation node_count := (2 * primitives - 1).
Local Abbreviation window_ok := (window_invariant (N:=N) primitives).
Local Abbreviation forest_ok :=
  (forest_invariant (N:=N) bboxes primitive_indices primitives).

Lemma leaf_node_fields (bbox : V) i :
  0 ≤ i < primitives →
  is_leaf (leaf_node (N:=N) bbox i) = true ∧
  primitive_count (leaf_node (N:=N) bbox i) = 1 ∧
  first_child_or_primitive (leaf_node (N:=N) bbox i) = i ∧
  to_bounding_box (leaf_node (N:=N) bbox i) = bbox.
Proof.
  intros Hi. unfold leaf_node. autorewrite with node_fields.
  split; [done|]. split; [|split; [|done]].
  - unfold to_count. apply Z.mod_small.
    assert (1 ≤ index_bits - 1) as Hbits by lia.
    pose proof (Z.pow_le_mono_r 2 1 (index_bits - 1) ltac:(lia) Hbits). lia.
  - apply to_index_small. lia.
Qed.

(** The leaves: leaf number [i] is stored at [node_count - primitives + i]
    and holds the volume of primitive [primitive_indices[i]]. *)
Lemma create_leaves_spec :
  ∃ nodes,
    create_leaves bboxes primitive_indices primitives (primitives - 1)
      (make_unique value_initialized node_count) = Some nodes ∧
    Z.of_nat (length nodes) = node_count ∧
    (∀ i, 0 ≤ i < primitives →
          ∃ p bbox, load primitive_indices i = Some p ∧
                    load bboxes p = Some bbox ∧
                    load nodes (node_count - primitives + i)
                      = Some (leaf_node bbox i)) ∧
    (∀ x, 0 ≤ x < primitives - 1 → load nodes x = Some value_initialized).
Proof.
  unfold create_leaves.
  destruct (for_loop_invariant
    (λ k (nodes : list N),
       Z.of_nat (length nodes) = node_count ∧
       (∀ i, 0 ≤ i < k →
             ∃ p bbox, load primitive_indices i = Some p ∧
                       load bboxes p = Some bbox ∧
                       load nodes (node_count - primitives + i)
                         = Some (leaf_node bbox i)) ∧
       (∀ x, ¬ (primitives - 1 ≤ x < primitives - 1 + k) →
             load nodes x = load (make_unique (value_initialized (N:=N)) node_count) x))
    0 primitives
    (λ i (nodes : list N),
       node ← load nodes (wrap (primitives - 1 + i));
       p ← load primitive_indices i;
       bbox ← load bboxes p;
       store nodes (wrap (primitives - 1 + i))
         (set_first_child_or_primitive i
            (set_primitive_count 1
               (set_is_leaf true (assign_bounding_box bbox node)))))
    (make_unique value_initialized node_count))
    as (nodes & Hrun & Hlen & Hleaves & Hrest); [lia| | |].
  - split; [apply length_make_unique; lia|]. split; [intros; lia|done].
  - intros k nodes Hk (Hlen & Hleaves & Hrest).
    rewrite wrap_small by lia.
    rewrite Hrest by lia. rewrite load_make_unique by lia. simpl.
    destruct (permutation_lookup _ _ k sorted Hk) as (p & Hpk & Hp).
    rewrite Hpk. simpl.
    destruct (load_is_Some bboxes p ltac:(lia)) as [bbox Hbox].
    rewrite Hbox. simpl.
    fold (leaf_node (N:=N) bbox k).
    destruct (store nodes (primitives - 1 + k) (leaf_node bbox k))
      as [nodes'|] eqn:Hst; [|rewrite store_Some in Hst by lia; done].
    exists nodes'. split; [done|]. split; [|split].
    + apply store_length in Hst. lia.
    + intros i Hi. destruct (decide (i = k)) as [->|Hne].
      * exists p, bbox. split; [done|]. split; [done|].
        replace (node_count - primitives + k) with (primitives - 1 + k) by lia.
        by apply load_store_eq in Hst.
      * destruct (Hleaves i ltac:(lia)) as (q & bbox' & Hq & Hbox' & Hnode).
        exists q, bbox'. split; [done|]. split; [done|].
        rewrite (load_store_ne _ _ _ _ _ Hst) by lia. done.
    + intros x Hx. rewrite (load_store_ne _ _ _ _ _ Hst) by lia. apply Hrest. lia.
  - exists nodes. split; [done|]. split; [done|]. split; [done|].
    intros x Hx. rewrite Hrest by lia. apply load_make_unique. lia.
Qed.

Lemma initial_state_spec :
  ∃ st, initial_state (N:=N) bboxes primitive_indices primitives = Some st ∧
        window_ok st ∧ forest_ok st ∧
        st_begin st = primitives - 1 ∧ st_end st = node_count ∧
        (∀ i, 0 ≤ i < primitives →
              ∃ p bbox, load primitive_indices i = Some p ∧
                        load bboxes p = Some bbox ∧
                        load (st_nodes st) (node_count - primitives + i)
                          = Some (leaf_node bbox i)).
Proof.
  unfold initial_state.
  rewrite (wrap_small node_count) by lia.
  rewrite (wrap_small (node_count * 3)) by lia.
  rewrite (wrap_small (node_count - primitives)) by lia.
  replace (node_count - primitives) with (primitives - 1) by lia.
  destruct create_leaves_spec as (nodes & -> & Hlen & Hleaves & _). simpl.
  assert (∀ x, primitives - 1 ≤ x < node_count →
    ∃ p bbox, load primitive_indices (x - (primitives - 1)) = Some p ∧
              load bboxes p = Some bbox ∧
              node_at nodes x = leaf_node bbox (x - (primitives - 1))) as Hleaf.
  { intros x Hx.
    destruct (Hleaves (x - (primitives - 1)) ltac:(lia)) as (p & bbox & Hp & Hb & Hn).
    exists p, bbox. split; [done|]. split; [done|].
    apply node_at_load. rewrite <- Hn. f_equal. lia. }
  eexists. split; [done|]. simpl.
  split; [|split; [|split; [done|split; [done|]]]].
  - split; simpl; [done| |rewrite length_make_unique by lia; lia|lia|lia|lia].
    apply length_make_unique. lia.
  - split; simpl.
    + intros x Hx. lia.
    + intros x Hx _. destruct (Hleaf x Hx) as (p & bbox & Hp & Hb & ->).
      destruct (leaf_node_fields bbox (x - (primitives - 1)) ltac:(lia))
        as (_ & -> & -> & ->).
      split; [done|]. split; [lia|]. by exists p.
    + intros r Hr. exists (primitives - 1 + r). split; [lia|].
      destruct (Hleaf (primitives - 1 + r) ltac:(lia)) as (p & bbox & _ & _ & ->).
      destruct (leaf_node_fields bbox (primitives - 1 + r - (primitives - 1))
                  ltac:(lia)) as (-> & _ & -> & _).
      split; [done|lia].
    + intros x y Hx Hy _ _.
      destruct (Hleaf x Hx) as (p & bbox & _ & _ & ->).
      destruct (Hleaf y Hy) as (q & bbox' & _ & _ & ->).
      destruct (leaf_node_fields bbox (x - (primitives - 1)) ltac:(lia))
        as (_ & _ & -> & _).
      destruct (leaf_node_fields bbox' (y - (primitives - 1)) ltac:(lia))
        as (_ & _ & -> & _).
      lia.
    + intros x Hx Hnl. destruct (Hleaf x Hx) as (p & bbox & _ & _ & Hn).
      rewrite Hn in Hnl.
      destruct (leaf_node_fields bbox (x - (primitives - 1)) ltac:(lia))
        as (Hl & _). congruence.
    + intros c Hc. lia.
  - intros i Hi. destruct (Hleaves i Hi) as (p & bbox & Hp & Hb & Hn).
    exists p, bbox. split; [done|]. split; [done|].
    rewrite <- Hn. f_equal. lia.
Qed.

(** The round loop ends, with the window [[0, 1)]. *)
Lemma round_loop_spec (fuel : nat) (st : BuildState N) :
  window_ok st → forest_ok st → st_begin st ≤ Z.of_nat fuel →
  ∃ st', round_loop search_radius loop_parallel_threshold num_threads fuel
           node_count st = Some st' ∧
         window_ok st' ∧ forest_ok st' ∧ st_begin st' = 0 ∧ st_end st' = 1.
Proof.
  revert st. induction fuel as [|fuel IH]; intros st Hwin Hforest Hfuel.
  - pose proof Hwin as []. simpl.
    rewrite wrap_small by lia.
    destruct (Z.ltb_spec 1 (st_end st - st_begin st)); [lia|].
    exists st. split; [done|]. split; [done|]. split; [done|]. lia.
  - pose proof Hwin as []. simpl.
    rewrite wrap_small by lia.
    destruct (Z.ltb_spec 1 (st_end st - st_begin st)) as [Hwork|Hdone].
    + destruct (round_forest search_radius loop_parallel_threshold num_threads
                  bboxes primitive_indices primitives)
        with (st := st) as (st1 & -> & Hwin1 & Hforest1 & Hless);
        [first [lia|done]..|].
      simpl. apply IH; [done|done|lia].
    + exists st. split; [done|]. split; [done|]. split; [done|]. lia.
Qed.

(** A non-hybrid build runs to completion: it leaves the round loop with
    the window [[0, 1)] and the forest is one tree. *)
Lemma build_rounds_spec (fuel : nat) :
  primitives ≤ Z.of_nat fuel →
  ∃ st, build_rounds (N:=N) search_radius loop_parallel_threshold num_threads
          fuel bboxes primitive_indices primitives = Some st ∧
        window_ok st ∧ forest_ok st ∧ st_begin st = 0 ∧ st_end st = 1.
Proof.
  intros Hfuel. unfold build_rounds.
  destruct initial_state_spec as (st0 & -> & Hwin & Hforest & Hb & _). simpl.
  rewrite (wrap_small node_count) by lia.
  apply round_loop_spec; [done|done|lia].
Qed.

(** The leaves alone are in shape. *)
Lemma initial_state_shape (st : BuildState N) :
  initial_state (N:=N) bboxes primitive_indices primitives = Some st →
  tree_shape primitives (st_nodes st) (st_begin st).
Proof.
  intros Hrun.
  destruct initial_state_spec as (st0 & Hrun0 & _ & _ & Hb & _ & Hleaves).
  assert (st0 = st) as -> by congruence.
  assert (∀ x, st_begin st ≤ x < node_count →
               is_leaf (node_at (st_nodes st) x) = true) as Hleaf.
  { intros x Hx. destruct (Hleaves (x - (primitives - 1)) ltac:(lia))
      as (p & bbox & _ & _ & Hnode).
    replace (node_count - primitives + (x - (primitives - 1))) with x in Hnode
      by lia.
    unfold node_at. rewrite Hnode. simpl.
    by destruct (leaf_node_fields bbox (x - (primitives - 1)) ltac:(lia))
      as (-> & _). }
  split.
  - intros x Hx Hnl. rewrite Hleaf in Hnl by done. done.
  - intros x y Hx _ Hnl. rewrite Hleaf in Hnl by done. done.
Qed.

(** The round loop keeps the shape. *)
Lemma round_loop_shape (fuel : nat) (st : BuildState N) :
  window_ok st → forest_ok st →
  tree_shape primitives (st_nodes st) (st_begin st) →
  st_begin st ≤ Z.of_nat fuel →
  ∃ st', round_loop search_radius loop_parallel_threshold num_threads fuel
           node_count st = Some st' ∧
         window_ok st' ∧ forest_ok st' ∧
         tree_shape primitives (st_nodes st') (st_begin st') ∧
         st_begin st' = 0 ∧ st_end st' = 1.
Proof.
  revert st. induction fuel as [|fuel IH]; intros st Hwin Hforest Hshape Hfuel.
  - pose proof Hwin as []. simpl.
    rewrite wrap_small by lia.
    destruct (Z.ltb_spec 1 (st_end st - st_begin st)); [lia|].
    exists st. repeat (split; [done|]). lia.
  - pose proof Hwin as []. simpl.
    rewrite wrap_small by lia.
    destruct (Z.ltb_spec 1 (st_end st - st_begin st)) as [Hwork|Hdone].
    + destruct (round_forest search_radius loop_parallel_threshold num_threads
                  bboxes primitive_indices primitives)
        with (st := st) as (st1 & Hround & Hwin1 & Hforest1 & Hless);
        [first [lia|done]..|].
      destruct (round_tree_shape search_radius loop_parallel_threshold
                  num_threads bboxes primitive_indices primitives)
        with (st := st) as (st1' & Hround' & Hshape1);
        [first [lia|done]..|].
      assert (st1' = st1) as -> by congruence.
      rewrite Hround. simpl. apply IH; [done|done|done|lia].
    + exists st. repeat (split; [done|]). lia.
Qed.

(** A finished arena is a tree. *)
Lemma build_rounds_tree (fuel : nat) :
  primitives ≤ Z.of_nat fuel →
  ∃ st, build_rounds (N:=N) search_radius loop_parallel_threshold num_threads
          fuel bboxes primitive_indices primitives = Some st ∧
        is_tree primitives (st_nodes st).
Proof.
  intros Hfuel. unfold build_rounds.
  destruct initial_state_spec as (st0 & Hinit & Hwin & Hforest & Hb & _).
  pose proof (initial_state_shape st0 Hinit) as Hshape0.
  rewrite Hinit. simpl. rewrite (wrap_small node_count) by lia.
  destruct (round_loop_shape fuel st0)
    as (st & -> & _ & Hforest' & [Sorder Sdistinct] & Hbegin & Hend);
    [done|done|done|lia|].
  exists st. split; [done|].
  destruct Hforest' as [_ _ _ _ Finternal Fparent].
  rewrite Hbegin in *. rewrite Hend in *.
  split; [|split].
  - intros x Hx Hnl. destruct (Finternal x Hx Hnl) as (_ & Hin & _).
    split; [by apply Sorder|done].
  - intros c Hc. destruct (Fparent c Hc) as (x & Hx & Hnl & Hchild).
    exists x. split; [done|].
    intros y (Hy & Hnl' & Hchild').
    destruct (Finternal x Hx Hnl) as (_ & _ & Hoddx & _).
    destruct (Finternal y Hy Hnl') as (_ & _ & Hoddy & _).
    apply Sdistinct; [done..|].
    pose proof (Z.div_mod (first_child_or_primitive (node_at (st_nodes st) x)) 2
                  ltac:(lia)).
    pose proof (Z.div_mod (first_child_or_primitive (node_at (st_nodes st) y)) 2
                  ltac:(lia)).
    destruct Hchild as [Hc1|Hc1], Hchild' as [Hc2|Hc2]; lia.
  - intros x (Hx & Hnl & Hchild). pose proof (Sorder x Hx Hnl). lia.
Qed.

End BuildProofs.

(** ** The search without cache and the reference of the specification *)

Lemma filter_all {A} (P : A → Prop) `{∀ x, Decision (P x)} (l : list A) :
  Forall P l → filter P l = l.
Proof.
  induction 1 as [|x l Hx Hl IH]; [done|].
  rewrite filter_cons_True by done. by rewrite IH.
Qed.

Section ReferenceSearch.
Context {Scalar V N : Type} `{ScalarOps Scalar} `{!VolumeOps Scalar V}
  `{!NodeOps Scalar V N} `{!FiniteAreas Scalar V} `{!SymmetricCost Scalar V}.

Variable search_radius : Z.
Variable input : list N.
Variables begin end_ : Z.

Hypothesis radius_nonneg : 0 ≤ search_radius.
Hypothesis window : 0 ≤ begin.
Hypothesis no_overflow : end_ + search_radius + 1 < size_modulus.

Lemma pair_distance_distance i j :
  pair_distance input i j = distance input i j.
Proof.
  unfold pair_distance. destruct (Z.le_gt_cases i j).
  - by rewrite Z.min_l, Z.max_r by lia.
  - rewrite Z.min_r, Z.max_l by lia. unfold distance.
    apply merge_cost_symmetric.
Qed.

Lemma reference_candidates_eq i :
  begin ≤ i < end_ →
  reference_candidates search_radius begin end_ i =
  candidates search_radius begin end_ i.
Proof.
  intros Hi. unfold reference_candidates, candidates, search_range.
  rewrite (wrap_small (begin + search_radius)) by lia.
  rewrite (wrap_small (i + search_radius + 1)) by lia.
  set (lo := Z.max begin (i - search_radius)).
  set (hi := Z.min end_ (i + search_radius + 1)).
  assert ((if begin + search_radius <? i then wrap (i - search_radius) else begin)
          = lo) as ->.
  { unfold lo. destruct (Z.ltb_spec (begin + search_radius) i).
    - rewrite wrap_small by lia. lia.
    - lia. }
  rewrite (Z.min_comm (i + search_radius + 1) end_). fold hi.
  replace (hi - lo) with ((i - lo) + (1 + (hi - (i + 1)))) by lia.
  rewrite seqZ_app by lia. rewrite (seqZ_app _ 1) by lia.
  replace (lo + (i - lo)) with i by lia.
  rewrite !filter_app. change (seqZ i 1) with [i].
  rewrite filter_cons_False by (intros Hne; by apply Hne).
  rewrite filter_nil. simpl.
  rewrite !filter_all; [done|apply Forall_seqZ; lia..].
Qed.

Lemma scan_reference i js (best : Scalar * Z) (opt : option Z) :
  (opt = None ∧ best = (scalar_max, SIZE_MAX)) ∨
  (∃ b, opt = Some b ∧ best = (distance input i b, b)) →
  (scan input i js best).2 =
  default SIZE_MAX (fold_left (reference_step input i) js opt) ∧
  (js ≠ [] ∨ opt ≠ None →
   is_Some (fold_left (reference_step input i) js opt)).
Proof.
  revert best opt. induction js as [|j js IH]; intros best opt Hrel.
  - simpl. destruct Hrel as [[-> ->]|(b & -> & ->)]; simpl.
    + split; [done|]. intros [?|?]; done.
    + split; [done|]. intros _. by eexists.
  - change (scan input i (j :: js) best)
      with (scan input i js (improve (pair_distance input i j) j best)).
    simpl fold_left.
    destruct (IH (improve (pair_distance input i j) j best)
                (reference_step input i opt j)) as [Heq Hsome].
    + right. rewrite pair_distance_distance. unfold improve.
      destruct Hrel as [[-> ->]|(b & -> & ->)]; simpl.
      * unfold distance at 1. rewrite half_area_finite. by eexists.
      * destruct (scalar_lt _ _); by eexists.
    + split; [done|]. intros _. apply Hsome. right.
      destruct opt; simpl; [destruct (scalar_lt _ _)|]; done.
Qed.

(** The search of the builder without its cache finds the neighbor of
    the reference, or [size_t(-1)] when the node has no candidate. *)
Lemma direct_neighbor_reference i :
  begin ≤ i < end_ →
  direct_neighbor search_radius input begin end_ i =
  default SIZE_MAX (reference_neighbor search_radius input begin end_ i).
Proof.
  intros Hi. unfold direct_neighbor, reference_neighbor.
  rewrite reference_candidates_eq by done.
  apply scan_reference. by left.
Qed.

End ReferenceSearch.

(** ** Independence of the team size *)

Section Teams.
Context {Scalar V N : Type} `{ScalarOps Scalar} `{!VolumeOps Scalar V}
  `{!NodeOps Scalar V N} `{!ScalarOrder Scalar} `{!FiniteAreas Scalar V}.

Variable search_radius : Z.
Variables threshold threshold' : Z.
Variables threads threads' : Z → Z → Z.
Variable primitives : Z.

Hypothesis radius_positive : 1 ≤ search_radius.
Hypothesis cache_fits : (search_radius + 1) * search_radius < size_modulus.
Hypothesis threads_valid : ∀ b e, 1 ≤ threads b e < size_modulus.
Hypothesis threads_valid' : ∀ b e, 1 ≤ threads' b e < size_modulus.
Hypothesis size_fits : 1 ≤ primitives ∧ 6 * primitives + search_radius < size_modulus.

Local Abbreviation node_count := (2 * primitives - 1).
Local Abbreviation window_ok := (window_invariant (N:=N) primitives).

(** The team size only decides how the window is cut into chunks, and the
    neighbors found do not depend on the cut. *)
Lemma cluster_threads (input output : list N) (aux : list Z)
  neighbors merged_index begin end_ previous_end thread_count thread_count' :
  0 ≤ begin ≤ end_ → end_ ≤ Z.of_nat (length input) →
  end_ + search_radius + 1 < size_modulus →
  0 ≤ neighbors → neighbors + end_ ≤ Z.of_nat (length aux) →
  1 ≤ thread_count < size_modulus → 1 ≤ thread_count' < size_modulus →
  cluster search_radius thread_count input output aux neighbors merged_index
    begin end_ previous_end =
  cluster search_radius thread_count' input output aux neighbors merged_index
    begin end_ previous_end.
Proof.
  intros Hwin Hin Hovf Hnb Haux HT HT'. unfold cluster.
  destruct (search_neighbors_spec search_radius input begin end_)
    with (neighbors := neighbors) (thread_count := thread_count) (aux := aux)
    as (aux1 & -> & Hsweep & _); [first [lia|done]..|].
  destruct (search_neighbors_spec search_radius input begin end_)
    with (neighbors := neighbors) (thread_count := thread_count') (aux := aux)
    as (aux1' & -> & Hsweep' & _); [first [lia|done]..|].
  rewrite Hsweep in Hsweep'. by injection Hsweep' as ->.
Qed.

Lemma round_threads (st : BuildState N) :
  window_ok st →
  round search_radius threshold threads node_count st =
  round search_radius threshold' threads' node_count st.
Proof.
  intros []. unfold round.
  rewrite (cluster_threads _ _ _ _ _ _ _ _
             (team_size threshold threads (st_begin st) (st_end st))
             (team_size threshold' threads' (st_begin st) (st_end st)));
    [done|first [lia|by apply team_size_valid]..].
Qed.

Lemma round_loop_threads (fuel : nat) (st : BuildState N) :
  window_ok st →
  round_loop search_radius threshold threads fuel node_count st =
  round_loop search_radius threshold' threads' fuel node_count st.
Proof.
  revert st. induction fuel as [|fuel IH]; intros st Hwin; [done|].
  pose proof Hwin as []. simpl. rewrite wrap_small by lia.
  destruct (Z.ltb_spec 1 (st_end st - st_begin st)) as [Hwork|]; [|done].
  rewrite <- round_threads by done.
  destruct (round_window search_radius threshold threads primitives)
    with (st := st) as (st1 & -> & Hwin1 & _); [first [lia|done]..|].
  simpl. by apply IH.
Qed.

Lemma round_loop_until_threads (fuel : nat) iteration (st : BuildState N) k :
  window_ok st →
  round_loop_until search_radius threshold threads fuel node_count iteration st k =
  round_loop_until search_radius threshold' threads' fuel node_count iteration st k.
Proof.
  revert st k. induction fuel as [|fuel IH]; intros st k Hwin; [done|].
  pose proof Hwin as []. simpl. rewrite wrap_small by lia.
  destruct (Z.ltb_spec 1 (st_end st - st_begin st)) as [Hwork|]; [|done].
  rewrite <- round_threads by done.
  destruct (round_window search_radius threshold threads primitives)
    with (st := st) as (st1 & -> & Hwin1 & _); [first [lia|done]..|].
  simpl. destruct (_ =? _); [done|]. by apply IH.
Qed.

(** The round loop ends whatever the nodes hold. *)
Lemma round_loop_window (fuel : nat) (st : BuildState N) :
  window_ok st → st_begin st ≤ Z.of_nat fuel →
  ∃ st', round_loop search_radius threshold threads fuel node_count st = Some st' ∧
         window_ok st' ∧ st_begin st' = 0 ∧ st_end st' = 1.
Proof.
  revert st. induction fuel as [|fuel IH]; intros st Hwin Hfuel.
  - pose proof Hwin as []. simpl. rewrite wrap_small by lia.
    destruct (Z.ltb_spec 1 (st_end st - st_begin st)); [lia|].
    exists st. split; [done|]. split; [done|]. lia.
  - pose proof Hwin as []. simpl. rewrite wrap_small by lia.
    destruct (Z.ltb_spec 1 (st_end st - st_begin st)) as [Hwork|Hdone].
    + destruct (round_window search_radius threshold threads primitives)
        with (st := st) as (st1 & -> & Hwin1 & _ & _ & _ & _ & Hless);
        [first [lia|done]..|].
      simpl. apply IH; [done|lia].
    + exists st. split; [done|]. split; [done|]. lia.
Qed.

(** The invariant on the window holds wherever the counted loop stops. *)
Lemma round_loop_until_window (fuel : nat) iteration (st : BuildState N) k st' k' :
  window_ok st →
  round_loop_until search_radius threshold threads fuel node_count iteration st k
    = Some (st', k') →
  window_ok st'.
Proof.
  revert st k. induction fuel as [|fuel IH]; intros st k Hwin; simpl.
  - destruct (_ <? _); [done|]. by intros [= <- _].
  - pose proof Hwin as []. rewrite wrap_small by lia.
    destruct (Z.ltb_spec 1 (st_end st - st_begin st)) as [Hwork|];
      [|by intros [= <- _]].
    destruct (round_window search_radius threshold threads primitives)
      with (st := st) as (st1 & -> & Hwin1 & _); [first [lia|done]..|].
    simpl. destruct (_ =? _); [by intros [= <- _]|]. by apply IH.
Qed.

End Teams.

(** ** The hybrid build *)

Section HybridProofs.
Context {Scalar B C : Type} `{ScalarOps Scalar}
  `{!VolumeOps Scalar B} `{!VolumeOps Scalar C}
  `{!ScalarOrder Scalar} `{!FiniteAreas Scalar B} `{!FiniteAreas Scalar C}.

Variable AABB : C → B.
Variables search_radius loop_parallel_threshold : Z.
Variable num_threads : Z → Z → Z.
Variable bboxes : list C.
Variable primitive_indices : list Z.
Variable primitives : Z.

Hypothesis assumptions : build_assumptions search_radius num_threads primitives.
Hypothesis bboxes_length : Z.of_nat (length bboxes) = primitives.
Hypothesis sorted : is_permutation primitive_indices primitives.

Local Abbreviation node_count := (2 * primitives - 1).
Local Abbreviation cyl_window_ok :=
  (window_invariant (N:=CustomNode C) primitives).
Local Abbreviation cyl_forest_ok :=
  (forest_invariant (N:=CustomNode C) bboxes primitive_indices primitives).

(** The cylinder rounds keep the invariants, wherever they stop. *)
Lemma round_loop_until_spec (fuel : nat) iteration (st : BuildState (CustomNode C)) k :
  cyl_window_ok st → cyl_forest_ok st → st_begin st ≤ Z.of_nat fuel →
  ∃ st' k',
    round_loop_until search_radius loop_parallel_threshold num_threads fuel
      node_count iteration st k = Some (st', k') ∧
    cyl_window_ok st' ∧ cyl_forest_ok st' ∧ st_begin st' ≤ st_begin st.
Proof.
  destruct assumptions.
  revert st k. induction fuel as [|fuel IH]; intros st k Hwin Hforest Hfuel.
  - pose proof Hwin as []. simpl. rewrite wrap_small by lia.
    destruct (Z.ltb_spec 1 (st_end st - st_begin st)); [lia|].
    exists st, k. split; [done|]. split; [done|]. split; [done|]. lia.
  - pose proof Hwin as []. simpl. rewrite wrap_small by lia.
    destruct (Z.ltb_spec 1 (st_end st - st_begin st)) as [Hwork|Hdone].
    + destruct (round_forest search_radius loop_parallel_threshold num_threads
                  bboxes primitive_indices primitives)
        with (st := st) as (st1 & -> & Hwin1 & Hforest1 & Hless);
        [first [lia|done]..|].
      simpl. destruct (_ =? _).
      * exists st1, (wrap (k + 1)). split; [done|]. split; [done|].
        split; [done|lia].
      * destruct (IH st1 (wrap (k + 1))) as (st2 & k2 & -> & Hwin2 & Hforest2 & Hle);
          [done|done|lia|].
        exists st2, k2. split; [done|]. split; [done|]. split; [done|lia].
    + exists st, k. split; [done|]. split; [done|]. split; [done|]. lia.
Qed.

(** With [iteration = 0] the comparison [k == iteration] never holds, as
    [k] is incremented first: the cylinder rounds run until one node is
    left, like the round loop of the cylinder-only build. *)
Lemma round_loop_until_zero (fuel : nat) (st : BuildState (CustomNode C)) k :
  0 ≤ k → k + Z.of_nat fuel < size_modulus →
  fst <$> round_loop_until search_radius loop_parallel_threshold num_threads
            fuel node_count 0 st k =
  round_loop search_radius loop_parallel_threshold num_threads fuel
    node_count st.
Proof.
  revert st k. induction fuel as [|fuel IH]; intros st k Hk Hfuel; simpl.
  - destruct (_ <? _); done.
  - destruct (_ <? _); [|done].
    destruct (round _ _ _ _ st) as [st1|]; [|done]. simpl.
    rewrite wrap_small by lia.
    destruct (Z.eqb_spec (k + 1) 0); [lia|]. apply IH; lia.
Qed.

(** The hand-off loop converts the nodes below [primitives] and leaves
    the others value-initialised. *)
Lemma make_boxes_spec (nodes : list (CustomNode C)) begin end_ :
  Z.of_nat (length nodes) = node_count →
  ∃ bnodes,
    make_boxes AABB nodes primitives begin end_
      (make_unique value_initialized node_count) = Some bnodes ∧
    Z.of_nat (length bnodes) = node_count ∧
    (∀ x, primitives ≤ x < node_count → load bnodes x = Some value_initialized).
Proof.
  destruct assumptions. intros Hlen. unfold make_boxes.
  destruct (for_loop_invariant
    (λ k (bnodes : list (Node B)),
       Z.of_nat (length bnodes) = node_count ∧
       (∀ x, k ≤ x < node_count → load bnodes x = Some value_initialized))
    0 primitives
    (λ i (bnodes : list (Node B)),
       node_i ← load nodes i;
       let mynode :=
         mkNode (AABB (cyl node_i)) (cnode_is_leaf node_i)
           (cnode_primitive_count node_i)
           (cnode_first_child_or_primitive node_i) (to_index i) in
       let mynode :=
         if (begin <=? i) && (i <? end_)
         then mkNode (bounds mynode) true (node_primitive_count mynode)
                (node_first_child_or_primitive mynode) (origin mynode)
         else mynode in
       store bnodes i mynode)
    (make_unique value_initialized node_count))
    as (bnodes & Hrun & Hlen' & Hrest); [lia| | |].
  - split; [apply length_make_unique; lia|].
    intros x Hx. apply load_make_unique. lia.
  - intros k bnodes Hk (Hlen' & Hrest).
    destruct (load_is_Some nodes k ltac:(lia)) as [node_k ->]. simpl.
    destruct (store bnodes k _) as [bnodes'|] eqn:Hst;
      [|rewrite store_Some in Hst by lia; done].
    exists bnodes'. split; [done|]. split.
    + apply store_length in Hst. lia.
    + intros x Hx. rewrite (load_store_ne _ _ _ _ _ Hst) by lia. apply Hrest. lia.
  - exists bnodes. split; [done|]. split; [done|].
    intros x Hx. apply Hrest. lia.
Qed.

(** The hybrid build runs to completion and its cylinder arena keeps the
    invariants of the round loop. *)
Lemma hybrid_rounds_spec (fuel : nat) iteration :
  primitives ≤ Z.of_nat fuel →
  ∃ run,
    hybrid_rounds AABB search_radius loop_parallel_threshold num_threads fuel
      bboxes primitive_indices primitives iteration = Some run ∧
    cyl_window_ok (cylinder_phase run) ∧ cyl_forest_ok (cylinder_phase run) ∧
    window_invariant primitives (box_phase run) ∧
    st_begin (box_phase run) = 0 ∧ st_end (box_phase run) = 1.
Proof.
  pose proof assumptions as []. intros Hfuel. unfold hybrid_rounds.
  destruct (initial_state_spec (N:=CustomNode C))
    with (bboxes := bboxes) (primitive_indices := primitive_indices)
         (primitives := primitives) (search_radius := search_radius)
    as (st0 & -> & Hwin0 & Hforest0 & Hb0 & _); [first [lia|done]..|].
  simpl. rewrite (wrap_small node_count) by lia.
  destruct (round_loop_until_spec fuel iteration st0 0)
    as (st1 & k1 & -> & Hwin1 & Hforest1 & Hle); [done|done|lia|].
  simpl. pose proof Hwin1 as [].
  destruct (make_boxes_spec (st_nodes st1) (st_begin st1) (st_end st1))
    as (bnodes & -> & Hlen & _); [done|].
  simpl.
  destruct (round_loop_window (V:=B) (N:=Node B) search_radius
              loop_parallel_threshold num_threads primitives)
    with (fuel := fuel)
         (st := mkBuildState bnodes (make_unique (value_initialized (N:=Node B)) node_count)
                  (st_auxiliary_data st1) (st_begin st1) (st_end st1)
                  (st_previous_end st1))
    as (bst & -> & Hbwin & Hbb & Hbe); [first [lia|done]..| |simpl; lia|].
  { split; simpl; [done|apply length_make_unique; lia|done..]. }
  simpl. eexists. split; [done|]. simpl. done.
Qed.

(** The hybrid build does not depend on the team sizes either. *)
Lemma hybrid_rounds_threads (fuel : nat) iteration threshold' threads' :
  (∀ b e, 1 ≤ threads' b e < size_modulus) →
  hybrid_rounds AABB search_radius loop_parallel_threshold num_threads fuel
    bboxes primitive_indices primitives iteration =
  hybrid_rounds AABB search_radius threshold' threads' fuel
    bboxes primitive_indices primitives iteration.
Proof.
  pose proof assumptions as []. intros Hthreads'. unfold hybrid_rounds.
  destruct (initial_state_spec (N:=CustomNode C))
    with (bboxes := bboxes) (primitive_indices := primitive_indices)
         (primitives := primitives) (search_radius := search_radius)
    as (st0 & -> & Hwin0 & Hforest0 & Hb0 & _); [first [lia|done]..|].
  simpl. rewrite (wrap_small node_count) by lia.
  rewrite <- (round_loop_until_threads search_radius loop_parallel_threshold
                threshold' num_threads threads' primitives) by done.
  destruct (round_loop_until _ _ _ _ _ _ st0 0) as [[st1 k1]|] eqn:Hloop; [|done].
  apply (round_loop_until_window search_radius loop_parallel_threshold
           num_threads primitives) in Hloop; [|done..].
  simpl. pose proof Hloop as [].
  destruct (make_boxes_spec (st_nodes st1) (st_begin st1) (st_end st1))
    as (bnodes & -> & Hlen & _); [done|].
  simpl.
  rewrite <- (round_loop_threads (V:=B) (N:=Node B) search_radius
                loop_parallel_threshold threshold' num_threads threads'
                primitives); [done|done..|].
  split; simpl; [done|apply length_make_unique; lia|done..].
Qed.

End HybridProofs.

(** ** What the invariants say about a finished arena *)

Section ArenaFacts.
Context {Scalar V N : Type} `{ScalarOps Scalar} `{!VolumeOps Scalar V}
  `{!NodeOps Scalar V N}.

Variable bboxes : list V.
Variable primitive_indices : list Z.
Variable primitives : Z.
Variable st : BuildState N.

Hypothesis sorted : is_permutation primitive_indices primitives.
Hypothesis Hwin : window_invariant primitives st.
Hypothesis Hforest : forest_invariant bboxes primitive_indices primitives st.

Local Abbreviation node_count := (2 * primitives - 1).

Lemma permutation_injective r r' p :
  load primitive_indices r = Some p → load primitive_indices r' = Some p →
  r = r'.
Proof.
  intros [Hr Hl]%load_Some [Hr' Hl']%load_Some.
  assert (NoDup primitive_indices) as Hnd.
  { unfold is_permutation in sorted. rewrite sorted. apply NoDup_seqZ. }
  pose proof (NoDup_lookup _ _ _ _ Hnd Hl Hl'). lia.
Qed.

Lemma permutation_surjective p :
  0 ≤ p < primitives →
  ∃ r, 0 ≤ r < primitives ∧ load primitive_indices r = Some p.
Proof.
  intros Hp. pose proof (Permutation_length sorted) as Hlen.
  rewrite length_seqZ in Hlen.
  assert (p ∈ primitive_indices) as Hin.
  { unfold is_permutation in sorted. rewrite sorted. apply elem_of_seqZ. lia. }
  apply list_elem_of_lookup_1 in Hin as [k Hk].
  pose proof (lookup_lt_Some _ _ _ Hk).
  exists (Z.of_nat k). split; [lia|]. apply load_Some. split; [lia|].
  by rewrite Nat2Z.id.
Qed.

Lemma forest_covers_once :
  covers_once primitive_indices primitives (st_nodes st) (st_begin st).
Proof.
  destruct Hforest as [_ Fleaf Fexists Funique _ _].
  intros p Hp. destruct (permutation_surjective p Hp) as (r & Hr & Hrp).
  destruct (Fexists r Hr) as (x & Hx & Hleaf & Hfirst).
  destruct (Fleaf x Hx Hleaf) as (Hcount & _ & _).
  exists x. split; [done|]. split.
  - split; [done|]. exists 0. rewrite Hcount, Hfirst, Z.add_0_r. split; [lia|done].
  - intros y Hy [Hly (t & Ht & Hcov)].
    destruct (Fleaf y Hy Hly) as (Hcy & _ & _).
    assert (t = 0) as -> by lia. rewrite Z.add_0_r in Hcov.
    apply Funique; [done..|].
    rewrite Hfirst. by apply (permutation_injective _ _ p).
Qed.

Lemma forest_volumes_are_unions :
  volumes_are_unions primitives (st_nodes st) (st_begin st).
Proof.
  destruct Hforest as [_ _ _ _ Finternal _]. destruct Hwin.
  intros x Hx Hnl. destruct (Finternal x Hx Hnl) as (Hf1 & Hf2 & _ & Hvol).
  split; [lia|]. split; [done|]. done.
Qed.

Lemma even_successor f : f mod 2 = 1 → (f + 1) mod 2 = 0.
Proof. intros Hf. rewrite Z.add_mod, Hf by lia. reflexivity. Qed.

Lemma forest_siblings_adjacent :
  2 * primitives < size_modulus →
  st_begin st = 0 → siblings_adjacent primitives (st_nodes st).
Proof.
  intros Hsize Hb. destruct Hforest as [_ _ _ _ Finternal Fparent]. destruct Hwin.
  split.
  - intros x Hx Hnl. destruct (Finternal x ltac:(lia) Hnl) as (_ & _ & Hodd & _).
    done.
  - intros c Hc.
    destruct (Fparent c ltac:(lia)) as (x & Hx & Hnl & Hchild).
    destruct (Finternal x Hx Hnl) as (Hf1 & Hf2 & Hodd & _).
    set (f := first_child_or_primitive (node_at (st_nodes st) x)) in *.
    exists x. unfold parent_of, sibling, is_left_sibling. fold f.
    rewrite (wrap_small c) by lia.
    destruct Hchild as [<-|<-].
    + rewrite Hodd. simpl. rewrite !(wrap_small (f + 1)) by lia.
      rewrite even_successor by done. simpl.
      rewrite (wrap_small (f + 1 - 1)) by lia.
      repeat split; auto; lia.
    + rewrite even_successor by done. simpl.
      rewrite !(wrap_small (f + 1 - 1)) by lia.
      replace (f + 1 - 1) with f by lia. rewrite Hodd. simpl.
      rewrite (wrap_small (f + 1)) by lia.
      repeat split; auto; try lia; discriminate.
Qed.

End ArenaFacts.

(** ** The concrete instance satisfies the assumptions *)

Module ConcreteFacts.
Import Concrete.

#[export] Instance cost_order : ScalarOrder Cost.
Proof.
  split.
  - intros [a|]; simpl; [apply Z.ltb_irrefl|done].
  - intros [a|] [b|] [c|]; simpl; try done.
    rewrite !Z.ltb_lt. lia.
  - intros [a|] [b|] [c|]; simpl; try done.
    rewrite !Z.ltb_ge. lia.
Qed.

#[export] Instance box_areas_finite : FiniteAreas Cost Box.
Proof. split. intros [[[? ?] ?] [[? ?] ?]]. reflexivity. Qed.

#[export] Instance cyl_areas_finite : FiniteAreas Cost Cyl.
Proof. split. intros ?. reflexivity. Qed.

#[export] Instance cyl_cost_symmetric : SymmetricCost Cost Cyl.
Proof.
  split. intros a b. simpl. unfold cyl_extend.
  by rewrite (Z.min_comm (base a)), (Z.max_comm (top a)), (Z.max_comm (radius a)).
Qed.

Definition one_thread (begin end_ : Z) : Z := 1.

Lemma small_build_assumptions (threads : Z → Z → Z) primitives :
  (∀ b e, 1 ≤ threads b e < 1000) → 1 ≤ primitives < 1000 →
  build_assumptions (Scalar:=Cost) 10 threads primitives.
Proof.
  intros Ht HP. split; rewrite ?size_modulus_eq; simpl; try lia.
  - intros b e. specialize (Ht b e). lia.
Qed.

Lemma identity_order_permutation count :
  is_permutation (identity_order count) count.
Proof.
  unfold is_permutation, identity_order, seqZ.
  assert (∀ (l : list nat), map Z.of_nat l = (λ i, Z.of_nat i + 0) <$> l) as ->;
    [|reflexivity].
  induction l as [|x l IH]; [done|]. simpl. rewrite IH. f_equal. lia.
Qed.

End ConcreteFacts.

(** ** The claims *)

Section Arenas.
Context {Scalar V N : Type} `{ScalarOps Scalar} `{!VolumeOps Scalar V}
  `{!NodeOps Scalar V N} `{!ScalarOrder Scalar} `{!FiniteAreas Scalar V}.

Variables search_radius loop_parallel_threshold : Z.
Variable num_threads : Z → Z → Z.
Variable bboxes : list V.
Variable primitive_indices : list Z.
Variable primitives : Z.

Hypothesis assumptions : build_assumptions search_radius num_threads primitives.
Hypothesis bboxes_length : Z.of_nat (length bboxes) = primitives.
Hypothesis sorted : is_permutation primitive_indices primitives.

(** Before the first round the arena holds the leaves. *)
Lemma initial_state_seeded :
  ∃ st, initial_state (N:=N) bboxes primitive_indices primitives = Some st ∧
        seeded bboxes primitive_indices primitives (st_nodes st) ∧
        st_begin st = (2 * primitives - 1) - primitives ∧
        st_end st = 2 * primitives - 1.
Proof.
  destruct assumptions.
  destruct (initial_state_spec (N:=N))
    with (bboxes := bboxes) (primitive_indices := primitive_indices)
         (primitives := primitives) (search_radius := search_radius)
    as (st & Hrun & _ & _ & Hb & He & Hleaves); [first [lia|done]..|].
  exists st. split; [done|]. split; [|split; [lia|done]]. split.
  - intros i Hi. destruct (Hleaves i Hi) as (p & bbox & Hp & Hbox & Hnode).
    destruct (leaf_node_fields (N:=N))
      with (primitives := primitives) (bbox := bbox) (i := i)
      as (Hl & Hc & Hf & Hv); [first [lia|done]..|].
    exists p, bbox, (leaf_node bbox i). done.
  - intros x Hx. unfold initial_state in Hrun.
    rewrite (wrap_small (2 * primitives - 1)) in Hrun by lia.
    rewrite (wrap_small (2 * primitives - 1 - primitives)) in Hrun by lia.
    replace (2 * primitives - 1 - primitives) with (primitives - 1) in Hrun by lia.
    destruct (create_leaves_spec (N:=N))
      with (bboxes := bboxes) (primitive_indices := primitive_indices)
           (primitives := primitives) (search_radius := search_radius)
      as (nodes & Hcr & _ & _ & Hrest); [first [lia|done]..|].
    rewrite Hcr in Hrun. simpl in Hrun. injection Hrun as <-. simpl.
    apply Hrest. lia.
Qed.

(** With enough fuel the round loop of a non-hybrid build ends, with the
    window [[0, 1)], and the arena is one tree over the leaves. *)
Lemma build_rounds_finished (fuel : nat) :
  primitives ≤ Z.of_nat fuel →
  ∃ st, build_rounds (N:=N) search_radius loop_parallel_threshold num_threads
          fuel bboxes primitive_indices primitives = Some st ∧
        st_begin st = 0 ∧ st_end st = 1 ∧
        Z.of_nat (length (st_nodes st)) = 2 * primitives - 1 ∧
        covers_once primitive_indices primitives (st_nodes st) 0 ∧
        volumes_are_unions primitives (st_nodes st) 0 ∧
        siblings_adjacent primitives (st_nodes st).
Proof.
  pose proof assumptions as []. intros Hfuel.
  destruct (build_rounds_spec search_radius loop_parallel_threshold num_threads
              bboxes primitive_indices primitives)
    with (fuel := fuel) as (st & Hrun & Hwin & Hforest & Hb & He);
    [first [lia|done]..|].
  exists st. split; [done|]. split; [done|]. split; [done|].
  split; [by destruct Hwin|]. rewrite <- Hb.
  split; [by eapply forest_covers_once|].
  split; [by eapply forest_volumes_are_unions|].
  eapply forest_siblings_adjacent; [done|done|lia|done].
Qed.

End Arenas.

Section Claims.
Context {Scalar B C Center : Type} `{ScalarOps Scalar}
  `{!VolumeOps Scalar B} `{!VolumeOps Scalar C}
  `{!MortonSorter B Center} `{!MortonSorter C Center}
  `{!ScalarOrder Scalar} `{!FiniteAreas Scalar B} `{!FiniteAreas Scalar C}.

Variable AABB : C → B.
Variables search_radius loop_parallel_threshold : Z.
Variable num_threads : Z → Z → Z.

Local Abbreviation rounds :=
  (build_rounds search_radius loop_parallel_threshold num_threads).
Local Abbreviation box_build :=
  (build (C:=C) search_radius loop_parallel_threshold num_threads).
Local Abbreviation cyl_build :=
  (build_cylinders (B:=B) search_radius loop_parallel_threshold num_threads).
Local Abbreviation cyl_box_build :=
  (build_cylinders_in_box search_radius loop_parallel_threshold num_threads).

(** C1: for every primitive count of at least 1, each non-hybrid build
    (boxes; cylinders with a cylinder or with a box as global bound) runs
    to completion, sets [node_count] to [2 * primitives - 1], stores that
    many nodes, and leaves the round loop with the window [[0, 1)]. The
    node at index 0 is the root of the tree the array holds: it is the
    child of no node, every other node of the array is the child of
    exactly one internal node, and the children of every internal node
    lie inside the array after their parent. *)
Theorem build_node_count_and_root (fuel : nat) (bvh : Bvh B C)
  (global_box : B) (global_cyl : C) (boxes : list B) (cyls : list C)
  (centers : list Center) (primitives : Z) :
  build_assumptions search_radius num_threads primitives →
  Z.of_nat (length boxes) = primitives →
  Z.of_nat (length cyls) = primitives →
  is_permutation (sort_primitives_by_morton_code global_box centers primitives)
    primitives →
  is_permutation (sort_primitives_by_morton_code global_cyl centers primitives)
    primitives →
  primitives ≤ Z.of_nat fuel →
  (∃ st tree,
     rounds fuel boxes
       (sort_primitives_by_morton_code global_box centers primitives)
       primitives = Some st ∧
     st_begin st = 0 ∧ st_end st = 1 ∧
     box_build fuel bvh global_box boxes centers primitives = Some tree ∧
     nodes tree = st_nodes st ∧ node_count tree = 2 * primitives - 1 ∧
     Z.of_nat (length (nodes tree)) = 2 * primitives - 1 ∧
     is_tree primitives (nodes tree)) ∧
  (∃ st tree,
     rounds fuel cyls
       (sort_primitives_by_morton_code global_cyl centers primitives)
       primitives = Some st ∧
     st_begin st = 0 ∧ st_end st = 1 ∧
     cyl_build fuel bvh global_cyl cyls centers primitives = Some tree ∧
     cnodes tree = st_nodes st ∧ node_count tree = 2 * primitives - 1 ∧
     Z.of_nat (length (cnodes tree)) = 2 * primitives - 1 ∧
     is_tree primitives (cnodes tree)) ∧
  (∃ st tree,
     rounds fuel cyls
       (sort_primitives_by_morton_code global_box centers primitives)
       primitives = Some st ∧
     st_begin st = 0 ∧ st_end st = 1 ∧
     cyl_box_build fuel bvh global_box cyls centers primitives = Some tree ∧
     cnodes tree = st_nodes st ∧ node_count tree = 2 * primitives - 1 ∧
     Z.of_nat (length (cnodes tree)) = 2 * primitives - 1 ∧
     is_tree primitives (cnodes tree)).
Proof.
  intros Hassume Hboxes Hcyls Hsort_box Hsort_cyl Hfuel.
  pose proof Hassume as [].
  split; [|split].
  - destruct (build_rounds_finished (N:=Node B) search_radius
                loop_parallel_threshold num_threads boxes _ primitives
                Hassume Hboxes Hsort_box fuel Hfuel)
      as (st & Hrun & Hb & He & Hlen & _).
    destruct (build_rounds_tree (N:=Node B) search_radius
                loop_parallel_threshold num_threads boxes
                (sort_primitives_by_morton_code global_box centers primitives)
                primitives)
      with (fuel := fuel) as (st' & Hrun' & Htree); [first [lia|done]..|].
    assert (st' = st) as -> by congruence.
    exists st. eexists. split; [done|]. split; [done|]. split; [done|].
    unfold build. rewrite Hrun. simpl. split; [done|]. split; [done|].
    split; [apply wrap_small; lia|done].
  - destruct (build_rounds_finished (N:=CustomNode C) search_radius
                loop_parallel_threshold num_threads cyls _ primitives
                Hassume Hcyls Hsort_cyl fuel Hfuel)
      as (st & Hrun & Hb & He & Hlen & _).
    destruct (build_rounds_tree (N:=CustomNode C) search_radius
                loop_parallel_threshold num_threads cyls
                (sort_primitives_by_morton_code global_cyl centers primitives)
                primitives)
      with (fuel := fuel) as (st' & Hrun' & Htree); [first [lia|done]..|].
    assert (st' = st) as -> by congruence.
    exists st. eexists. split; [done|]. split; [done|]. split; [done|].
    unfold build_cylinders. rewrite Hrun. simpl. split; [done|]. split; [done|].
    split; [apply wrap_small; lia|done].
  - destruct (build_rounds_finished (N:=CustomNode C) search_radius
                loop_parallel_threshold num_threads cyls _ primitives
                Hassume Hcyls Hsort_box fuel Hfuel)
      as (st & Hrun & Hb & He & Hlen & _).
    destruct (build_rounds_tree (N:=CustomNode C) search_radius
                loop_parallel_threshold num_threads cyls
                (sort_primitives_by_morton_code global_box centers primitives)
                primitives)
      with (fuel := fuel) as (st' & Hrun' & Htree); [first [lia|done]..|].
    assert (st' = st) as -> by congruence.
    exists st. eexists. split; [done|]. split; [done|]. split; [done|].
    unfold build_cylinders_in_box. rewrite Hrun. simpl.
    split; [done|]. split; [done|].
    split; [apply wrap_small; lia|done].
Qed.

Local Abbreviation hybrid_run :=
  (hybrid_rounds AABB search_radius loop_parallel_threshold num_threads).
Local Abbreviation hybrid_build :=
  (build_hybrid AABB search_radius loop_parallel_threshold num_threads).

(** The arenas of the four builds: each build succeeds and its arena is
    the one in which its round loop ends. *)
Lemma builds_succeed (fuel : nat) (bvh : Bvh B C)
  (global_box : B) (global_cyl : C) (boxes : list B) (cyls : list C)
  (centers : list Center) (primitives iteration : Z) :
  build_assumptions search_radius num_threads primitives →
  Z.of_nat (length boxes) = primitives →
  Z.of_nat (length cyls) = primitives →
  is_permutation (sort_primitives_by_morton_code global_box centers primitives)
    primitives →
  is_permutation (sort_primitives_by_morton_code global_cyl centers primitives)
    primitives →
  primitives ≤ Z.of_nat fuel →
  (∃ st tree,
     rounds fuel boxes
       (sort_primitives_by_morton_code global_box centers primitives)
       primitives = Some st ∧
     box_build fuel bvh global_box boxes centers primitives = Some tree ∧
     nodes tree = st_nodes st ∧
     primitive_indices tree =
       sort_primitives_by_morton_code global_box centers primitives) ∧
  (∃ st tree,
     rounds fuel cyls
       (sort_primitives_by_morton_code global_cyl centers primitives)
       primitives = Some st ∧
     cyl_build fuel bvh global_cyl cyls centers primitives = Some tree ∧
     cnodes tree = st_nodes st ∧
     primitive_indices tree =
       sort_primitives_by_morton_code global_cyl centers primitives) ∧
  (∃ st tree,
     rounds fuel cyls
       (sort_primitives_by_morton_code global_box centers primitives)
       primitives = Some st ∧
     cyl_box_build fuel bvh global_box cyls centers primitives = Some tree ∧
     cnodes tree = st_nodes st ∧
     primitive_indices tree =
       sort_primitives_by_morton_code global_box centers primitives) ∧
  (∃ run tree,
     hybrid_run fuel cyls
       (sort_primitives_by_morton_code global_box centers primitives)
       primitives iteration = Some run ∧
     hybrid_build fuel bvh global_box cyls centers primitives iteration
       = Some tree ∧
     cnodes tree = st_nodes (cylinder_phase run) ∧
     nodes tree = st_nodes (box_phase run) ∧
     primitive_indices tree =
       sort_primitives_by_morton_code global_box centers primitives).
Proof.
  intros Hassume Hboxes Hcyls Hsort_box Hsort_cyl Hfuel.
  split; [|split; [|split]].
  - destruct (build_rounds_finished (N:=Node B) search_radius
                loop_parallel_threshold num_threads boxes _ primitives
                Hassume Hboxes Hsort_box fuel Hfuel) as (st & Hrun & _).
    exists st. eexists. split; [done|]. unfold build. rewrite Hrun. done.
  - destruct (build_rounds_finished (N:=CustomNode C) search_radius
                loop_parallel_threshold num_threads cyls _ primitives
                Hassume Hcyls Hsort_cyl fuel Hfuel) as (st & Hrun & _).
    exists st. eexists. split; [done|]. unfold build_cylinders. rewrite Hrun. done.
  - destruct (build_rounds_finished (N:=CustomNode C) search_radius
                loop_parallel_threshold num_threads cyls _ primitives
                Hassume Hcyls Hsort_box fuel Hfuel) as (st & Hrun & _).
    exists st. eexists. split; [done|]. unfold build_cylinders_in_box.
    rewrite Hrun. done.
  - destruct (hybrid_rounds_spec AABB search_radius loop_parallel_threshold
                num_threads cyls _ primitives Hassume Hcyls Hsort_box fuel
                iteration Hfuel) as (run & Hrun & _).
    exists run. eexists. split; [done|]. unfold build_hybrid. rewrite Hrun. done.
Qed.

(** X17: in the tree of every non-hybrid build, and in the cylinder arena
    that the hybrid build leaves in [bvh.cnodes] (from the start of its
    last window on), every internal node has its two children inside the
    array and holds exactly the volume of its second child extended by the
    volume of its first child. *)
Lemma internal_volumes_are_unions (fuel : nat) (bvh : Bvh B C)
  (global_box : B) (global_cyl : C) (boxes : list B) (cyls : list C)
  (centers : list Center) (primitives iteration : Z) :
  build_assumptions search_radius num_threads primitives →
  Z.of_nat (length boxes) = primitives →
  Z.of_nat (length cyls) = primitives →
  is_permutation (sort_primitives_by_morton_code global_box centers primitives)
    primitives →
  is_permutation (sort_primitives_by_morton_code global_cyl centers primitives)
    primitives →
  primitives ≤ Z.of_nat fuel →
  (∃ tree,
     box_build fuel bvh global_box boxes centers primitives = Some tree ∧
     volumes_are_unions primitives (nodes tree) 0) ∧
  (∃ tree,
     cyl_build fuel bvh global_cyl cyls centers primitives = Some tree ∧
     volumes_are_unions primitives (cnodes tree) 0) ∧
  (∃ tree,
     cyl_box_build fuel bvh global_box cyls centers primitives = Some tree ∧
     volumes_are_unions primitives (cnodes tree) 0) ∧
  (∃ run tree,
     hybrid_run fuel cyls
       (sort_primitives_by_morton_code global_box centers primitives)
       primitives iteration = Some run ∧
     hybrid_build fuel bvh global_box cyls centers primitives iteration
       = Some tree ∧
     volumes_are_unions primitives (cnodes tree)
       (st_begin (cylinder_phase run))).
Proof.
  intros Hassume Hboxes Hcyls Hsort_box Hsort_cyl Hfuel.
  destruct (builds_succeed fuel bvh global_box global_cyl boxes cyls centers
              primitives iteration Hassume Hboxes Hcyls Hsort_box Hsort_cyl Hfuel)
    as ((st1 & t1 & Hr1 & Hb1 & Hn1 & _) & (st2 & t2 & Hr2 & Hb2 & Hn2 & _) &
        (st3 & t3 & Hr3 & Hb3 & Hn3 & _) & (run & t4 & Hr4 & Hb4 & Hn4 & _)).
  split; [|split; [|split]].
  - exists t1. split; [done|]. rewrite Hn1.
    destruct (build_rounds_finished (N:=Node B) search_radius
                loop_parallel_threshold num_threads boxes _ primitives
                Hassume Hboxes Hsort_box fuel Hfuel) as (st & Hrun & H').
    rewrite Hr1 in Hrun. injection Hrun as <-. apply H'.
  - exists t2. split; [done|]. rewrite Hn2.
    destruct (build_rounds_finished (N:=CustomNode C) search_radius
                loop_parallel_threshold num_threads cyls _ primitives
                Hassume Hcyls Hsort_cyl fuel Hfuel) as (st & Hrun & H').
    rewrite Hr2 in Hrun. injection Hrun as <-. apply H'.
  - exists t3. split; [done|]. rewrite Hn3.
    destruct (build_rounds_finished (N:=CustomNode C) search_radius
                loop_parallel_threshold num_threads cyls _ primitives
                Hassume Hcyls Hsort_box fuel Hfuel) as (st & Hrun & H').
    rewrite Hr3 in Hrun. injection Hrun as <-. apply H'.
  - exists run, t4. split; [done|]. split; [done|]. rewrite Hn4.
    destruct (hybrid_rounds_spec AABB search_radius loop_parallel_threshold
                num_threads cyls _ primitives Hassume Hcyls Hsort_box fuel
                iteration Hfuel) as (run' & Hrun & Hwin & Hforest & _).
    rewrite Hr4 in Hrun. injection Hrun as <-.
    by eapply forest_volumes_are_unions.
Qed.

(** X19: every build starts its round loop from [initial_state], which
    seeds exactly one leaf per primitive: leaf number [i], at index
    [node_count - primitives + i], has the volume of primitive
    [primitive_indices[i]], [primitive_count = 1] and
    [first_child_or_primitive = i], and the nodes before the leaves are
    value-initialised. In the arena that holds these leaves when the
    build returns ([bvh.nodes] of the box build, [bvh.cnodes] of the
    cylinder builds and of the hybrid build) every primitive is covered
    by exactly one leaf. *)
Theorem leaves_seeded_and_cover_primitives (fuel : nat) (bvh : Bvh B C)
  (global_box : B) (global_cyl : C) (boxes : list B) (cyls : list C)
  (centers : list Center) (primitives iteration : Z) :
  build_assumptions search_radius num_threads primitives →
  Z.of_nat (length boxes) = primitives →
  Z.of_nat (length cyls) = primitives →
  is_permutation (sort_primitives_by_morton_code global_box centers primitives)
    primitives →
  is_permutation (sort_primitives_by_morton_code global_cyl centers primitives)
    primitives →
  primitives ≤ Z.of_nat fuel →
  let box_order := sort_primitives_by_morton_code global_box centers primitives in
  let cyl_order := sort_primitives_by_morton_code global_cyl centers primitives in
  (∃ st : BuildState (Node B),
     initial_state boxes box_order primitives = Some st ∧
     seeded boxes box_order primitives (st_nodes st)) ∧
  (∃ st : BuildState (CustomNode C),
     initial_state cyls cyl_order primitives = Some st ∧
     seeded cyls cyl_order primitives (st_nodes st)) ∧
  (∃ st : BuildState (CustomNode C),
     initial_state cyls box_order primitives = Some st ∧
     seeded cyls box_order primitives (st_nodes st)) ∧
  (∃ tree,
     box_build fuel bvh global_box boxes centers primitives = Some tree ∧
     covers_once (primitive_indices tree) primitives (nodes tree) 0) ∧
  (∃ tree,
     cyl_build fuel bvh global_cyl cyls centers primitives = Some tree ∧
     covers_once (primitive_indices tree) primitives (cnodes tree) 0) ∧
  (∃ tree,
     cyl_box_build fuel bvh global_box cyls centers primitives = Some tree ∧
     covers_once (primitive_indices tree) primitives (cnodes tree) 0) ∧
  (∃ run tree,
     hybrid_run fuel cyls box_order primitives iteration = Some run ∧
     hybrid_build fuel bvh global_box cyls centers primitives iteration
       = Some tree ∧
     covers_once (primitive_indices tree) primitives (cnodes tree)
       (st_begin (cylinder_phase run))).
Proof.
  intros Hassume Hboxes Hcyls Hsort_box Hsort_cyl Hfuel box_order cyl_order.
  destruct (builds_succeed fuel bvh global_box global_cyl boxes cyls centers
              primitives iteration Hassume Hboxes Hcyls Hsort_box Hsort_cyl Hfuel)
    as ((st1 & t1 & Hr1 & Hb1 & Hn1 & Hp1) & (st2 & t2 & Hr2 & Hb2 & Hn2 & Hp2) &
        (st3 & t3 & Hr3 & Hb3 & Hn3 & Hp3) & (run & t4 & Hr4 & Hb4 & Hn4 & _ & Hp4)).
  split; [|split; [|split; [|split; [|split; [|split]]]]].
  - destruct (initial_state_seeded (N:=Node B) search_radius num_threads boxes
                box_order primitives Hassume Hboxes Hsort_box)
      as (st & Hrun & Hseed & _). by exists st.
  - destruct (initial_state_seeded (N:=CustomNode C) search_radius num_threads
                cyls cyl_order primitives Hassume Hcyls Hsort_cyl)
      as (st & Hrun & Hseed & _). by exists st.
  - destruct (initial_state_seeded (N:=CustomNode C) search_radius num_threads
                cyls box_order primitives Hassume Hcyls Hsort_box)
      as (st & Hrun & Hseed & _). by exists st.
  - exists t1. split; [done|]. rewrite Hn1, Hp1.
    destruct (build_rounds_finished (N:=Node B) search_radius
                loop_parallel_threshold num_threads boxes _ primitives
                Hassume Hboxes Hsort_box fuel Hfuel) as (st & Hrun & H').
    rewrite Hr1 in Hrun. injection Hrun as <-. apply H'.
  - exists t2. split; [done|]. rewrite Hn2, Hp2.
    destruct (build_rounds_finished (N:=CustomNode C) search_radius
                loop_parallel_threshold num_threads cyls _ primitives
                Hassume Hcyls Hsort_cyl fuel Hfuel) as (st & Hrun & H').
    rewrite Hr2 in Hrun. injection Hrun as <-. apply H'.
  - exists t3. split; [done|]. rewrite Hn3, Hp3.
    destruct (build_rounds_finished (N:=CustomNode C) search_radius
                loop_parallel_threshold num_threads cyls _ primitives
                Hassume Hcyls Hsort_box fuel Hfuel) as (st & Hrun & H').
    rewrite Hr3 in Hrun. injection Hrun as <-. apply H'.
  - exists run, t4. split; [done|]. split; [done|]. rewrite Hn4, Hp4.
    destruct (hybrid_rounds_spec AABB search_radius loop_parallel_threshold
                num_threads cyls _ primitives Hassume Hcyls Hsort_box fuel
                iteration Hfuel) as (run' & Hrun & Hwin & Hforest & _).
    rewrite Hr4 in Hrun. injection Hrun as <-.
    by eapply forest_covers_once.
Qed.

(** X18: in the tree of every non-hybrid build the first child of every
    internal node is odd, and [Bvh::sibling] maps every node but the root
    to the other child of its parent: it is an involution there, and
    [is_left_sibling] holds exactly of first children. *)
Lemma non_hybrid_siblings_adjacent (fuel : nat) (bvh : Bvh B C)
  (global_box : B) (global_cyl : C) (boxes : list B) (cyls : list C)
  (centers : list Center) (primitives : Z) :
  build_assumptions search_radius num_threads primitives →
  Z.of_nat (length boxes) = primitives →
  Z.of_nat (length cyls) = primitives →
  is_permutation (sort_primitives_by_morton_code global_box centers primitives)
    primitives →
  is_permutation (sort_primitives_by_morton_code global_cyl centers primitives)
    primitives →
  primitives ≤ Z.of_nat fuel →
  (∃ tree,
     box_build fuel bvh global_box boxes centers primitives = Some tree ∧
     siblings_adjacent primitives (nodes tree)) ∧
  (∃ tree,
     cyl_build fuel bvh global_cyl cyls centers primitives = Some tree ∧
     siblings_adjacent primitives (cnodes tree)) ∧
  (∃ tree,
     cyl_box_build fuel bvh global_box cyls centers primitives = Some tree ∧
     siblings_adjacent primitives (cnodes tree)).
Proof.
  intros Hassume Hboxes Hcyls Hsort_box Hsort_cyl Hfuel.
  destruct (builds_succeed fuel bvh global_box global_cyl boxes cyls centers
              primitives 0 Hassume Hboxes Hcyls Hsort_box Hsort_cyl Hfuel)
    as ((st1 & t1 & Hr1 & Hb1 & Hn1 & _) & (st2 & t2 & Hr2 & Hb2 & Hn2 & _) &
        (st3 & t3 & Hr3 & Hb3 & Hn3 & _) & _).
  split; [|split].
  - exists t1. split; [done|]. rewrite Hn1.
    destruct (build_rounds_finished (N:=Node B) search_radius
                loop_parallel_threshold num_threads boxes _ primitives
                Hassume Hboxes Hsort_box fuel Hfuel) as (st & Hrun & H').
    rewrite Hr1 in Hrun. injection Hrun as <-. apply H'.
  - exists t2. split; [done|]. rewrite Hn2.
    destruct (build_rounds_finished (N:=CustomNode C) search_radius
                loop_parallel_threshold num_threads cyls _ primitives
                Hassume Hcyls Hsort_cyl fuel Hfuel) as (st & Hrun & H').
    rewrite Hr2 in Hrun. injection Hrun as <-. apply H'.
  - exists t3. split; [done|]. rewrite Hn3.
    destruct (build_rounds_finished (N:=CustomNode C) search_radius
                loop_parallel_threshold num_threads cyls _ primitives
                Hassume Hcyls Hsort_box fuel Hfuel) as (st & Hrun & H').
    rewrite Hr3 in Hrun. injection Hrun as <-. apply H'.
Qed.

(** C8: the tree does not depend on the team of threads. For fixed
    primitives, order, search radius and global bound, each of the four
    build overloads returns the same result under any two settings of
    [loop_parallel_threshold] and of the team size chosen for each
    parallel region (one thread included): a round depends on the team
    only through the cut of the window into contiguous chunks, and the
    neighbors found do not depend on the cut. *)
Theorem builds_independent_of_threads (fuel : nat) (bvh : Bvh B C)
  (global_box : B) (global_cyl : C) (boxes : list B) (cyls : list C)
  (centers : list Center) (primitives iteration : Z)
  (threshold' : Z) (threads' : Z → Z → Z) :
  build_assumptions search_radius num_threads primitives →
  (∀ b e, 1 ≤ threads' b e < size_modulus) →
  Z.of_nat (length boxes) = primitives →
  Z.of_nat (length cyls) = primitives →
  is_permutation (sort_primitives_by_morton_code global_box centers primitives)
    primitives →
  is_permutation (sort_primitives_by_morton_code global_cyl centers primitives)
    primitives →
  box_build fuel bvh global_box boxes centers primitives =
    build (C:=C) search_radius threshold' threads' fuel bvh global_box boxes
      centers primitives ∧
  cyl_build fuel bvh global_cyl cyls centers primitives =
    build_cylinders (B:=B) search_radius threshold' threads' fuel bvh
      global_cyl cyls centers primitives ∧
  cyl_box_build fuel bvh global_box cyls centers primitives =
    build_cylinders_in_box search_radius threshold' threads' fuel bvh
      global_box cyls centers primitives ∧
  hybrid_build fuel bvh global_box cyls centers primitives iteration =
    build_hybrid AABB search_radius threshold' threads' fuel bvh global_box
      cyls centers primitives iteration.
Proof.
  intros Hassume Hthreads' Hboxes Hcyls Hsort_box Hsort_cyl.
  pose proof Hassume as [].
  assert (∀ (V N : Type) `{!VolumeOps Scalar V} `{!NodeOps Scalar V N}
            `{!FiniteAreas Scalar V} (volumes : list V) (order : list Z),
            Z.of_nat (length volumes) = primitives →
            is_permutation order primitives →
            build_rounds (N:=N) search_radius loop_parallel_threshold
              num_threads fuel volumes order primitives =
            build_rounds (N:=N) search_radius threshold' threads' fuel
              volumes order primitives) as Hrounds.
  { intros V N ? ? ? volumes order Hlen Hsorted. unfold build_rounds.
    destruct (initial_state_spec (N:=N))
      with (bboxes := volumes) (primitive_indices := order)
           (primitives := primitives) (search_radius := search_radius)
      as (st0 & -> & Hwin0 & _); [first [lia|done]..|].
    simpl. rewrite (wrap_small (2 * primitives - 1)) by lia.
    by apply round_loop_threads. }
  split; [|split; [|split]].
  - unfold build. by rewrite (Hrounds B (Node B)).
  - unfold build_cylinders. by rewrite (Hrounds C (CustomNode C)).
  - unfold build_cylinders_in_box. by rewrite (Hrounds C (CustomNode C)).
  - unfold build_hybrid.
    by rewrite (hybrid_rounds_threads AABB search_radius loop_parallel_threshold
                  num_threads cyls _ primitives Hassume Hcyls Hsort_box fuel
                  iteration threshold' threads' Hthreads').
Qed.

End Claims.

(** ** One call of [cluster] *)

Section RoundClaims.
Context {Scalar V N : Type} `{ScalarOps Scalar} `{!VolumeOps Scalar V}
  `{!NodeOps Scalar V N} `{!ScalarOrder Scalar} `{!FiniteAreas Scalar V}.

Variables search_radius thread_count : Z.
Variables (input output : list N) (aux : list Z).
Variables neighbors merged_index begin end_ previous_end : Z.

Local Abbreviation nn := (direct_neighbor search_radius input begin end_).
Local Abbreviation run_cluster :=
  (cluster search_radius thread_count input output aux neighbors merged_index
     begin end_ previous_end).

Hypothesis call :
  cluster_assumptions search_radius thread_count input output aux
    neighbors merged_index begin end_ previous_end.

Lemma call_neighbors_valid i :
  begin ≤ i < end_ → begin ≤ nn i < end_ ∧ nn i ≠ i.
Proof. destruct call. intros Hi. apply neighbors_valid; [done|lia|lia|done]. Qed.

Lemma call_merges :
  1 ≤ merged_count nn begin end_ ≤ begin ∧
  2 * merged_count nn begin end_ ≤ end_ - begin.
Proof.
  destruct call.
  pose proof (merged_count_positive search_radius input begin end_
                ltac:(done) ltac:(lia) ltac:(lia)).
  pose proof (merged_count_half nn begin end_ ltac:(lia) call_neighbors_valid).
  lia.
Qed.

(** Exactly one member of a mutual pair is flagged: the lower one. *)
Lemma call_pair_owner i :
  begin ≤ i < end_ → nn (nn i) = i →
  owner nn (Z.min i (nn i)) = true ∧ owner nn (Z.max i (nn i)) = false.
Proof.
  intros Hi Hm. destruct (call_neighbors_valid i Hi) as [_ Hne].
  unfold owner. destruct (Z.lt_ge_cases i (nn i)).
  - rewrite Z.min_l, Z.max_r by lia. rewrite Hm.
    split; [apply andb_true_intro; split; [apply Z.ltb_lt|apply Z.eqb_eq]; lia|].
    apply andb_false_intro1. apply Z.ltb_ge. lia.
  - rewrite Z.min_r, Z.max_l by lia. rewrite Hm.
    split; [apply andb_true_intro; split; [apply Z.ltb_lt|apply Z.eqb_eq]; lia|].
    apply andb_false_intro1. apply Z.ltb_ge. lia.
Qed.

(** What one call of [cluster] computes, in the words of the
    relocation. *)
Lemma call_spec :
  ∃ out' aux',
    run_cluster
    = Some (out', aux', (next_begin nn begin end_, next_end nn begin end_)) ∧
    (∀ i, begin ≤ i < end_ → load aux' (neighbors + i) = Some (nn i)) ∧
    (∀ i, begin ≤ i < end_ →
          load aux' (merged_index + i) = Some (rank nn begin i)) ∧
    (∀ i, begin ≤ i < end_ → mutual nn i = false →
          load out' (slot nn begin end_ i) = Some (node_at input i)) ∧
    (∀ i, begin ≤ i < end_ → owner nn i = true →
          load out' (slot nn begin end_ (nn i)) =
            Some (parent_node (node_at output (slot nn begin end_ (nn i)))
                    (node_at input i) (node_at input (nn i))
                    (first_child_of nn begin end_ i)) ∧
          load out' (first_child_of nn begin end_ i) = Some (node_at input i) ∧
          load out' (first_child_of nn begin end_ i + 1) =
            Some (node_at input (nn i))).
Proof.
  pose proof call as [].
  destruct (cluster_spec search_radius thread_count input output aux
              neighbors merged_index begin end_ previous_end)
    as (out' & aux' & Hrun & _ & _ & Hnb & Hrank & _ & Hsurv & Hpar & _);
    [first [lia|done|apply call_neighbors_valid]..|].
  exists out', aux'. done.
Qed.

(** The parent of the pair owned by [i]: where it is and what it holds. *)
Lemma call_parent out' i :
  begin ≤ i < end_ → owner nn i = true →
  load out' (slot nn begin end_ (nn i)) =
    Some (parent_node (node_at output (slot nn begin end_ (nn i)))
            (node_at input i) (node_at input (nn i))
            (first_child_of nn begin end_ i)) →
  let x := slot nn begin end_ (nn i) in
  let c := first_child_of nn begin end_ i in
  next_begin nn begin end_ ≤ x < next_end nn begin end_ ∧
  next_end nn begin end_ ≤ c ∧ c + 1 < end_ ∧ c mod 2 = end_ mod 2 ∧
  is_leaf (node_at out' x) = false ∧
  first_child_or_primitive (node_at out' x) = c ∧
  primitive_count (node_at out' x) = primitive_count (node_at output x) ∧
  to_bounding_box (node_at out' x) =
    extend (to_bounding_box (node_at input (nn i)))
           (to_bounding_box (node_at input i)).
Proof.
  pose proof call as []. pose proof call_merges as Hmc.
  intros Hi Ho Hload x c.
  assert (begin ≤ end_) as Hbe by lia.
  destruct (call_neighbors_valid i Hi) as [Hin _].
  pose proof (partner_not_owner nn i Ho) as Hpn.
  pose proof (slot_range nn begin end_ (nn i) Hin Hpn) as Hslot.
  pose proof (first_child_range nn begin end_ i Hi Ho) as Hchild.
  assert (c mod 2 = end_ mod 2) as Hparity.
  { unfold c, first_child_of, next_end.
    replace (end_ - 2 * merged_count nn begin end_ + 2 * (rank nn begin i - 1))
      with (end_ + (rank nn begin i - 1 - merged_count nn begin end_) * 2) by lia.
    apply Z_mod_plus_full. }
  assert (node_at out' x =
          parent_node (node_at output x) (node_at input i)
            (node_at input (nn i)) c) as ->.
  { unfold node_at at 1. fold x in Hload. by rewrite Hload. }
  rewrite parent_node_is_leaf, parent_node_first_child,
    parent_node_primitive_count, parent_node_volume.
  fold c in Hchild. fold x in Hslot.
  rewrite to_index_small by (unfold next_begin, next_end in *; lia).
  repeat split; first [done|lia].
Qed.

(** C3: in a round over the window [[begin, end)], with [nn i] the
    nearest neighbor stored in [neighbors[i]]: the merge flag of [i] is 1
    exactly when [i < nn i] and [nn (nn i) = i], so of a mutual pair only
    the lower member is flagged and the merged count, the last prefix sum,
    is the number of flagged nodes; a node whose neighbor chose it back is
    merged: the next window has a parent whose children are unchanged
    copies of the lower and the upper member; a node without a mutual
    match is copied to the next window; and every node of the next window
    is such a survivor or such a parent. *)
Theorem mutual_nearest_neighbors_merge :
  ∃ flags out' aux',
    (search_neighbors search_radius input neighbors begin end_ thread_count aux
       ≫= mark_merged neighbors merged_index begin end_) = Some flags ∧
    run_cluster
    = Some (out', aux', (next_begin nn begin end_, next_end nn begin end_)) ∧
    (∀ i, begin ≤ i < end_ →
       load aux' (neighbors + i) = Some (nn i) ∧
       begin ≤ nn i < end_ ∧ nn i ≠ i ∧
       load flags (merged_index + i) =
         Some (if (i <? nn i) && (nn (nn i) =? i) then 1 else 0)) ∧
    (∀ i, begin ≤ i < end_ → nn (nn i) = i →
       owner nn (Z.min i (nn i)) = true ∧ owner nn (Z.max i (nn i)) = false) ∧
    load aux' (merged_index + (end_ - 1)) = Some (merged_count nn begin end_) ∧
    (∀ i, begin ≤ i < end_ → nn (nn i) = i →
       ∃ x c,
         next_begin nn begin end_ ≤ x < next_end nn begin end_ ∧
         next_end nn begin end_ ≤ c ∧ c + 1 < end_ ∧
         is_leaf (node_at out' x) = false ∧
         first_child_or_primitive (node_at out' x) = c ∧
         to_bounding_box (node_at out' x) =
           extend (to_bounding_box (node_at input (Z.max i (nn i))))
                  (to_bounding_box (node_at input (Z.min i (nn i)))) ∧
         load out' c = Some (node_at input (Z.min i (nn i))) ∧
         load out' (c + 1) = Some (node_at input (Z.max i (nn i)))) ∧
    (∀ i, begin ≤ i < end_ → nn (nn i) ≠ i →
       ∃ x, next_begin nn begin end_ ≤ x < next_end nn begin end_ ∧
            load out' x = Some (node_at input i)) ∧
    (∀ x, next_begin nn begin end_ ≤ x < next_end nn begin end_ →
       (∃ i, begin ≤ i < end_ ∧ nn (nn i) ≠ i ∧
             load out' x = Some (node_at input i)) ∨
       (∃ i, begin ≤ i < end_ ∧ i < nn i ∧ nn (nn i) = i ∧
             load out' x =
               Some (parent_node (node_at output x) (node_at input i)
                       (node_at input (nn i))
                       (first_child_of nn begin end_ i)))).
Proof.
  pose proof call as []. pose proof call_merges as Hmc.
  assert (begin ≤ end_) as Hbe by lia.
  destruct call_spec as (out' & aux' & Hrun & Hnb & Hrank & Hsurv & Hpar).
  destruct (search_neighbors_spec search_radius input begin end_)
    with (neighbors := neighbors) (thread_count := thread_count) (aux := aux)
    as (aux1 & Hsearch & Hsweep & Hlen1); [first [lia|done]..|].
  destruct (store_sweep nn neighbors begin end_ aux)
    as (aux1' & Hsweep' & _ & Hnb1 & _); [lia..|].
  assert (aux1' = aux1) as -> by congruence.
  destruct (mark_merged_spec nn neighbors merged_index begin end_ aux1)
    as (flags & Hmark & _ & Hflags & _);
    [first [lia|done|intros i Hi; by apply call_neighbors_valid]..|].
  exists flags, out', aux'.
  split; [by rewrite Hsearch|]. split; [done|].
  split; [|split; [|split; [|split; [|split]]]].
  - intros i Hi. destruct (call_neighbors_valid i Hi).
    rewrite Hnb, Hflags by done. done.
  - apply call_pair_owner.
  - rewrite Z.add_sub_assoc, <- Z.add_sub_assoc. rewrite Hrank by lia.
    unfold rank, merged_count. do 2 f_equal. lia.
  - intros i Hi Hm.
    destruct (call_pair_owner i Hi Hm) as [Hlow _].
    destruct (call_neighbors_valid i Hi) as [Hin Hne].
    assert (begin ≤ Z.min i (nn i) < end_) as Hlo by lia.
    assert (nn (Z.min i (nn i)) = Z.max i (nn i)) as Hpartner.
    { destruct (Z.lt_ge_cases i (nn i)).
      - rewrite Z.min_l, Z.max_r by lia. done.
      - rewrite Z.min_r, Z.max_l by lia. done. }
    destruct (Hpar _ Hlo Hlow) as (Hparent & Hfirst & Hsecond).
    destruct (call_parent out' _ Hlo Hlow Hparent)
      as (Hx & Hc & Hc' & _ & Hleaf & Hchild & _ & Hvolume).
    rewrite Hpartner in *.
    exists (slot nn begin end_ (Z.max i (nn i))),
      (first_child_of nn begin end_ (Z.min i (nn i))).
    done.
  - intros i Hi Hm. exists (slot nn begin end_ i).
    assert (mutual nn i = false) as Hmf by (by apply Z.eqb_neq).
    assert (owner nn i = false) as Hof
      by (unfold owner; fold (mutual nn i); rewrite Hmf; apply andb_false_r).
    split; [by apply slot_range|]. by apply Hsurv.
  - intros x Hx.
    destruct (slot_surjective nn begin end_ Hbe x Hx) as (i & Hi & Ho & Hs).
    destruct (mutual nn i) eqn:Hm.
    + right. exists (nn i).
      pose proof (partner_owner nn begin end_ call_neighbors_valid i Hi Hm Ho)
        as Hpo.
      destruct (call_neighbors_valid i Hi) as [Hin _].
      apply mutual_spec in Hm.
      destruct (Hpar _ Hin Hpo) as (Hparent & _).
      rewrite Hm, Hs in Hparent.
      apply owner_spec in Hpo. rewrite Hm in Hpo. rewrite Hm.
      split; [done|]. split; [lia|]. split; [done|]. done.
    + left. exists i. split; [done|]. split; [by apply Z.eqb_neq|].
      rewrite <- Hs. by apply Hsurv.
Qed.

(** C4, as amended: a round over the window [[begin, end)] that merges
    [merged_count] pairs returns the window
    [[unmerged_begin, children_begin)] with
    [unmerged_count = (end - begin) - merged_count] (the survivors and the
    new parents), [children_count = 2 * merged_count],
    [children_begin = end - children_count] and
    [unmerged_begin = end - (children_count + unmerged_count)
                    = begin - merged_count].
    A survivor is written to [unmerged_begin] plus the number of unflagged
    nodes of the window before it, and the parent of a pair to
    [unmerged_begin] plus the number of unflagged nodes before the upper
    member of the pair. The two members are copied unchanged to
    [first_child = children_begin + 2 * pair_rank] and [first_child + 1],
    where [pair_rank] is the number of flagged nodes before the lower
    member, and the parent gets [first_child_or_primitive = first_child],
    [is_leaf = false], the union of the two volumes, and keeps the
    [primitive_count] its slot held. *)
Theorem round_output_layout :
  let merged_count := merged_count nn begin end_ in
  let unmerged_count := (end_ - begin) - merged_count in
  let children_count := 2 * merged_count in
  let children_begin := end_ - children_count in
  let unmerged_begin := end_ - (children_count + unmerged_count) in
  ∃ out' aux',
    run_cluster = Some (out', aux', (unmerged_begin, children_begin)) ∧
    load aux' (merged_index + (end_ - 1)) = Some merged_count ∧
    1 ≤ merged_count ∧ unmerged_begin = begin - merged_count ∧
    0 ≤ unmerged_begin ∧ unmerged_begin < children_begin ∧
    (∀ i, begin ≤ i < end_ → nn (nn i) ≠ i →
       let x := unmerged_begin + unflagged_below nn begin i in
       unmerged_begin ≤ x < children_begin ∧
       load out' x = Some (node_at input i)) ∧
    (∀ i, begin ≤ i < end_ → i < nn i → nn (nn i) = i →
       let pair_rank := count_owners nn begin i in
       let first_child := children_begin + 2 * pair_rank in
       let x := unmerged_begin + unflagged_below nn begin (nn i) in
       0 ≤ pair_rank < merged_count ∧
       unmerged_begin ≤ x < children_begin ∧
       load out' first_child = Some (node_at input i) ∧
       load out' (first_child + 1) = Some (node_at input (nn i)) ∧
       is_leaf (node_at out' x) = false ∧
       first_child_or_primitive (node_at out' x) = first_child ∧
       primitive_count (node_at out' x) = primitive_count (node_at output x) ∧
       to_bounding_box (node_at out' x) =
         extend (to_bounding_box (node_at input (nn i)))
                (to_bounding_box (node_at input i))).
Proof.
  intros mc unmerged_count children_count children_begin unmerged_begin.
  pose proof call as []. pose proof call_merges as Hmc. fold mc in Hmc.
  assert (begin ≤ end_) as Hbe by lia.
  destruct call_spec as (out' & aux' & Hrun & Hnb & Hrank & Hsurv & Hpar).
  assert (unmerged_begin = next_begin nn begin end_) as Hub
    by (unfold unmerged_begin, children_count, unmerged_count, next_begin; lia).
  assert (children_begin = next_end nn begin end_) as Hcb
    by (unfold children_begin, children_count, next_end; lia).
  exists out', aux'. rewrite Hub, Hcb.
  split; [done|]. split; [|split; [lia|split; [done|]]].
  { rewrite Z.add_sub_assoc, <- Z.add_sub_assoc. rewrite Hrank by lia.
    unfold rank, mc, merged_count. do 2 f_equal. lia. }
  split; [unfold next_begin; lia|]. split; [unfold next_begin, next_end; lia|].
  split.
  - intros i Hi Hm x.
    assert (mutual nn i = false) as Hmf by (by apply Z.eqb_neq).
    assert (owner nn i = false) as Hof
      by (unfold owner; fold (mutual nn i); rewrite Hmf; apply andb_false_r).
    assert (x = slot nn begin end_ i) as ->
      by (unfold x; rewrite slot_unflagged by (done || lia); done).
    split; [by apply slot_range|]. by apply Hsurv.
  - intros i Hi Hlt Hm pair_rank first_child x.
    assert (owner nn i = true) as Ho by (apply owner_spec; done).
    destruct (call_neighbors_valid i Hi) as [Hin _].
    pose proof (partner_not_owner nn i Ho) as Hpn.
    assert (x = slot nn begin end_ (nn i)) as ->
      by (unfold x; rewrite slot_unflagged by (done || lia); done).
    assert (first_child = first_child_of nn begin end_ i) as Hfc.
    { unfold first_child, first_child_of. rewrite rank_owner, Ho by lia.
      fold pair_rank. lia. }
    rewrite Hfc.
    destruct (Hpar i Hi Ho) as (Hparent & Hfirst & Hsecond).
    destruct (call_parent out' i Hi Ho Hparent)
      as (Hx & Hc & Hc' & _ & Hleaf & Hchild & Hcount & Hvolume).
    split; [|done].
    pose proof (count_owners_range nn begin i).
    unfold first_child, first_child_of in Hfc. rewrite rank_owner, Ho in Hfc by lia.
    fold pair_rank in Hfc.
    pose proof (count_owners_mono nn begin (i + 1) end_ ltac:(lia)) as Hmono.
    rewrite count_owners_last, Ho in Hmono by lia.
    fold pair_rank in Hmono. unfold mc, merged_count. lia.
Qed.

End RoundClaims.

(** ** The neighbor search against its reference *)

Section SearchClaim.
Context {Scalar V N : Type} `{ScalarOps Scalar} `{!VolumeOps Scalar V}
  `{!NodeOps Scalar V N} `{!FiniteAreas Scalar V} `{!SymmetricCost Scalar V}.

(** C7: the neighbor that the search stores for each node [i] of the
    window, reading the costs of the lower indices from the sliding
    distance matrix, is the one the cache-free reference finds by
    evaluating [half_area(union(volume(i), volume(j)))] for every [j] of
    [[max(begin, i - R), min(end, i + R + 1))] other than [i], lowest
    index first (the backward part, then the forward part), keeping the
    first [j] of minimal cost; a node without a candidate gets
    [size_t(-1)]. *)
Theorem cached_search_matches_reference (search_radius thread_count : Z)
  (input : list N) (aux : list Z) (neighbors begin end_ : Z) :
  0 ≤ search_radius →
  (search_radius + 1) * search_radius < size_modulus →
  1 ≤ thread_count < size_modulus →
  0 ≤ begin ≤ end_ ∧ end_ ≤ Z.of_nat (length input) →
  end_ + search_radius + 1 < size_modulus →
  0 ≤ neighbors ∧ neighbors + end_ ≤ Z.of_nat (length aux) →
  ∃ aux',
    search_neighbors search_radius input neighbors begin end_ thread_count aux
      = Some aux' ∧
    ∀ i, begin ≤ i < end_ →
      load aux' (neighbors + i) =
      Some (default SIZE_MAX
              (reference_neighbor search_radius input begin end_ i)).
Proof.
  intros Hradius Hcache Hthreads Hwindow Hsizes Harrays.
  destruct (search_neighbors_spec search_radius input begin end_)
    with (neighbors := neighbors) (thread_count := thread_count) (aux := aux)
    as (aux1 & Hsearch & Hsweep & _); [first [lia|done]..|].
  destruct (store_sweep (direct_neighbor search_radius input begin end_)
              neighbors begin end_ aux)
    as (aux1' & Hsweep' & _ & Hstored & _); [lia..|].
  assert (aux1' = aux1) as -> by congruence.
  exists aux1. split; [done|]. intros i Hi.
  rewrite Hstored by done. f_equal.
  apply direct_neighbor_reference; first [lia|done].
Qed.

End SearchClaim.

(** * Further properties of the code *)

(** ** Index arithmetic *)

(** X1: on every index from 1 to [size_t(-1) - 1], [Bvh::sibling] pairs
    each odd index with the even index after it: it returns [index + 1]
    where [is_left_sibling] holds and [index - 1] where it does not, never
    0 and never the index itself, flips [is_left_sibling], and is its own
    inverse. *)
Theorem sibling_pairs_odd_with_next_even (index : Z) :
  1 ≤ index < SIZE_MAX →
  sibling index = (if is_left_sibling index then index + 1 else index - 1) ∧
  1 ≤ sibling index < SIZE_MAX ∧
  sibling index ≠ index ∧
  is_left_sibling (sibling index) = negb (is_left_sibling index) ∧
  sibling (sibling index) = index.
Proof.
  unfold SIZE_MAX. rewrite size_modulus_eq. intros Hindex.
  assert (∀ z, 0 ≤ z < 18446744073709551616 → wrap z = z) as Hwrap
    by (intros z Hz; apply wrap_small; rewrite size_modulus_eq; lia).
  unfold sibling, is_left_sibling. rewrite (Hwrap index) by lia.
  pose proof (Z.mod_pos_bound index 2 ltac:(lia)) as Hbound.
  pose proof (Z.div_mod index 2 ltac:(lia)) as Hdiv.
  destruct (Z.eqb_spec (index mod 2) 1) as [Hodd|Heven].
  - simpl. rewrite !(Hwrap (index + 1)) by lia.
    replace ((index + 1) mod 2) with 0
      by (replace (index + 1) with (0 + (index / 2 + 1) * 2) by lia;
          by rewrite Z_mod_plus_full).
    simpl. rewrite (Hwrap (index + 1 - 1)) by lia. repeat split; lia.
  - simpl. rewrite !(Hwrap (index - 1)) by lia.
    replace ((index - 1) mod 2) with 1
      by (replace (index - 1) with (1 + (index / 2 - 1) * 2) by lia;
          by rewrite Z_mod_plus_full).
    simpl. rewrite (Hwrap (index - 1 + 1)) by lia. repeat split; lia.
Qed.

(** X2: [search_range(i, begin, end)] for a node [i] of the window is the
    part of the window within [search_radius] of [i]: it starts at
    [max(begin, i - search_radius)], without wrapping below 0, ends at
    [min(i + search_radius + 1, end)], contains [i], lies inside the
    window and has at most [2 * search_radius + 1] indices. *)
Theorem search_range_is_clamped_neighborhood (search_radius i begin end_ : Z) :
  0 ≤ search_radius → 0 ≤ begin ≤ i ∧ i < end_ →
  end_ + search_radius + 1 < size_modulus →
  search_range search_radius i begin end_ =
    (Z.max begin (i - search_radius), Z.min (i + search_radius + 1) end_) ∧
  begin ≤ (search_range search_radius i begin end_).1 ≤ i ∧
  i < (search_range search_radius i begin end_).2 ≤ end_ ∧
  (search_range search_radius i begin end_).2 -
    (search_range search_radius i begin end_).1 ≤ 2 * search_radius + 1.
Proof.
  intros Hradius Hwindow Hsizes.
  assert (search_range search_radius i begin end_ =
          (Z.max begin (i - search_radius), Z.min (i + search_radius + 1) end_))
    as ->.
  { unfold search_range.
    rewrite (wrap_small (begin + search_radius)) by lia.
    rewrite (wrap_small (i + search_radius + 1)) by lia.
    destruct (Z.ltb_spec (begin + search_radius) i).
    - rewrite wrap_small by lia. f_equal. lia.
    - f_equal. lia. }
  simpl. repeat split; lia.
Qed.

(** X3: the chunks of a team of [thread_count] threads tile the window in
    thread order: the first starts at [begin], each one starts where the
    one before it ends, the last ends at [end], and every chunk but the
    last has [(end - begin) / thread_count] nodes; the last one takes the
    remainder too. A team larger than the window leaves all the work to
    its last thread. *)
Theorem chunks_tile_the_window (begin end_ thread_count : Z) :
  0 ≤ begin ≤ end_ ∧ end_ < size_modulus →
  1 ≤ thread_count < size_modulus →
  let chunk_size := (end_ - begin) / thread_count in
  (chunk begin end_ thread_count 0).1 = begin ∧
  (chunk begin end_ thread_count (thread_count - 1)).2 = end_ ∧
  (∀ thread_id, 0 ≤ thread_id < thread_count - 1 →
     (chunk begin end_ thread_count thread_id).2 =
     (chunk begin end_ thread_count (thread_id + 1)).1 ∧
     (chunk begin end_ thread_count thread_id).2 -
     (chunk begin end_ thread_count thread_id).1 = chunk_size) ∧
  (∀ thread_id, 0 ≤ thread_id < thread_count →
     begin ≤ (chunk begin end_ thread_count thread_id).1 ∧
     (chunk begin end_ thread_count thread_id).1
       ≤ (chunk begin end_ thread_count thread_id).2 ∧
     (chunk begin end_ thread_count thread_id).2 ≤ end_) ∧
  chunk_size ≤
    (chunk begin end_ thread_count (thread_count - 1)).2 -
    (chunk begin end_ thread_count (thread_count - 1)).1
    < chunk_size + thread_count ∧
  (end_ - begin < thread_count →
     chunk begin end_ thread_count (thread_count - 1) = (begin, end_) ∧
     ∀ thread_id, 0 ≤ thread_id < thread_count - 1 →
       chunk begin end_ thread_count thread_id = (begin, begin)).
Proof.
  intros Hwindow Hthreads chunk_size.
  assert (0 ≤ chunk_size) as Hsize0 by (apply Z.div_pos; lia).
  assert (thread_count * chunk_size ≤ end_ - begin) as Hsize
    by (apply Z.mul_div_le; lia).
  pose proof (Z.div_mod (end_ - begin) thread_count ltac:(lia)) as Hdiv.
  pose proof (Z.mod_pos_bound (end_ - begin) thread_count ltac:(lia)) as Hmod.
  fold chunk_size in Hdiv.
  assert (∀ t, 0 ≤ t < thread_count →
    chunk begin end_ thread_count t =
    (begin + t * chunk_size,
     if t =? thread_count - 1 then end_ else begin + (t + 1) * chunk_size))
    as Hchunk.
  { intros t Ht. unfold chunk.
    rewrite (wrap_small (end_ - begin)) by lia. fold chunk_size.
    rewrite (wrap_small (thread_count - 1)) by lia.
    rewrite (wrap_small (begin + t * chunk_size)) by nia.
    destruct (Z.eqb_spec t (thread_count - 1)); [done|].
    rewrite wrap_small by nia. f_equal. lia. }
  split; [rewrite Hchunk by lia; simpl; lia|].
  split; [rewrite Hchunk by lia; simpl; by rewrite Z.eqb_refl|].
  split; [|split; [|split]].
  - intros t Ht. rewrite !Hchunk by lia. simpl.
    destruct (Z.eqb_spec t (thread_count - 1)); lia.
  - intros t Ht. rewrite Hchunk by lia. simpl.
    destruct (Z.eqb_spec t (thread_count - 1)); nia.
  - rewrite Hchunk by lia. simpl. rewrite Z.eqb_refl. nia.
  - intros Hsmall.
    assert (chunk_size = 0) as Hzero by (apply Z.div_small; lia).
    split.
    + rewrite Hchunk by lia. rewrite Z.eqb_refl, Hzero. f_equal. lia.
    + intros t Ht. rewrite Hchunk by lia.
      destruct (Z.eqb_spec t (thread_count - 1)); [lia|].
      rewrite Hzero. f_equal; lia.
Qed.

(** ** The neighbor search *)

Section SearchFacts.
Context {Scalar V N : Type} `{ScalarOps Scalar} `{!VolumeOps Scalar V}
  `{!NodeOps Scalar V N}.

(** X4: in a window of at least two nodes searched with a radius of at
    least 1, every node gets a neighbor: another node of the window within
    the radius whose merge cost no candidate undercuts, and the one of
    lowest index among those of minimal cost (every candidate of lower
    index costs strictly more). The search writes [neighbors[begin]] to
    [neighbors[end - 1]] and nothing else. The cost of a pair is the half
    area of the volume of the lower index extended by the one of the
    higher index. *)
Theorem stored_neighbor_is_cheapest_candidate `{!ScalarOrder Scalar}
  `{!FiniteAreas Scalar V} (search_radius thread_count : Z)
  (input : list N) (aux : list Z) (neighbors begin end_ : Z) :
  1 ≤ search_radius →
  (search_radius + 1) * search_radius < size_modulus →
  1 ≤ thread_count < size_modulus →
  0 ≤ begin ∧ begin + 2 ≤ end_ ∧ end_ ≤ Z.of_nat (length input) →
  end_ + search_radius + 1 < size_modulus →
  0 ≤ neighbors ∧ neighbors + end_ ≤ Z.of_nat (length aux) →
  ∃ aux',
    search_neighbors search_radius input neighbors begin end_ thread_count aux
      = Some aux' ∧
    length aux' = length aux ∧
    (∀ x, ¬ (neighbors + begin ≤ x < neighbors + end_) →
          load aux' x = load aux x) ∧
    ∀ i, begin ≤ i < end_ →
      ∃ j, load aux' (neighbors + i) = Some j ∧
           begin ≤ j < end_ ∧ j ≠ i ∧ i - search_radius ≤ j ≤ i + search_radius ∧
           (∀ x, begin ≤ x < end_ → x ≠ i →
                 i - search_radius ≤ x ≤ i + search_radius →
                 scalar_lt (pair_distance input i x) (pair_distance input i j)
                   = false) ∧
           (∀ x, begin ≤ x < j → i - search_radius ≤ x → x ≠ i →
                 scalar_lt (pair_distance input i j) (pair_distance input i x)
                   = true).
Proof.
  intros Hradius Hcache Hthreads Hwindow Hsizes Harrays.
  destruct (search_neighbors_spec search_radius input begin end_)
    with (neighbors := neighbors) (thread_count := thread_count) (aux := aux)
    as (aux1 & Hsearch & Hsweep & Hlen); [first [lia|done]..|].
  destruct (store_sweep (direct_neighbor search_radius input begin end_)
              neighbors begin end_ aux)
    as (aux1' & Hsweep' & _ & Hstored & Hrest); [lia..|].
  assert (aux1' = aux1) as -> by congruence.
  exists aux1. split; [done|]. split; [done|]. split; [done|].
  intros i Hi.
  destruct (direct_neighbor_spec search_radius input begin end_)
    with (i := i) as (Hin & Hmin & Hfirst); [first [lia|done]..|].
  assert (∀ x, x ∈ candidates search_radius begin end_ i ↔
               begin ≤ x < end_ ∧
               i - search_radius ≤ x ≤ i + search_radius ∧ x ≠ i) as Hcand.
  { intros x. apply candidates_spec; first [lia|done]. }
  apply Hcand in Hin.
  exists (direct_neighbor search_radius input begin end_ i).
  split; [by apply Hstored|]. split; [lia|]. split; [lia|]. split; [lia|].
  split.
  - intros x Hx Hne Hnear. apply Hmin. apply Hcand. lia.
  - intros x Hx Hnear Hne. apply Hfirst; [|lia]. apply Hcand. lia.
Qed.

(** X5: with [search_radius = 0] no node has a candidate, so the search
    stores [size_t(-1)] for every node of the window (the assertion
    [best_neighbor != size_t(-1)] fails when assertions are on), and the
    marking loop then reads [neighbors[size_t(-1)]], outside the
    allocation: the round faults whatever the nodes hold. *)
Theorem zero_radius_round_faults (thread_count : Z) (input output : list N)
  (aux : list Z) (neighbors merged_index begin end_ previous_end : Z) :
  1 ≤ thread_count < size_modulus →
  0 ≤ begin ∧ begin < end_ ∧ end_ ≤ Z.of_nat (length input) →
  0 ≤ neighbors ∧ neighbors + end_ ≤ Z.of_nat (length aux) ∧
  Z.of_nat (length aux) < SIZE_MAX →
  (∃ aux', search_neighbors 0 input neighbors begin end_ thread_count aux
             = Some aux' ∧
           ∀ i, begin ≤ i < end_ → load aux' (neighbors + i) = Some SIZE_MAX) ∧
  cluster 0 thread_count input output aux neighbors merged_index
    begin end_ previous_end = None.
Proof.
  intros Hthreads Hwindow Harrays. unfold SIZE_MAX in Harrays.
  assert (end_ + 0 + 1 < size_modulus) as Hsizes by lia.
  destruct (search_neighbors_spec 0 input begin end_)
    with (neighbors := neighbors) (thread_count := thread_count) (aux := aux)
    as (aux1 & Hsearch & Hsweep & Hlen);
    [first [lia|done|rewrite size_modulus_eq; lia]..|].
  destruct (store_sweep (direct_neighbor 0 input begin end_)
              neighbors begin end_ aux)
    as (aux1' & Hsweep' & _ & Hstored & _); [lia..|].
  assert (aux1' = aux1) as -> by congruence.
  assert (∀ i, begin ≤ i < end_ →
               direct_neighbor 0 input begin end_ i = SIZE_MAX) as Hnone.
  { intros i Hi. unfold direct_neighbor, candidates, search_range.
    rewrite (wrap_small (begin + 0)) by lia.
    rewrite (wrap_small (i + 0 + 1)) by lia.
    rewrite (wrap_small (i - 0)) by lia.
    replace (if begin + 0 <? i then i - 0 else begin) with i
      by (destruct (Z.ltb_spec (begin + 0) i); lia).
    rewrite Z.min_l by lia.
    replace (i - i) with 0 by lia. replace (i + 0 + 1 - (i + 1)) with 0 by lia.
    reflexivity. }
  split.
  - exists aux1. split; [done|]. intros i Hi.
    rewrite Hstored by done. by rewrite Hnone.
  - unfold cluster. rewrite Hsearch. simpl.
    unfold mark_merged. rewrite for_loop_first by lia.
    rewrite (Hstored begin) by lia. rewrite Hnone by lia. simpl.
    rewrite load_None; [done|]. unfold SIZE_MAX. lia.
Qed.

End SearchFacts.

(** ** The window and the buffers across one round *)

Section RoundFacts.
Context {Scalar V N : Type} `{ScalarOps Scalar} `{!VolumeOps Scalar V}
  `{!NodeOps Scalar V N} `{!ScalarOrder Scalar} `{!FiniteAreas Scalar V}.

Variables search_radius thread_count : Z.
Variables (input output : list N) (aux : list Z).
Variables neighbors merged_index begin end_ previous_end : Z.

Hypothesis call :
  cluster_assumptions search_radius thread_count input output aux
    neighbors merged_index begin end_ previous_end.

(** X6: a round over a window of at least two nodes makes progress and
    cannot more than halve the window: the window it returns is strictly
    smaller and holds at least half as many nodes, since at least one pair
    and at most every second node is merged. The window moves towards the
    front of the array by one index per merged pair, and a window that
    ends at [2 * begin + 1] is followed by one that ends at
    [2 * next_begin + 1]. *)
Theorem round_shrinks_window_at_most_by_half :
  ∃ out' aux' next_begin next_end,
    cluster search_radius thread_count input output aux neighbors merged_index
      begin end_ previous_end = Some (out', aux', (next_begin, next_end)) ∧
    0 ≤ next_begin < begin ∧ next_begin < next_end ∧ next_end < end_ ∧
    next_end - next_begin < end_ - begin ∧
    end_ - begin ≤ 2 * (next_end - next_begin) ∧
    end_ - next_end = 2 * (begin - next_begin) ∧
    (end_ = 2 * begin + 1 → next_end = 2 * next_begin + 1).
Proof.
  pose proof (call_merges _ _ _ _ _ _ _ _ _ _ call) as Hmerges.
  destruct (call_spec _ _ _ _ _ _ _ _ _ _ call) as (out' & aux' & Hrun & _).
  do 4 eexists. split; [exact Hrun|].
  unfold next_begin, next_end. lia.
Qed.

(** X7: what a round leaves alone. It reads [input] and writes [output]
    only from the start of the window it returns up to [previous_end]:
    the nodes of the previous level, [[end, previous_end)], are copied
    from [input] unchanged and every node of [output] outside
    [[next_begin, previous_end)] keeps its value. Of the auxiliary array
    it writes [neighbors[begin .. end)] and [merged_index[begin .. end)]
    only. Both arrays keep their length. *)
Theorem round_writes_only_its_ranges :
  ∃ out' aux' next_begin next_end,
    cluster search_radius thread_count input output aux neighbors merged_index
      begin end_ previous_end = Some (out', aux', (next_begin, next_end)) ∧
    length out' = length output ∧ length aux' = length aux ∧
    (∀ i, end_ ≤ i < previous_end → load out' i = load input i) ∧
    (∀ x, ¬ (next_begin ≤ x < previous_end) → load out' x = load output x) ∧
    (∀ x, ¬ (neighbors + begin ≤ x < neighbors + end_) →
          ¬ (merged_index + begin ≤ x < merged_index + end_) →
          load aux' x = load aux x).
Proof.
  pose proof call as [].
  destruct (cluster_spec search_radius thread_count input output aux
              neighbors merged_index begin end_ previous_end)
    as (out' & aux' & Hrun & Hlen & Hlen_aux & _ & _ & Haux & _ & _ &
        Hcopied & Hrest);
    [first [lia|done|apply (call_neighbors_valid _ _ _ _ _ _ _ _ _ _ call)]..|].
  do 4 eexists. split; [exact Hrun|].
  split; [congruence|]. done.
Qed.

End RoundFacts.

(** ** The hybrid build *)

Section HandOff.
Context {Scalar B C : Type} `{ScalarOps Scalar}
  `{!VolumeOps Scalar B} `{!VolumeOps Scalar C}.

Variable AABB : C → B.

(** The nodes of the box arena after the hand-off loop. *)
Lemma make_boxes_nodes
  (nodes : list (CustomNode C)) (bnodes : list (Node B))
  (primitives begin end_ : Z) :
  0 ≤ primitives ≤ Z.of_nat (length nodes) →
  primitives ≤ Z.of_nat (length bnodes) →
  ∃ bnodes',
    make_boxes AABB nodes primitives begin end_ bnodes = Some bnodes' ∧
    length bnodes' = length bnodes ∧
    (∀ i, 0 ≤ i < primitives →
       ∃ node, load nodes i = Some node ∧
         load bnodes' i =
           Some (mkNode (AABB (cyl node))
                   (cnode_is_leaf node || ((begin <=? i) && (i <? end_)))
                   (cnode_primitive_count node)
                   (cnode_first_child_or_primitive node) (to_index i))) ∧
    (∀ x, primitives ≤ x → load bnodes' x = load bnodes x).
Proof.
  intros Hnodes Hbnodes. unfold make_boxes.
  destruct (for_loop_invariant
    (λ k (a : list (Node B)),
       length a = length bnodes ∧
       (∀ i, 0 ≤ i < k →
          ∃ node, load nodes i = Some node ∧
            load a i =
              Some (mkNode (AABB (cyl node))
                      (cnode_is_leaf node || ((begin <=? i) && (i <? end_)))
                      (cnode_primitive_count node)
                      (cnode_first_child_or_primitive node) (to_index i))) ∧
       (∀ x, k ≤ x → load a x = load bnodes x))
    0 primitives
    (λ i (bnodes : list (Node B)),
       node_i ← load nodes i;
       let mynode :=
         mkNode (AABB (cyl node_i)) (cnode_is_leaf node_i)
           (cnode_primitive_count node_i)
           (cnode_first_child_or_primitive node_i) (to_index i) in
       let mynode :=
         if (begin <=? i) && (i <? end_)
         then mkNode (bounds mynode) true (node_primitive_count mynode)
                (node_first_child_or_primitive mynode) (origin mynode)
         else mynode in
       store bnodes i mynode)
    bnodes)
    as (bnodes' & Hrun & Hlen & Hdone & Hrest); [lia| | |].
  - split; [done|]. split; [intros i Hi; lia|done].
  - intros k a Hk (Hlen & Hdone & Hrest).
    destruct (load_is_Some nodes k ltac:(lia)) as [node_k Hnode].
    rewrite Hnode. simpl.
    destruct (store a k _) as [a'|] eqn:Hst;
      [|rewrite store_Some in Hst by lia; done].
    exists a'. split; [done|]. split; [|split].
    + apply store_length in Hst. congruence.
    + intros i Hi. destruct (decide (i = k)) as [->|Hne].
      * exists node_k. split; [done|].
        rewrite (load_store_eq _ _ _ _ Hst). f_equal.
        destruct ((begin <=? k) && (k <? end_)); simpl;
          [by rewrite orb_true_r|by rewrite orb_false_r].
      * rewrite (load_store_ne _ _ _ _ _ Hst) by lia. apply Hdone. lia.
    + intros x Hx. rewrite (load_store_ne _ _ _ _ _ Hst) by lia. apply Hrest. lia.
  - exists bnodes'. done.
Qed.

(** X8: what the hand-off loop of the hybrid build does to the box arena.
    For every index below [primitive_count] it stores the box around the
    cylinder of the cylinder node at that index, with the node's
    [primitive_count] and [first_child_or_primitive], the index as
    [origin], and the leaf flag of the node, or [true] where the index
    lies in the window [[begin, end)]. It stops there: the nodes from
    index [primitive_count] on keep what the arena held, whether they lie
    in the window or not. *)
Theorem handoff_converts_indices_below_primitive_count
  (nodes : list (CustomNode C)) (bnodes : list (Node B))
  (primitives begin end_ : Z) :
  0 ≤ primitives ≤ Z.of_nat (length nodes) →
  primitives ≤ Z.of_nat (length bnodes) →
  ∃ bnodes',
    make_boxes AABB nodes primitives begin end_ bnodes = Some bnodes' ∧
    length bnodes' = length bnodes ∧
    (∀ i, 0 ≤ i < primitives →
       ∃ node, load nodes i = Some node ∧
         load bnodes' i =
           Some (mkNode (AABB (cyl node))
                   (cnode_is_leaf node || ((begin <=? i) && (i <? end_)))
                   (cnode_primitive_count node)
                   (cnode_first_child_or_primitive node) (to_index i))) ∧
    (∀ x, primitives ≤ x → load bnodes' x = load bnodes x).
Proof. apply make_boxes_nodes. Qed.

End HandOff.

Section CountedRounds.
Context {Scalar V N : Type} `{ScalarOps Scalar} `{!VolumeOps Scalar V}
  `{!NodeOps Scalar V N} `{!ScalarOrder Scalar} `{!FiniteAreas Scalar V}.

Variables search_radius loop_parallel_threshold : Z.
Variable num_threads : Z → Z → Z.
Variable primitives : Z.

Hypothesis assumptions : build_assumptions search_radius num_threads primitives.

(** The counted loop stops at one node or when the counter reaches
    [iteration], and every round it counts moved the window by at least
    one index. *)
Lemma round_loop_until_counts (fuel : nat) iteration (st : BuildState N) k :
  window_invariant primitives st → st_begin st ≤ Z.of_nat fuel →
  0 ≤ k → k + Z.of_nat fuel < size_modulus →
  ∃ st' k',
    round_loop_until search_radius loop_parallel_threshold num_threads fuel
      (2 * primitives - 1) iteration st k = Some (st', k') ∧
    window_invariant primitives st' ∧
    k ≤ k' ∧ st_begin st' + (k' - k) ≤ st_begin st ∧
    ((st_begin st' = 0 ∧ st_end st' = 1) ∨ (k < k' ∧ k' = iteration)) ∧
    (k' = k → st' = st).
Proof.
  destruct assumptions.
  revert st k. induction fuel as [|fuel IH]; intros st k Hwin Hfuel Hk Hwrap.
  - pose proof Hwin as []. simpl. rewrite wrap_small by lia.
    destruct (Z.ltb_spec 1 (st_end st - st_begin st)); [lia|].
    exists st, k. split; [done|]. split; [done|]. split; [lia|].
    split; [lia|]. split; [left; lia|done].
  - pose proof Hwin as []. simpl. rewrite wrap_small by lia.
    destruct (Z.ltb_spec 1 (st_end st - st_begin st)) as [Hwork|Hdone].
    + destruct (round_window search_radius loop_parallel_threshold num_threads
                  primitives)
        with (st := st) as (st1 & -> & Hwin1 & _ & _ & _ & _ & Hless);
        [first [lia|done]..|].
      simpl. rewrite (wrap_small (k + 1)) by lia.
      destruct (Z.eqb_spec (k + 1) iteration) as [Hstop|Hgo].
      * exists st1, (k + 1). split; [done|]. split; [done|]. split; [lia|].
        split; [lia|]. split; [right; lia|lia].
      * destruct (IH st1 (k + 1))
          as (st2 & k2 & -> & Hwin2 & Hle & Hmoved & Hend & _);
          [done|lia|lia|lia|].
        exists st2, k2. split; [done|]. split; [done|]. split; [lia|].
        split; [lia|]. split; [destruct Hend; [by left|right; lia]|lia].
    + exists st, k. split; [done|]. split; [done|]. split; [lia|].
      split; [lia|]. split; [left; lia|done].
Qed.

(** No counted round more than halves the window. *)
Lemma round_loop_until_halves (fuel : nat) iteration (st : BuildState N) k st' k' :
  window_invariant primitives st →
  0 ≤ k → k + Z.of_nat fuel < size_modulus →
  round_loop_until search_radius loop_parallel_threshold num_threads fuel
    (2 * primitives - 1) iteration st k = Some (st', k') →
  k ≤ k' ∧ st_begin st + 1 ≤ 2 ^ (k' - k) * (st_begin st' + 1) ∧
  (k < iteration → k' ≤ iteration).
Proof.
  destruct assumptions.
  revert st k. induction fuel as [|fuel IH]; intros st k Hwin Hk Hwrap; simpl.
  - destruct (_ <? _); [done|]. intros [= <- <-].
    rewrite Z.sub_diag. simpl. lia.
  - pose proof Hwin as []. rewrite wrap_small by lia.
    destruct (Z.ltb_spec 1 (st_end st - st_begin st)) as [Hwork|];
      [|intros [= <- <-]; rewrite Z.sub_diag; simpl; lia].
    pose proof (round_merges search_radius primitives ltac:(done) ltac:(done)
                  st Hwin Hwork) as Hmerges.
    destruct (round_window search_radius loop_parallel_threshold num_threads
                primitives)
      with (st := st) as (st1 & -> & Hwin1 & Hb1 & _); [first [lia|done]..|].
    unfold next_begin in Hb1.
    simpl. rewrite (wrap_small (k + 1)) by lia.
    assert (∀ j b', k + 1 ≤ j → st_begin st1 + 1 ≤ 2 ^ (j - (k + 1)) * (b' + 1) →
                    st_begin st + 1 ≤ 2 ^ (j - k) * (b' + 1)) as Hdouble.
    { intros j b' Hj Hle.
      replace (j - k) with (Z.succ (j - (k + 1))) by lia.
      rewrite Z.pow_succ_r by lia. lia. }
    destruct (Z.eqb_spec (k + 1) iteration) as [Hstop|Hgo].
    + intros [= <- <-]. split; [lia|]. split; [|lia]. apply Hdouble; [lia|].
      rewrite Z.sub_diag. simpl. lia.
    + intros Hloop. destruct (IH st1 (k + 1) Hwin1 ltac:(lia) ltac:(lia) Hloop)
        as (Hle & Hhalf & Hbound).
      split; [lia|]. split; [by apply Hdouble|]. intros Hlt. apply Hbound. lia.
Qed.

End CountedRounds.

Section HybridFacts.
Context {Scalar B C Center : Type} `{ScalarOps Scalar}
  `{!VolumeOps Scalar B} `{!VolumeOps Scalar C}
  `{!MortonSorter B Center} `{!MortonSorter C Center}
  `{!ScalarOrder Scalar} `{!FiniteAreas Scalar B} `{!FiniteAreas Scalar C}.

Variable AABB : C → B.
Variables search_radius loop_parallel_threshold : Z.
Variable num_threads : Z → Z → Z.

Local Abbreviation hybrid_run :=
  (hybrid_rounds AABB search_radius loop_parallel_threshold num_threads).
Local Abbreviation hybrid_build :=
  (build_hybrid AABB search_radius loop_parallel_threshold num_threads).

(** The two phases of a hybrid run. *)
Lemma hybrid_phases (fuel : nat) (cyls : list C) (order : list Z)
  (primitives iteration : Z) :
  build_assumptions search_radius num_threads primitives →
  Z.of_nat (length cyls) = primitives →
  is_permutation order primitives →
  primitives ≤ Z.of_nat fuel → Z.of_nat fuel < size_modulus →
  ∃ st0 st1 k bnodes bst,
    initial_state cyls order primitives = Some st0 ∧
    round_loop_until search_radius loop_parallel_threshold num_threads fuel
      (2 * primitives - 1) iteration st0 0 = Some (st1, k) ∧
    make_boxes AABB (st_nodes st1) primitives (st_begin st1) (st_end st1)
      (make_unique value_initialized (2 * primitives - 1)) = Some bnodes ∧
    round_loop search_radius loop_parallel_threshold num_threads fuel
      (2 * primitives - 1)
      (mkBuildState bnodes (make_unique value_initialized (2 * primitives - 1))
         (st_auxiliary_data st1) (st_begin st1) (st_end st1)
         (st_previous_end st1)) = Some bst ∧
    hybrid_run fuel cyls order primitives iteration
      = Some (mkHybridRun st1 k bnodes bst) ∧
    window_invariant primitives st1 ∧
    window_invariant primitives bst ∧
    st_begin bst = 0 ∧ st_end bst = 1 ∧
    0 ≤ k ∧ st_begin st1 + k ≤ primitives - 1 ∧
    ((st_begin st1 = 0 ∧ st_end st1 = 1) ∨ (0 < k ∧ k = iteration)).
Proof.
  intros Hassume Hcyls Hsorted Hfuel Hfuel'. pose proof Hassume as [].
  destruct (initial_state_spec (N:=CustomNode C))
    with (bboxes := cyls) (primitive_indices := order)
         (primitives := primitives) (search_radius := search_radius)
    as (st0 & Hinit & Hwin0 & _ & Hb0 & _); [first [lia|done]..|].
  destruct (round_loop_until_counts (N:=CustomNode C) search_radius
              loop_parallel_threshold num_threads primitives Hassume fuel
              iteration st0 0)
    as (st1 & k & Hloop & Hwin1 & Hk & Hmoved & Hend & _); [done|lia|lia|lia|].
  pose proof Hwin1 as [].
  destruct (make_boxes_nodes AABB (st_nodes st1)
              (make_unique value_initialized (2 * primitives - 1))
              primitives (st_begin st1) (st_end st1))
    as (bnodes & Hboxes & Hlen_nat & _);
    [lia|rewrite length_make_unique; lia|].
  assert (Z.of_nat (length bnodes) = 2 * primitives - 1) as Hlen
    by (rewrite Hlen_nat; apply length_make_unique; lia).
  destruct (round_loop_window (V:=B) (N:=Node B) search_radius
              loop_parallel_threshold num_threads primitives)
    with (fuel := fuel)
         (st := mkBuildState bnodes
                  (make_unique value_initialized (2 * primitives - 1))
                  (st_auxiliary_data st1) (st_begin st1) (st_end st1)
                  (st_previous_end st1))
    as (bst & Hbox & Hwinb & Hbb & Hbe); [first [lia|done]..| |simpl; lia|].
  { split; simpl; first [done|lia|apply length_make_unique; lia]. }
  exists st0, st1, k, bnodes, bst.
  split; [done|]. split; [done|]. split; [done|]. split; [done|].
  split.
  { unfold hybrid_rounds. rewrite Hinit. simpl.
    rewrite (wrap_small (2 * primitives - 1)) by lia.
    rewrite Hloop. simpl. rewrite Hboxes. simpl. rewrite Hbox. done. }
  split; [done|]. split; [done|]. split; [done|]. split; [done|].
  split; [lia|]. split; [lia|]. destruct Hend; [by left|right; lia].
Qed.

(** X9: the hybrid build runs to completion for every value of
    [iteration]. It returns [node_count = 2 * primitive_count - 1] with
    that many nodes in [bvh.nodes] and in [bvh.cnodes], the box rounds end
    with the window [[0, 1)], and the flags [cylinder] and [hybrid] of the
    tree are left as they were. The cylinder rounds stop with a window of
    [begin + 1] nodes, each counted round having merged at least one pair
    ([begin + k <= primitive_count - 1]), either at one node or when the
    counter [k] equals [iteration], which a count of 0 never does. *)
Theorem hybrid_build_completes (fuel : nat) (bvh : Bvh B C) (global_box : B)
  (cyls : list C) (centers : list Center) (primitives iteration : Z) :
  build_assumptions search_radius num_threads primitives →
  Z.of_nat (length cyls) = primitives →
  is_permutation (sort_primitives_by_morton_code global_box centers primitives)
    primitives →
  primitives ≤ Z.of_nat fuel → Z.of_nat fuel < size_modulus →
  ∃ run tree,
    hybrid_run fuel cyls
      (sort_primitives_by_morton_code global_box centers primitives)
      primitives iteration = Some run ∧
    hybrid_build fuel bvh global_box cyls centers primitives iteration
      = Some tree ∧
    nodes tree = st_nodes (box_phase run) ∧
    cnodes tree = st_nodes (cylinder_phase run) ∧
    primitive_indices tree =
      sort_primitives_by_morton_code global_box centers primitives ∧
    node_count tree = 2 * primitives - 1 ∧
    Z.of_nat (length (nodes tree)) = 2 * primitives - 1 ∧
    Z.of_nat (length (cnodes tree)) = 2 * primitives - 1 ∧
    cylinder tree = cylinder bvh ∧ hybrid tree = hybrid bvh ∧
    st_begin (box_phase run) = 0 ∧ st_end (box_phase run) = 1 ∧
    st_end (cylinder_phase run) = 2 * st_begin (cylinder_phase run) + 1 ∧
    0 ≤ cylinder_rounds run ∧
    st_begin (cylinder_phase run) + cylinder_rounds run ≤ primitives - 1 ∧
    (st_begin (cylinder_phase run) = 0 ∨
     (0 < iteration ∧ cylinder_rounds run = iteration)).
Proof.
  intros Hassume Hcyls Hsorted Hfuel Hfuel'. pose proof Hassume as [].
  destruct (hybrid_phases fuel cyls _ primitives iteration Hassume Hcyls
              Hsorted Hfuel Hfuel')
    as (st0 & st1 & k & bnodes & bst & _ & _ & _ & _ & Hrun & Hwin1 & Hwinb &
        Hbb & Hbe & Hk & Hmoved & Hend).
  exists (mkHybridRun st1 k bnodes bst). eexists.
  split; [exact Hrun|]. unfold build_hybrid. rewrite Hrun. simpl.
  split; [reflexivity|]. destruct Hwin1, Hwinb.
  repeat (split; [first [done|lia|apply wrap_small; lia]|]).
  destruct Hend as [[? ?]|[? ?]]; [by left|right; lia].
Qed.

(** X10: with [iteration = 0] the hybrid build clusters the cylinders to
    the end. It leaves in [bvh.cnodes] the arena of the cylinder-only
    build with a box as global bound, with the same primitive order and
    node count, and in [bvh.nodes] a tree of one node: the root of the
    cylinder tree turned into a leaf with the box around its cylinder and
    [origin = 0]. *)
Theorem hybrid_iteration_zero_is_cylinder_build (fuel : nat) (bvh : Bvh B C)
  (global_box : B) (cyls : list C) (centers : list Center) (primitives : Z) :
  build_assumptions search_radius num_threads primitives →
  Z.of_nat (length cyls) = primitives →
  is_permutation (sort_primitives_by_morton_code global_box centers primitives)
    primitives →
  primitives ≤ Z.of_nat fuel → Z.of_nat fuel < size_modulus →
  ∃ tree cylinder_tree root,
    hybrid_build fuel bvh global_box cyls centers primitives 0 = Some tree ∧
    build_cylinders_in_box search_radius loop_parallel_threshold num_threads
      fuel bvh global_box cyls centers primitives = Some cylinder_tree ∧
    cnodes tree = cnodes cylinder_tree ∧
    primitive_indices tree = primitive_indices cylinder_tree ∧
    node_count tree = node_count cylinder_tree ∧
    load (cnodes tree) 0 = Some root ∧
    load (nodes tree) 0 =
      Some (mkNode (AABB (cyl root)) true (cnode_primitive_count root)
              (cnode_first_child_or_primitive root) 0).
Proof.
  intros Hassume Hcyls Hsorted Hfuel Hfuel'. pose proof Hassume as [].
  destruct (hybrid_phases fuel cyls _ primitives 0 Hassume Hcyls
              Hsorted Hfuel Hfuel')
    as (st0 & st1 & k & bnodes & bst & Hinit & Hloop & Hboxes & Hbox & Hrun &
        Hwin1 & Hwinb & Hbb & Hbe & Hk & Hmoved & Hend).
  destruct Hend as [[Hb1 He1]|[? ?]]; [|lia].
  pose proof (round_loop_until_zero search_radius loop_parallel_threshold
                num_threads cyls primitives fuel st0 0 ltac:(lia) ltac:(lia))
    as Hzero.
  rewrite Hloop in Hzero. simpl in Hzero.
  pose proof Hwin1 as [].
  destruct (make_boxes_nodes AABB (st_nodes st1)
              (make_unique value_initialized (2 * primitives - 1))
              primitives (st_begin st1) (st_end st1))
    as (bnodes' & Hboxes' & _ & Hconverted & _);
    [lia|rewrite length_make_unique; lia|].
  assert (bnodes' = bnodes) as -> by congruence.
  destruct (Hconverted 0 ltac:(lia)) as (root & Hroot & Hbroot).
  rewrite Hb1, He1 in Hbroot, Hbox. simpl in Hbroot.
  rewrite orb_true_r in Hbroot.
  assert (bst = mkBuildState bnodes
                  (make_unique value_initialized (2 * primitives - 1))
                  (st_auxiliary_data st1) 0 1 (st_previous_end st1)) as ->.
  { assert (wrap (1 - 0) = 1) as Hone
      by (apply wrap_small; rewrite size_modulus_eq; lia).
    destruct fuel; simpl in Hbox; rewrite Hone in Hbox; simpl in Hbox;
      congruence. }
  exists (mkBvh bnodes (st_nodes st1)
            (sort_primitives_by_morton_code global_box centers primitives)
            (cylinder bvh) (hybrid bvh) (wrap (2 * primitives - 1))).
  exists (mkBvh (nodes bvh) (st_nodes st1)
            (sort_primitives_by_morton_code global_box centers primitives)
            (cylinder bvh) (hybrid bvh) (wrap (2 * primitives - 1))).
  exists root. simpl.
  split; [unfold build_hybrid; by rewrite Hrun|].
  split.
  { unfold build_cylinders_in_box, build_rounds. rewrite Hinit. simpl.
    rewrite (wrap_small (2 * primitives - 1)) by lia.
    by rewrite <- Hzero. }
  repeat (split; [done|]). rewrite Hbroot. reflexivity.
Qed.

(** X16: no cylinder round of the hybrid build more than halves the
    window: after the [k] rounds that the cylinder loop counted, the
    window still holds at least [primitive_count / 2^k] nodes
    ([primitive_count <= 2^k * (end - begin)]). A hybrid build with
    [0 < iteration] and [2^iteration < primitive_count] therefore stops
    its cylinder loop at [k = iteration] and hands over a window of more
    than one node. *)
Theorem cylinder_rounds_at_most_halve_the_window (fuel : nat)
  (global_box : B) (cyls : list C) (centers : list Center)
  (primitives iteration : Z) :
  build_assumptions search_radius num_threads primitives →
  Z.of_nat (length cyls) = primitives →
  is_permutation (sort_primitives_by_morton_code global_box centers primitives)
    primitives →
  primitives ≤ Z.of_nat fuel → Z.of_nat fuel < size_modulus →
  ∃ run,
    hybrid_run fuel cyls
      (sort_primitives_by_morton_code global_box centers primitives)
      primitives iteration = Some run ∧
    0 ≤ cylinder_rounds run ∧
    primitives ≤
      2 ^ cylinder_rounds run *
      (st_end (cylinder_phase run) - st_begin (cylinder_phase run)) ∧
    (0 < iteration → 2 ^ iteration < primitives →
       cylinder_rounds run = iteration ∧
       1 < st_end (cylinder_phase run) - st_begin (cylinder_phase run)).
Proof.
  intros Hassume Hcyls Hsorted Hfuel Hfuel'. pose proof Hassume as [].
  destruct (hybrid_phases fuel cyls _ primitives iteration Hassume Hcyls
              Hsorted Hfuel Hfuel')
    as (st0 & st1 & k & bnodes & bst & Hinit & Hloop & _ & _ & Hrun & Hwin1 & _ &
        _ & _ & Hk & Hmoved & Hend).
  destruct (initial_state_spec (N:=CustomNode C))
    with (bboxes := cyls)
         (primitive_indices :=
            sort_primitives_by_morton_code global_box centers primitives)
         (primitives := primitives) (search_radius := search_radius)
    as (st0' & Hinit' & Hwin0 & _ & Hb0 & _); [first [lia|done]..|].
  assert (st0' = st0) as -> by congruence.
  destruct (round_loop_until_halves (N:=CustomNode C) search_radius
              loop_parallel_threshold num_threads primitives Hassume fuel
              iteration st0 0 st1 k Hwin0 ltac:(lia) ltac:(lia) Hloop)
    as (_ & Hhalf & Hbound).
  rewrite Z.sub_0_r, Hb0 in Hhalf. pose proof Hwin1 as [].
  exists (mkHybridRun st1 k bnodes bst). split; [exact Hrun|]. simpl.
  split; [done|].
  replace (st_end st1 - st_begin st1) with (st_begin st1 + 1) by lia.
  split; [lia|]. intros Hiter Hsmall. specialize (Hbound Hiter).
  assert (2 ^ k ≤ 2 ^ iteration) as Hpow by (apply Z.pow_le_mono_r; lia).
  assert (st_begin st1 ≠ 0) as Hopen.
  { intros Hzero. rewrite Hzero in Hhalf. lia. }
  destruct Hend as [[Hb1 He1]|[Hk0 ->]]; [done|]. split; [done|lia].
Qed.

End HybridFacts.

(** ** Counting and enclosing *)

Section ForestFacts.
Context {Scalar V N : Type} `{ScalarOps Scalar} `{!VolumeOps Scalar V}
  `{!NodeOps Scalar V N}.

Variable bboxes : list V.
Variable primitive_indices : list Z.
Variable primitives : Z.
Variable st : BuildState N.

Hypothesis size : 1 ≤ primitives.
Hypothesis sorted : is_permutation primitive_indices primitives.
Hypothesis Hforest : forest_invariant bboxes primitive_indices primitives st.
Hypothesis Hbegin : st_begin st = 0.

(** The leaves are as many as the primitives. *)
Lemma forest_leaf_count :
  leaf_count primitives (st_nodes st) = primitives ∧
  internal_count primitives (st_nodes st) = primitives - 1.
Proof.
  destruct Hforest as [_ Fleaf Fexists Funique _ _].
  unfold leaf_count, internal_count.
  set (arena := seqZ 0 (2 * primitives - 1)).
  set (leaves := filter (λ x, is_leaf (node_at (st_nodes st) x) = true) arena).
  assert (∀ x, x ∈ leaves ↔
               0 ≤ x < 2 * primitives - 1 ∧
               is_leaf (node_at (st_nodes st) x) = true) as Hleaves.
  { intros x. unfold leaves, arena.
    rewrite list_elem_of_filter, elem_of_seqZ. split; intros [? ?]; split;
      first [done|lia]. }
  assert ((λ x, first_child_or_primitive (node_at (st_nodes st) x)) <$> leaves
          ≡ₚ seqZ 0 primitives) as Hranks.
  { apply NoDup_Permutation.
    - apply NoDup_fmap_2_strong; [|apply NoDup_filter, NoDup_seqZ].
      intros x y [Hx Hlx]%Hleaves [Hy Hly]%Hleaves Heq.
      apply Funique; first [done|lia].
    - apply NoDup_seqZ.
    - intros r. rewrite list_elem_of_fmap, elem_of_seqZ. split.
      + intros (x & -> & [Hx Hlx]%Hleaves).
        destruct (Fleaf x) as (_ & Hrank & _); first [done|lia].
      + intros Hr. destruct (Fexists r ltac:(lia)) as (x & Hx & Hlx & Hfirst).
        exists x. split; [done|]. apply Hleaves. split; [lia|done]. }
  apply Permutation_length in Hranks.
  rewrite length_fmap, length_seqZ in Hranks.
  pose proof (length_filter_split
                (λ x, is_leaf (node_at (st_nodes st) x) = true) arena) as Hsplit.
  fold leaves in Hsplit. unfold arena in Hsplit at 2.
  rewrite length_seqZ in Hsplit. lia.
Qed.

(** The root encloses every node, by induction along the parents, which
    come before their children. *)
Lemma forest_root_encloses `{!Enclosure Scalar V} :
  is_tree primitives (st_nodes st) →
  root_encloses_all bboxes primitives (st_nodes st).
Proof.
  intros (Horder & Hparent & _).
  destruct Hforest as [_ Fleaf Fexists _ Finternal _].
  assert (∀ c, 0 ≤ c → 0 ≤ c < 2 * primitives - 1 →
    encloses (to_bounding_box (node_at (st_nodes st) 0))
             (to_bounding_box (node_at (st_nodes st) c))) as Hnodes.
  { intros c Hc. pattern c. apply Z_lt_induction; [|done].
    clear c Hc. intros c IH Hc.
    destruct (decide (c = 0)) as [->|Hne]; [apply encloses_refl|].
    destruct (Hparent c ltac:(lia)) as (x & (Hx & Hnl & Hchild) & _).
    destruct (Horder x Hx Hnl) as [Hafter _].
    destruct (Finternal x ltac:(lia) Hnl) as (_ & _ & _ & Hvolume).
    apply encloses_trans with (to_bounding_box (node_at (st_nodes st) x)).
    - apply IH; lia.
    - rewrite Hvolume. destruct Hchild as [<-| <-].
      + apply extend_encloses_right.
      + apply extend_encloses_left. }
  split; [intros x Hx; apply Hnodes; lia|].
  intros p Hp.
  assert (p ∈ primitive_indices) as Hin.
  { unfold is_permutation in sorted. rewrite sorted. apply elem_of_seqZ. lia. }
  apply list_elem_of_lookup_1 in Hin as [k Hk].
  pose proof (lookup_lt_Some _ _ _ Hk) as Hlt.
  pose proof (Permutation_length sorted) as Hlen. rewrite length_seqZ in Hlen.
  destruct (Fexists (Z.of_nat k) ltac:(lia)) as (x & Hx & Hleaf & Hfirst).
  destruct (Fleaf x Hx Hleaf) as (_ & _ & p' & Hp' & Hvolume).
  rewrite Hfirst in Hp'.
  assert (p' = p) as ->.
  { apply load_Some in Hp' as [_ Hp']. rewrite Nat2Z.id in Hp'. congruence. }
  eexists. split; [exact Hvolume|]. apply Hnodes; lia.
Qed.

End ForestFacts.

(** ** The finished tree *)

Section TreeFacts.
Context {Scalar B C Center : Type} `{ScalarOps Scalar}
  `{!VolumeOps Scalar B} `{!VolumeOps Scalar C}
  `{!MortonSorter B Center} `{!MortonSorter C Center}
  `{!ScalarOrder Scalar} `{!FiniteAreas Scalar B} `{!FiniteAreas Scalar C}.

Variable AABB : C → B.
Variables search_radius loop_parallel_threshold : Z.
Variable num_threads : Z → Z → Z.

Local Abbreviation box_build :=
  (build (C:=C) search_radius loop_parallel_threshold num_threads).
Local Abbreviation cyl_build :=
  (build_cylinders (B:=B) search_radius loop_parallel_threshold num_threads).
Local Abbreviation cyl_box_build :=
  (build_cylinders_in_box search_radius loop_parallel_threshold num_threads).

(** The arena of each non-hybrid build, with the invariants of its round
    loop. *)
Lemma finished_arenas (fuel : nat) (bvh : Bvh B C)
  (global_box : B) (global_cyl : C) (boxes : list B) (cyls : list C)
  (centers : list Center) (primitives : Z) :
  build_assumptions search_radius num_threads primitives →
  Z.of_nat (length boxes) = primitives →
  Z.of_nat (length cyls) = primitives →
  is_permutation (sort_primitives_by_morton_code global_box centers primitives)
    primitives →
  is_permutation (sort_primitives_by_morton_code global_cyl centers primitives)
    primitives →
  primitives ≤ Z.of_nat fuel →
  (∃ st tree,
     box_build fuel bvh global_box boxes centers primitives = Some tree ∧
     nodes tree = st_nodes st ∧
     primitive_indices tree =
       sort_primitives_by_morton_code global_box centers primitives ∧
     st_begin st = 0 ∧
     forest_invariant boxes (primitive_indices tree) primitives st ∧
     is_tree primitives (st_nodes st)) ∧
  (∃ st tree,
     cyl_build fuel bvh global_cyl cyls centers primitives = Some tree ∧
     cnodes tree = st_nodes st ∧
     primitive_indices tree =
       sort_primitives_by_morton_code global_cyl centers primitives ∧
     st_begin st = 0 ∧
     forest_invariant cyls (primitive_indices tree) primitives st ∧
     is_tree primitives (st_nodes st)) ∧
  (∃ st tree,
     cyl_box_build fuel bvh global_box cyls centers primitives = Some tree ∧
     cnodes tree = st_nodes st ∧
     primitive_indices tree =
       sort_primitives_by_morton_code global_box centers primitives ∧
     st_begin st = 0 ∧
     forest_invariant cyls (primitive_indices tree) primitives st ∧
     is_tree primitives (st_nodes st)).
Proof.
  intros Hassume Hboxes Hcyls Hsort_box Hsort_cyl Hfuel.
  pose proof Hassume as [].
  assert (∀ (V N : Type) `{!VolumeOps Scalar V} `{!NodeOps Scalar V N}
            `{!FiniteAreas Scalar V} (volumes : list V) (order : list Z),
            Z.of_nat (length volumes) = primitives →
            is_permutation order primitives →
            ∃ st, build_rounds (N:=N) search_radius loop_parallel_threshold
                    num_threads fuel volumes order primitives = Some st ∧
                  st_begin st = 0 ∧
                  forest_invariant volumes order primitives st ∧
                  is_tree primitives (st_nodes st)) as Hrounds.
  { intros V N ? ? ? volumes order Hlen Hsorted.
    destruct (build_rounds_spec (N:=N) search_radius loop_parallel_threshold
                num_threads volumes order primitives)
      with (fuel := fuel) as (st & Hrun & _ & Hforest & Hb & _);
      [first [lia|done]..|].
    destruct (build_rounds_tree (N:=N) search_radius loop_parallel_threshold
                num_threads volumes order primitives)
      with (fuel := fuel) as (st' & Hrun' & Htree);
      [first [lia|done]..|].
    assert (st' = st) as -> by congruence.
    by exists st. }
  split; [|split].
  - destruct (Hrounds B (Node B) _ _ _ boxes _ Hboxes Hsort_box)
      as (st & Hrun & Hb & Hforest & Htree).
    exists st. eexists. unfold build. rewrite Hrun. simpl. done.
  - destruct (Hrounds C (CustomNode C) _ _ _ cyls _ Hcyls Hsort_cyl)
      as (st & Hrun & Hb & Hforest & Htree).
    exists st. eexists. unfold build_cylinders. rewrite Hrun. simpl. done.
  - destruct (Hrounds C (CustomNode C) _ _ _ cyls _ Hcyls Hsort_box)
      as (st & Hrun & Hb & Hforest & Htree).
    exists st. eexists. unfold build_cylinders_in_box. rewrite Hrun. simpl. done.
Qed.

(** X11: the node array that a non-hybrid build returns is a binary tree
    rooted at index 0. The two children of every internal node lie inside
    the array at indices greater than the node's own, so a descent along
    child indices never returns to a node; every node but the root is a
    child of exactly one internal node; and the root is a child of
    none. *)
Theorem finished_arena_is_a_tree (fuel : nat) (bvh : Bvh B C)
  (global_box : B) (global_cyl : C) (boxes : list B) (cyls : list C)
  (centers : list Center) (primitives : Z) :
  build_assumptions search_radius num_threads primitives →
  Z.of_nat (length boxes) = primitives →
  Z.of_nat (length cyls) = primitives →
  is_permutation (sort_primitives_by_morton_code global_box centers primitives)
    primitives →
  is_permutation (sort_primitives_by_morton_code global_cyl centers primitives)
    primitives →
  primitives ≤ Z.of_nat fuel →
  (∃ tree,
     box_build fuel bvh global_box boxes centers primitives = Some tree ∧
     is_tree primitives (nodes tree)) ∧
  (∃ tree,
     cyl_build fuel bvh global_cyl cyls centers primitives = Some tree ∧
     is_tree primitives (cnodes tree)) ∧
  (∃ tree,
     cyl_box_build fuel bvh global_box cyls centers primitives = Some tree ∧
     is_tree primitives (cnodes tree)).
Proof.
  intros Hassume Hboxes Hcyls Hsort_box Hsort_cyl Hfuel.
  destruct (finished_arenas fuel bvh global_box global_cyl boxes cyls centers
              primitives Hassume Hboxes Hcyls Hsort_box Hsort_cyl Hfuel)
    as ((st1 & t1 & Hb1 & Hn1 & _ & _ & _ & Ht1) &
        (st2 & t2 & Hb2 & Hn2 & _ & _ & _ & Ht2) &
        (st3 & t3 & Hb3 & Hn3 & _ & _ & _ & Ht3)).
  split; [|split].
  - exists t1. by rewrite Hn1.
  - exists t2. by rewrite Hn2.
  - exists t3. by rewrite Hn3.
Qed.

(** X12: the leaves of the tree that a non-hybrid build returns are the
    leaves it created, unchanged by the rounds: every leaf has
    [primitive_count = 1], its [first_child_or_primitive] is a rank [r]
    below the primitive count, and its volume is the input volume of
    primitive [primitive_indices[r]]. No round merges primitives into a
    leaf or enlarges a leaf's volume. *)
Theorem leaves_keep_their_primitive (fuel : nat) (bvh : Bvh B C)
  (global_box : B) (global_cyl : C) (boxes : list B) (cyls : list C)
  (centers : list Center) (primitives : Z) :
  build_assumptions search_radius num_threads primitives →
  Z.of_nat (length boxes) = primitives →
  Z.of_nat (length cyls) = primitives →
  is_permutation (sort_primitives_by_morton_code global_box centers primitives)
    primitives →
  is_permutation (sort_primitives_by_morton_code global_cyl centers primitives)
    primitives →
  primitives ≤ Z.of_nat fuel →
  (∃ tree,
     box_build fuel bvh global_box boxes centers primitives = Some tree ∧
     leaves_are_primitives boxes (primitive_indices tree) primitives
       (nodes tree)) ∧
  (∃ tree,
     cyl_build fuel bvh global_cyl cyls centers primitives = Some tree ∧
     leaves_are_primitives cyls (primitive_indices tree) primitives
       (cnodes tree)) ∧
  (∃ tree,
     cyl_box_build fuel bvh global_box cyls centers primitives = Some tree ∧
     leaves_are_primitives cyls (primitive_indices tree) primitives
       (cnodes tree)).
Proof.
  intros Hassume Hboxes Hcyls Hsort_box Hsort_cyl Hfuel.
  destruct (finished_arenas fuel bvh global_box global_cyl boxes cyls centers
              primitives Hassume Hboxes Hcyls Hsort_box Hsort_cyl Hfuel)
    as ((st1 & t1 & Hb1 & Hn1 & _ & Hz1 & Hf1 & _) &
        (st2 & t2 & Hb2 & Hn2 & _ & Hz2 & Hf2 & _) &
        (st3 & t3 & Hb3 & Hn3 & _ & Hz3 & Hf3 & _)).
  split; [|split].
  - exists t1. split; [done|]. rewrite Hn1. intros x Hx Hleaf.
    destruct (inv_leaf _ _ _ _ Hf1 x) as (Hcount & Hrank & p & Hp & Hvol);
      [lia|done|]. split; [done|]. split; [done|]. by exists p.
  - exists t2. split; [done|]. rewrite Hn2. intros x Hx Hleaf.
    destruct (inv_leaf _ _ _ _ Hf2 x) as (Hcount & Hrank & p & Hp & Hvol);
      [lia|done|]. split; [done|]. split; [done|]. by exists p.
  - exists t3. split; [done|]. rewrite Hn3. intros x Hx Hleaf.
    destruct (inv_leaf _ _ _ _ Hf3 x) as (Hcount & Hrank & p & Hp & Hvol);
      [lia|done|]. split; [done|]. split; [done|]. by exists p.
Qed.

(** X13: a build of one primitive runs no round, whatever the search
    radius, the threshold and the number of threads: the tree has
    [node_count = 1] and its root is the leaf of the primitive, with
    [primitive_count = 1] and [first_child_or_primitive = 0]. The hybrid
    build then also runs no cylinder round for any [iteration]; it returns
    that leaf in [bvh.cnodes] and, in [bvh.nodes], a leaf with the box
    around the cylinder and [origin = 0]. *)
Theorem single_primitive_tree_is_one_leaf (fuel : nat) (bvh : Bvh B C)
  (global_box : B) (global_cyl : C) (box : B) (cylinder_volume : C)
  (centers : list Center) (iteration : Z) :
  2 ≤ index_bits →
  is_permutation (sort_primitives_by_morton_code global_box centers 1) 1 →
  is_permutation (sort_primitives_by_morton_code global_cyl centers 1) 1 →
  box_build fuel bvh global_box [box] centers 1 =
    Some (mkBvh [mkNode box true 1 0 0] (cnodes bvh) [0]
            (cylinder bvh) (hybrid bvh) 1) ∧
  cyl_build fuel bvh global_cyl [cylinder_volume] centers 1 =
    Some (mkBvh (nodes bvh) [mkCustomNode cylinder_volume true 1 0] [0]
            (cylinder bvh) (hybrid bvh) 1) ∧
  cyl_box_build fuel bvh global_box [cylinder_volume] centers 1 =
    Some (mkBvh (nodes bvh) [mkCustomNode cylinder_volume true 1 0] [0]
            (cylinder bvh) (hybrid bvh) 1) ∧
  build_hybrid AABB search_radius loop_parallel_threshold num_threads fuel bvh
    global_box [cylinder_volume] centers 1 iteration =
    Some (mkBvh [mkNode (AABB cylinder_volume) true 1 0 0]
            [mkCustomNode cylinder_volume true 1 0] [0]
            (cylinder bvh) (hybrid bvh) 1).
Proof.
  intros Hbits Hsort_box Hsort_cyl.
  assert (∀ order, is_permutation order 1 → order = [0]) as Hone.
  { intros order Hperm. unfold is_permutation in Hperm.
    change (seqZ 0 1) with [0] in Hperm.
    by apply Permutation_singleton_r in Hperm. }
  assert (to_count 1 = 1) as Hcount.
  { unfold to_count. apply Z.mod_small.
    assert (2 ^ 1 ≤ 2 ^ (index_bits - 1)) by (apply Z.pow_le_mono_r; lia).
    lia. }
  unfold build, build_cylinders, build_cylinders_in_box, build_hybrid,
    hybrid_rounds, build_rounds, initial_state.
  rewrite (Hone _ Hsort_box), (Hone _ Hsort_cyl).
  change (wrap (2 * 1 - 1)) with 1.
  destruct fuel; simpl; rewrite Hcount; done.
Qed.

(** X14: the tree that a non-hybrid build returns has exactly
    [primitive_count] leaves and [primitive_count - 1] internal nodes
    among its [2 * primitive_count - 1] nodes. *)
Theorem tree_has_one_leaf_per_primitive (fuel : nat) (bvh : Bvh B C)
  (global_box : B) (global_cyl : C) (boxes : list B) (cyls : list C)
  (centers : list Center) (primitives : Z) :
  build_assumptions search_radius num_threads primitives →
  Z.of_nat (length boxes) = primitives →
  Z.of_nat (length cyls) = primitives →
  is_permutation (sort_primitives_by_morton_code global_box centers primitives)
    primitives →
  is_permutation (sort_primitives_by_morton_code global_cyl centers primitives)
    primitives →
  primitives ≤ Z.of_nat fuel →
  (∃ tree,
     box_build fuel bvh global_box boxes centers primitives = Some tree ∧
     leaf_count primitives (nodes tree) = primitives ∧
     internal_count primitives (nodes tree) = primitives - 1) ∧
  (∃ tree,
     cyl_build fuel bvh global_cyl cyls centers primitives = Some tree ∧
     leaf_count primitives (cnodes tree) = primitives ∧
     internal_count primitives (cnodes tree) = primitives - 1) ∧
  (∃ tree,
     cyl_box_build fuel bvh global_box cyls centers primitives = Some tree ∧
     leaf_count primitives (cnodes tree) = primitives ∧
     internal_count primitives (cnodes tree) = primitives - 1).
Proof.
  intros Hassume Hboxes Hcyls Hsort_box Hsort_cyl Hfuel.
  pose proof Hassume as [].
  destruct (finished_arenas fuel bvh global_box global_cyl boxes cyls centers
              primitives Hassume Hboxes Hcyls Hsort_box Hsort_cyl Hfuel)
    as ((st1 & t1 & Hb1 & Hn1 & Hp1 & Hz1 & Hf1 & _) &
        (st2 & t2 & Hb2 & Hn2 & Hp2 & Hz2 & Hf2 & _) &
        (st3 & t3 & Hb3 & Hn3 & Hp3 & Hz3 & Hf3 & _)).
  rewrite Hp1 in Hf1. rewrite Hp2 in Hf2. rewrite Hp3 in Hf3.
  split; [|split].
  - exists t1. split; [done|]. rewrite Hn1.
    eapply forest_leaf_count; [lia|exact Hf1|done].
  - exists t2. split; [done|]. rewrite Hn2.
    eapply forest_leaf_count; [lia|exact Hf2|done].
  - exists t3. split; [done|]. rewrite Hn3.
    eapply forest_leaf_count; [lia|exact Hf3|done].
Qed.

(** X15: where the union of two volumes encloses both, the volume of the
    root of the tree that a non-hybrid build returns encloses the volume
    of every node of the tree and the input volume of every primitive. *)
Theorem root_encloses_every_primitive `{!Enclosure Scalar B}
  `{!Enclosure Scalar C} (fuel : nat) (bvh : Bvh B C)
  (global_box : B) (global_cyl : C) (boxes : list B) (cyls : list C)
  (centers : list Center) (primitives : Z) :
  build_assumptions search_radius num_threads primitives →
  Z.of_nat (length boxes) = primitives →
  Z.of_nat (length cyls) = primitives →
  is_permutation (sort_primitives_by_morton_code global_box centers primitives)
    primitives →
  is_permutation (sort_primitives_by_morton_code global_cyl centers primitives)
    primitives →
  primitives ≤ Z.of_nat fuel →
  (∃ tree,
     box_build fuel bvh global_box boxes centers primitives = Some tree ∧
     root_encloses_all boxes primitives (nodes tree)) ∧
  (∃ tree,
     cyl_build fuel bvh global_cyl cyls centers primitives = Some tree ∧
     root_encloses_all cyls primitives (cnodes tree)) ∧
  (∃ tree,
     cyl_box_build fuel bvh global_box cyls centers primitives = Some tree ∧
     root_encloses_all cyls primitives (cnodes tree)).
Proof.
  intros Hassume Hboxes Hcyls Hsort_box Hsort_cyl Hfuel.
  pose proof Hassume as [].
  destruct (finished_arenas fuel bvh global_box global_cyl boxes cyls centers
              primitives Hassume Hboxes Hcyls Hsort_box Hsort_cyl Hfuel)
    as ((st1 & t1 & Hb1 & Hn1 & Hp1 & Hz1 & Hf1 & Ht1) &
        (st2 & t2 & Hb2 & Hn2 & Hp2 & Hz2 & Hf2 & Ht2) &
        (st3 & t3 & Hb3 & Hn3 & Hp3 & Hz3 & Hf3 & Ht3)).
  rewrite Hp1 in Hf1. rewrite Hp2 in Hf2. rewrite Hp3 in Hf3.
  split; [|split].
  - exists t1. split; [done|]. rewrite Hn1.
    eapply forest_root_encloses; [lia|exact Hsort_box|exact Hf1|done|done].
  - exists t2. split; [done|]. rewrite Hn2.
    eapply forest_root_encloses; [lia|exact Hsort_cyl|exact Hf2|done|done].
  - exists t3. split; [done|]. rewrite Hn3.
    eapply forest_root_encloses; [lia|exact Hsort_box|exact Hf3|done|done].
Qed.

End TreeFacts.

(** ** Runs of the builder on concrete inputs *)

Module Runs.
Import Concrete ConcreteFacts.

Definition origin_box : Box := mkBox (0, 0, 0) (0, 0, 0).
Definition origin_cyl : Cyl := mkCyl 0 0 0.
Definition two_boxes : list Box := [unit_box 0; unit_box 10].
Definition two_cyls : list Cyl := [mkCyl 0 1 1; mkCyl 10 11 3].
Definition two_centers : list (Z * Z * Z) := [(0, 0, 0); (20, 0, 0)].

(** C1 at two primitives: all hypotheses hold and the three builds end
    with three nodes that form a tree rooted at index 0. *)
Lemma build_node_count_and_root_witness :
  (∃ st tree,
     build_rounds 10 0 one_thread 2 two_boxes
       (sort_primitives_by_morton_code origin_box two_centers 2) 2 = Some st ∧
     st_begin st = 0 ∧ st_end st = 1 ∧
     build (C:=Cyl) 10 0 one_thread 2 empty_bvh origin_box two_boxes
       two_centers 2 = Some tree ∧
     nodes tree = st_nodes st ∧ node_count tree = 2 * 2 - 1 ∧
     Z.of_nat (length (nodes tree)) = 2 * 2 - 1 ∧
     is_tree 2 (nodes tree)) ∧
  (∃ st tree,
     build_rounds 10 0 one_thread 2 two_cyls
       (sort_primitives_by_morton_code origin_cyl two_centers 2) 2 = Some st ∧
     st_begin st = 0 ∧ st_end st = 1 ∧
     build_cylinders (B:=Box) 10 0 one_thread 2 empty_bvh origin_cyl two_cyls
       two_centers 2 = Some tree ∧
     cnodes tree = st_nodes st ∧ node_count tree = 2 * 2 - 1 ∧
     Z.of_nat (length (cnodes tree)) = 2 * 2 - 1 ∧
     is_tree 2 (cnodes tree)) ∧
  (∃ st tree,
     build_rounds 10 0 one_thread 2 two_cyls
       (sort_primitives_by_morton_code origin_box two_centers 2) 2 = Some st ∧
     st_begin st = 0 ∧ st_end st = 1 ∧
     build_cylinders_in_box 10 0 one_thread 2 empty_bvh origin_box two_cyls
       two_centers 2 = Some tree ∧
     cnodes tree = st_nodes st ∧ node_count tree = 2 * 2 - 1 ∧
     Z.of_nat (length (cnodes tree)) = 2 * 2 - 1 ∧
     is_tree 2 (cnodes tree)).
Proof.
  apply (build_node_count_and_root 10 0 one_thread 2%nat empty_bvh origin_box
           origin_cyl two_boxes two_cyls two_centers 2).
  - apply small_build_assumptions; [intros; unfold one_thread; lia|lia].
  - reflexivity.
  - reflexivity.
  - apply identity_order_permutation.
  - apply identity_order_permutation.
  - simpl. lia.
Defined.

(** *** One round on two leaves *)

Definition two_leaves : list (Node Box) :=
  [value_initialized; mkNode (unit_box 0) true 1 0 0;
   mkNode (unit_box 10) true 1 1 0].
Definition spare_nodes : list (Node Box) := make_unique value_initialized 3.
Definition zeros : list Z := make_unique 0 9.

(** C3 at the first round of a build of two boxes: the two leaves are
    each other's nearest neighbor and the round returns the window of
    their parent. *)
Lemma mutual_nearest_neighbors_merge_witness :
  cluster_assumptions 10 1 two_leaves spare_nodes zeros 0 3 1 3 3 ∧
  ∃ out' aux',
    cluster 10 1 two_leaves spare_nodes zeros 0 3 1 3 3
    = Some (out', aux',
            (next_begin (direct_neighbor 10 two_leaves 1 3) 1 3,
             next_end (direct_neighbor 10 two_leaves 1 3) 1 3)).
Proof.
  assert (cluster_assumptions 10 1 two_leaves spare_nodes zeros 0 3 1 3 3)
    as call by (split; rewrite ?size_modulus_eq; simpl; lia).
  split; [exact call|].
  destruct (mutual_nearest_neighbors_merge 10 1 two_leaves spare_nodes zeros
              0 3 1 3 3 call) as (flags & out' & aux' & _ & Hrun & _).
  exists out', aux'. exact Hrun.
Defined.

(** C4 as amended, at the same round. *)
Lemma round_output_layout_witness :
  cluster_assumptions 10 1 two_leaves spare_nodes zeros 0 3 1 3 3 ∧
  ∃ out' aux',
    cluster 10 1 two_leaves spare_nodes zeros 0 3 1 3 3
    = Some (out', aux',
            (3 - (2 * merged_count (direct_neighbor 10 two_leaves 1 3) 1 3 +
                  ((3 - 1) - merged_count (direct_neighbor 10 two_leaves 1 3) 1 3)),
             3 - 2 * merged_count (direct_neighbor 10 two_leaves 1 3) 1 3)).
Proof.
  assert (cluster_assumptions 10 1 two_leaves spare_nodes zeros 0 3 1 3 3)
    as call by (split; rewrite ?size_modulus_eq; simpl; lia).
  split; [exact call|].
  destruct (round_output_layout 10 1 two_leaves spare_nodes zeros
              0 3 1 3 3 call) as (out' & aux' & Hrun & _).
  exists out', aux'. exact Hrun.
Defined.

(** C4 as written fails at this round, the window [[1, 3)] with one
    merged pair. The formulas of the claim give [unmerged_count = 0] and
    [unmerged_begin = 1], and put the parent at
    [children_begin + pair_rank = 1]. The round returns
    [next_begin = unmerged_begin = 0], writes the parent to index 0, and
    index 1 holds the first child, a leaf. *)
Lemma claimed_layout_fails :
  ∃ out' aux' unmerged_begin next_end merged_count,
    cluster 10 1 two_leaves spare_nodes zeros 0 3 1 3 3
    = Some (out', aux', (unmerged_begin, next_end)) ∧
    load aux' (3 + (3 - 1)) = Some merged_count ∧
    let claimed_unmerged_count := (3 - 1) - 2 * merged_count in
    let children_count := 2 * merged_count in
    let children_begin := 3 - children_count in
    let claimed_unmerged_begin := 3 - children_count - claimed_unmerged_count in
    let pair_rank := 0 in
    unmerged_begin ≠ claimed_unmerged_begin ∧
    is_leaf (node_at out' (children_begin + pair_rank)) = true ∧
    is_leaf (node_at out' unmerged_begin) = false ∧
    first_child_or_primitive (node_at out' unmerged_begin) = children_begin.
Proof.
  do 5 eexists. split; [vm_compute; reflexivity|].
  split; [vm_compute; reflexivity|]. vm_compute.
  repeat split; discriminate.
Qed.

(** *** The neighbor search on three cylinders *)

Definition three_cyl_nodes : list (CustomNode Cyl) :=
  [mkCustomNode (mkCyl 0 1 1) true 1 0; mkCustomNode (mkCyl 1 2 1) true 1 1;
   mkCustomNode (mkCyl 5 6 2) true 1 2].

(** C7 on a window of three cylinders searched by two threads. *)
Lemma cached_search_matches_reference_witness :
  ∃ aux',
    search_neighbors 10 three_cyl_nodes 0 0 3 2 zeros = Some aux' ∧
    ∀ i, 0 ≤ i < 3 →
      load aux' (0 + i) =
      Some (default SIZE_MAX (reference_neighbor 10 three_cyl_nodes 0 3 i)).
Proof.
  apply (cached_search_matches_reference 10 2 three_cyl_nodes zeros 0 0 3).
  - lia.
  - rewrite size_modulus_eq. lia.
  - rewrite size_modulus_eq. lia.
  - simpl. lia.
  - rewrite size_modulus_eq. lia.
  - simpl. lia.
Defined.

(** X19 at two primitives: the box build seeds its two leaves and covers
    both primitives. *)
Lemma leaves_seeded_and_cover_primitives_witness :
  (∃ st : BuildState (Node Box),
     initial_state two_boxes
       (sort_primitives_by_morton_code origin_box two_centers 2) 2 = Some st ∧
     seeded two_boxes
       (sort_primitives_by_morton_code origin_box two_centers 2) 2
       (st_nodes st)) ∧
  (∃ tree,
     build (C:=Cyl) 10 0 one_thread 2 empty_bvh origin_box two_boxes
       two_centers 2 = Some tree ∧
     covers_once (primitive_indices tree) 2 (nodes tree) 0).
Proof.
  destruct (leaves_seeded_and_cover_primitives cyl_AABB 10 0 one_thread 2%nat
              empty_bvh origin_box origin_cyl two_boxes two_cyls two_centers
              2 1)
    as (Hseed & _ & _ & Hcover & _).
  - apply small_build_assumptions; [intros; unfold one_thread; lia|lia].
  - reflexivity.
  - reflexivity.
  - apply identity_order_permutation.
  - apply identity_order_permutation.
  - simpl. lia.
  - split; [exact Hseed|exact Hcover].
Defined.

(** *** The hybrid build *)

(** Four cylinders along the x axis of which only the first two are
    mutual nearest neighbors, so that the first round merges one pair and
    leaves the window [[2, 5)]. *)
Definition four_cyls : list Cyl :=
  [mkCyl 0 1 1; mkCyl 1 2 1; mkCyl 3 4 1; mkCyl 7 8 1].
Definition four_centers : list (Z * Z * Z) :=
  [(1, 0, 0); (3, 0, 0); (7, 0, 0); (15, 0, 0)].

(** C5 at two cylinders and [iteration = 0]: [k] is incremented before it
    is compared with [iteration], so the cylinder loop does not stop at 0;
    it runs its one round, to convergence, and hands over the finished
    cylinder root. The box arena the hybrid build returns has a leaf as
    its root, with the box of the union cylinder, and a value-initialised
    node at index 2; the box build of the boxes of the two cylinders
    returns an internal root with the union of the two boxes. *)
Theorem hybrid_iteration_zero_runs_cylinder_rounds :
  ∃ run tree reference,
    hybrid_rounds cyl_AABB 10 0 one_thread 2 two_cyls
      (sort_primitives_by_morton_code origin_box two_centers 2) 2 0
      = Some run ∧
    cylinder_rounds run = 1 ∧
    st_begin (cylinder_phase run) = 0 ∧ st_end (cylinder_phase run) = 1 ∧
    build_hybrid cyl_AABB 10 0 one_thread 2 empty_bvh origin_box two_cyls
      two_centers 2 0 = Some tree ∧
    build (C:=Cyl) 10 0 one_thread 2 empty_bvh origin_box
      (map cyl_AABB two_cyls) two_centers 2 = Some reference ∧
    nodes tree ≠ nodes reference ∧
    load (nodes tree) 0 =
      Some (mkNode (mkBox (-3, -3, -3) (14, 3, 3)) true 0 1 0) ∧
    load (nodes reference) 0 =
      Some (mkNode (mkBox (-1, -3, -3) (14, 3, 3)) false 0 1 0) ∧
    load (nodes tree) 2 = Some value_initialized ∧
    load (nodes reference) 2 =
      Some (mkNode (cyl_AABB (mkCyl 10 11 3)) true 1 1 0).
Proof.
  do 3 eexists. split; [vm_compute; reflexivity|].
  split; [reflexivity|]. split; [reflexivity|]. split; [reflexivity|].
  split; [vm_compute; reflexivity|]. split; [vm_compute; reflexivity|].
  split; [vm_compute; discriminate|].
  repeat split.
Qed.

(** C6 at four cylinders and [iteration = 1]: the hand-off loop runs over
    [i < primitive_count], not over the [2 * primitive_count - 1] nodes
    of the arena. The one cylinder round leaves the window [[2, 5)];
    node 4 of the window, the leaf of the fourth cylinder, is neither
    converted nor marked as a leaf and has no [origin]: the box arena
    holds a value-initialised node at index 4, and at the indices 5 and 6
    of the two merged leaves. *)
Theorem hybrid_handoff_stops_at_primitive_count :
  ∃ run,
    hybrid_rounds cyl_AABB 10 0 one_thread 4 four_cyls
      (sort_primitives_by_morton_code origin_box four_centers 4) 4 1
      = Some run ∧
    cylinder_rounds run = 1 ∧
    st_begin (cylinder_phase run) = 2 ∧ st_end (cylinder_phase run) = 5 ∧
    load (st_nodes (cylinder_phase run)) 4 =
      Some (mkCustomNode (mkCyl 7 8 1) true 1 3) ∧
    load (handoff_bnodes run) 4 = Some value_initialized ∧
    load (handoff_bnodes run) 4 ≠
      Some (mkNode (cyl_AABB (mkCyl 7 8 1)) true 1 3 4) ∧
    is_leaf (node_at (handoff_bnodes run) 4) = false ∧
    load (handoff_bnodes run) 3 =
      Some (mkNode (cyl_AABB (mkCyl 3 4 1)) true 1 2 3) ∧
    load (st_nodes (cylinder_phase run)) 5 =
      Some (mkCustomNode (mkCyl 0 1 1) true 1 0) ∧
    load (handoff_bnodes run) 5 = Some value_initialized ∧
    load (handoff_bnodes run) 6 = Some value_initialized.
Proof.
  eexists. split; [vm_compute; reflexivity|].
  repeat split. vm_compute. discriminate.
Qed.

(** C2 at the same input: in the box tree that the hybrid build returns,
    the root has the children 1 and 2, node 2 has the children 3 and 4,
    and node 4 is the value-initialised node that the hand-off left in
    the window: an internal node whose children are the nodes 0 and 1 and
    whose volume is the empty box at the origin, not the union of their
    volumes. The defect is the loop bound of the hand-off. *)
Theorem hybrid_box_tree_volume_not_union :
  ∃ tree,
    build_hybrid cyl_AABB 10 0 one_thread 4 empty_bvh origin_box four_cyls
      four_centers 4 1 = Some tree ∧
    is_leaf (node_at (nodes tree) 0) = false ∧
    first_child_or_primitive (node_at (nodes tree) 0) + 1 = 2 ∧
    is_leaf (node_at (nodes tree) 2) = false ∧
    first_child_or_primitive (node_at (nodes tree) 2) + 1 = 4 ∧
    is_leaf (node_at (nodes tree) 4) = false ∧
    first_child_or_primitive (node_at (nodes tree) 4) = 0 ∧
    to_bounding_box (node_at (nodes tree) 4) = mkBox (0, 0, 0) (0, 0, 0) ∧
    extend (to_bounding_box (node_at (nodes tree) (0 + 1)))
           (to_bounding_box (node_at (nodes tree) 0))
      = mkBox (-1, -1, -1) (5, 1, 1) ∧
    ¬ volumes_are_unions 4 (nodes tree) 0.
Proof.
  eexists. split; [vm_compute; reflexivity|].
  repeat split. intros Hunions.
  destruct (Hunions 4) as (_ & _ & Hvolume); [lia|reflexivity|].
  vm_compute in Hvolume. discriminate.
Qed.

(** C10 at the same input: node 4 of the box tree, a child of node 2, is
    an internal node whose first child is the even index 0, the root; the
    root and node 1 are its children, so the root has a parent, and the
    indices 5 and 6 are the children of no node. The defect is the loop
    bound of the hand-off. *)
Theorem hybrid_box_tree_even_first_child :
  ∃ tree,
    build_hybrid cyl_AABB 10 0 one_thread 4 empty_bvh origin_box four_cyls
      four_centers 4 1 = Some tree ∧
    parent_of 4 (nodes tree) 0 2 ∧ parent_of 4 (nodes tree) 2 4 ∧
    is_leaf (node_at (nodes tree) 4) = false ∧
    first_child_or_primitive (node_at (nodes tree) 4) mod 2 = 0 ∧
    parent_of 4 (nodes tree) 4 0 ∧
    (∀ x, ¬ parent_of 4 (nodes tree) x 5) ∧
    sibling 5 = 6 ∧
    ¬ siblings_adjacent 4 (nodes tree).
Proof.
  eexists. split; [vm_compute; reflexivity|].
  split; [split; [lia|split; [reflexivity|right; reflexivity]]|].
  split; [split; [lia|split; [reflexivity|right; reflexivity]]|].
  split; [reflexivity|]. split; [reflexivity|].
  split; [split; [lia|split; [reflexivity|left; reflexivity]]|].
  split.
  - intros x (Hx & Hleaf & Hchild).
    assert (x = 0 ∨ x = 1 ∨ x = 2 ∨ x = 3 ∨ x = 4 ∨ x = 5 ∨ x = 6) as Hcases
      by lia.
    destruct Hcases as [->|[->|[->|[->|[->|[->| ->]]]]]];
      vm_compute in Hleaf, Hchild; first [discriminate|destruct Hchild; discriminate].
  - split; [reflexivity|]. intros [Hodd _].
    specialize (Hodd 4 ltac:(lia) eq_refl). vm_compute in Hodd. discriminate.
Qed.

(** C9 at the same input: the box tree that the hybrid build returns
    does not cover the primitives. Its only leaves are node 1, the leaf
    of the primitive of rank 2, and node 3, the converted parent of the
    first two leaves, whose [primitive_count] is 0. Node 4, the leaf of
    the primitive of rank 3 and the only node of the cylinder arena that
    covers primitive 3, lay in the window at the hand-off but was not
    converted: no node of the box tree has [origin = 4] and no leaf
    covers primitive 3, nor the primitives 0 and 1. The defect is the
    loop bound of the hand-off. *)
Theorem hybrid_box_tree_misses_primitives :
  ∃ tree,
    build_hybrid cyl_AABB 10 0 one_thread 4 empty_bvh origin_box four_cyls
      four_centers 4 1 = Some tree ∧
    primitive_indices tree = [0; 1; 2; 3] ∧
    load (cnodes tree) 4 = Some (mkCustomNode (mkCyl 7 8 1) true 1 3) ∧
    (∀ x, covers (primitive_indices tree) (cnodes tree) x 3 → x = 4) ∧
    (∀ x, is_leaf (node_at (nodes tree) x) = true → x = 1 ∨ x = 3) ∧
    covers (primitive_indices tree) (nodes tree) 1 2 ∧
    primitive_count (node_at (nodes tree) 3) = 0 ∧
    (∀ x, origin (node_at (nodes tree) x) ≠ 4) ∧
    (∀ x, ¬ covers (primitive_indices tree) (nodes tree) x 3) ∧
    (∀ x, ¬ covers (primitive_indices tree) (nodes tree) x 0) ∧
    (∀ x, ¬ covers (primitive_indices tree) (nodes tree) x 1) ∧
    ¬ covers_once (primitive_indices tree) 4 (nodes tree) 0.
Proof.
  eexists. split; [vm_compute; reflexivity|].
  split; [reflexivity|]. split; [reflexivity|]. simpl.
  split.
  { intros x [Hleaf (t & Ht & Hload)].
    destruct (decide (0 ≤ x < 7)) as [Hin|Hout].
    - assert (x = 0 ∨ x = 1 ∨ x = 2 ∨ x = 3 ∨ x = 4 ∨ x = 5 ∨ x = 6)
        as [->|[->|[->|[->|[->|[->| ->]]]]]] by lia;
        try reflexivity; try (vm_compute in Hleaf; discriminate);
        exfalso; revert Ht Hload;
        match goal with
        | |- context [primitive_count ?n] =>
            change (primitive_count n) with 1
        end;
        intros Ht Hload; assert (t = 0) as -> by lia;
        vm_compute in Hload; congruence.
    - unfold node_at in Hleaf. rewrite load_None in Hleaf by (simpl; lia).
      discriminate. }
  set (arena := @cons (Node Box) _ _).
  assert (∀ x (P : Node Box → Prop),
            P (node_at arena 0) → P (node_at arena 1) → P (node_at arena 2) →
            P (node_at arena 3) → P (node_at arena 4) → P (node_at arena 5) →
            P (node_at arena 6) → P value_initialized → P (node_at arena x))
    as Hcases.
  { intros x P H0 H1 H2 H3 H4 H5 H6 Hout.
    destruct (decide (0 ≤ x < 7)) as [Hin|Hout'].
    - assert (x = 0 ∨ x = 1 ∨ x = 2 ∨ x = 3 ∨ x = 4 ∨ x = 5 ∨ x = 6)
        as [->|[->|[->|[->|[->|[->| ->]]]]]] by lia; done.
    - unfold node_at. rewrite load_None; [done|]. simpl. lia. }
  assert (∀ x, is_leaf (node_at arena x) = true → x = 1 ∨ x = 3) as Hleaves.
  { intros x. destruct (decide (0 ≤ x < 7)) as [Hin|Hout].
    - assert (x = 0 ∨ x = 1 ∨ x = 2 ∨ x = 3 ∨ x = 4 ∨ x = 5 ∨ x = 6)
        as [->|[->|[->|[->|[->|[->| ->]]]]]] by lia;
        vm_compute; first [discriminate|auto].
    - unfold node_at. rewrite load_None by (simpl; lia). discriminate. }
  assert (∀ x p, covers [0; 1; 2; 3] arena x p → p = 2) as Hcovered.
  { intros x p [Hleaf (t & Ht & Hload)].
    destruct (Hleaves x Hleaf) as [-> | ->].
    - change (primitive_count (node_at arena 1)) with 1 in Ht.
      assert (t = 0) as -> by lia. vm_compute in Hload. congruence.
    - change (primitive_count (node_at arena 3)) with 0 in Ht. lia. }
  split; [exact Hleaves|].
  split; [split; [reflexivity|exists 0; split; [vm_compute; done|reflexivity]]|].
  split; [reflexivity|].
  split; [intros x; apply (Hcases x (λ node, origin node ≠ 4)); vm_compute;
          discriminate|].
  split; [intros x Hc; by apply Hcovered in Hc|].
  split; [intros x Hc; by apply Hcovered in Hc|].
  split; [intros x Hc; by apply Hcovered in Hc|].
  intros Honce. destruct (Honce 3 ltac:(lia)) as (x & _ & Hc & _).
  by apply Hcovered in Hc.
Qed.

(** *** Builds under teams of different size *)

Definition four_boxes : list Box :=
  [unit_box 0; unit_box 1; unit_box 3; unit_box 7].
Definition three_threads (begin end_ : Z) : Z := 3.

(** C8 at four primitives: one thread against teams of three threads.
    With the threshold 1 every round of the second configuration, on the
    windows of 4, 3 and 2 nodes, is run by three threads, each on a chunk
    of its own; the first configuration runs every round on one
    thread. *)
Lemma builds_independent_of_threads_witness :
  (team_size 0 one_thread 3 7 = 1 ∧ team_size 1 three_threads 3 7 = 3 ∧
   team_size 1 three_threads 2 5 = 3 ∧ team_size 1 three_threads 1 3 = 3) ∧
  build (C:=Cyl) 10 0 one_thread 4 empty_bvh origin_box four_boxes
      four_centers 4 =
    build (C:=Cyl) 10 1 three_threads 4 empty_bvh origin_box four_boxes
      four_centers 4 ∧
  build_cylinders (B:=Box) 10 0 one_thread 4 empty_bvh origin_cyl four_cyls
      four_centers 4 =
    build_cylinders (B:=Box) 10 1 three_threads 4 empty_bvh origin_cyl
      four_cyls four_centers 4 ∧
  build_cylinders_in_box 10 0 one_thread 4 empty_bvh origin_box four_cyls
      four_centers 4 =
    build_cylinders_in_box 10 1 three_threads 4 empty_bvh origin_box four_cyls
      four_centers 4 ∧
  build_hybrid cyl_AABB 10 0 one_thread 4 empty_bvh origin_box four_cyls
      four_centers 4 1 =
    build_hybrid cyl_AABB 10 1 three_threads 4 empty_bvh origin_box four_cyls
      four_centers 4 1.
Proof.
  split; [repeat split|].
  apply (builds_independent_of_threads cyl_AABB 10 0 one_thread 4%nat empty_bvh
           origin_box origin_cyl four_boxes four_cyls four_centers 4 1 1
           three_threads).
  - apply small_build_assumptions; [intros; unfold one_thread; lia|lia].
  - intros b e. unfold three_threads. rewrite size_modulus_eq. lia.
  - reflexivity.
  - reflexivity.
  - apply identity_order_permutation.
  - apply identity_order_permutation.
Defined.

End Runs.

(** ** Enclosure of the boxes and cylinders of the runs *)

Module Enclosures.
Import Concrete.

Definition corner_le (a b : Z * Z * Z) : Prop :=
  a.1.1 ≤ b.1.1 ∧ a.1.2 ≤ b.1.2 ∧ a.2 ≤ b.2.

(** Box [a] contains box [b]. *)
Definition box_encloses (a b : Box) : Prop :=
  corner_le (bmin a) (bmin b) ∧ corner_le (bmax b) (bmax a).

(** Cylinder [a] contains cylinder [b], both along the x axis. *)
Definition cyl_encloses (a b : Cyl) : Prop :=
  base a ≤ base b ∧ top b ≤ top a ∧ radius b ≤ radius a.

#[export, refine] Instance box_enclosure : Enclosure Cost Box := {|
  encloses := box_encloses;
|}.
Proof.
  - intros [[[? ?] ?] [[? ?] ?]]. unfold box_encloses, corner_le. simpl. lia.
  - intros [[[? ?] ?] [[? ?] ?]] [[[? ?] ?] [[? ?] ?]] [[[? ?] ?] [[? ?] ?]].
    unfold box_encloses, corner_le. simpl. lia.
  - intros [[[? ?] ?] [[? ?] ?]] [[[? ?] ?] [[? ?] ?]].
    unfold box_encloses, corner_le. simpl. lia.
  - intros [[[? ?] ?] [[? ?] ?]] [[[? ?] ?] [[? ?] ?]].
    unfold box_encloses, corner_le. simpl. lia.
Qed.

#[export, refine] Instance cyl_enclosure : Enclosure Cost Cyl := {|
  encloses := cyl_encloses;
|}.
Proof.
  - intros [? ? ?]. unfold cyl_encloses. simpl. lia.
  - intros [? ? ?] [? ? ?] [? ? ?]. unfold cyl_encloses. simpl. lia.
  - intros [? ? ?] [? ? ?]. unfold cyl_encloses. simpl. lia.
  - intros [? ? ?] [? ? ?]. unfold cyl_encloses. simpl. lia.
Qed.

End Enclosures.

(** ** The further properties on concrete inputs *)

Module Examples.
Import Concrete ConcreteFacts Runs Enclosures.

(** X1 at index 5. *)
Lemma sibling_pairs_odd_with_next_even_witness :
  sibling 5 = (if is_left_sibling 5 then 5 + 1 else 5 - 1) ∧
  1 ≤ sibling 5 < SIZE_MAX ∧
  sibling 5 ≠ 5 ∧
  is_left_sibling (sibling 5) = negb (is_left_sibling 5) ∧
  sibling (sibling 5) = 5.
Proof.
  apply (sibling_pairs_odd_with_next_even 5).
  unfold SIZE_MAX. rewrite size_modulus_eq. lia.
Defined.

(** X2 for node 5 of the window [[2, 30)] with radius 10. *)
Lemma search_range_is_clamped_neighborhood_witness :
  search_range 10 5 2 30 = (Z.max 2 (5 - 10), Z.min (5 + 10 + 1) 30) ∧
  2 ≤ (search_range 10 5 2 30).1 ≤ 5 ∧
  5 < (search_range 10 5 2 30).2 ≤ 30 ∧
  (search_range 10 5 2 30).2 - (search_range 10 5 2 30).1 ≤ 2 * 10 + 1.
Proof.
  apply (search_range_is_clamped_neighborhood 10 5 2 30).
  - lia.
  - lia.
  - rewrite size_modulus_eq. lia.
Defined.

(** X3 for three threads on the window [[1, 11)]: the first chunk starts
    at 1 and the last ends at 11. *)
Lemma chunks_tile_the_window_witness :
  (chunk 1 11 3 0).1 = 1 ∧ (chunk 1 11 3 (3 - 1)).2 = 11.
Proof.
  destruct (chunks_tile_the_window 1 11 3) as (Hfirst & Hlast & _).
  - rewrite size_modulus_eq. lia.
  - rewrite size_modulus_eq. lia.
  - split; [exact Hfirst|exact Hlast].
Defined.

(** X4 on three cylinders searched by two threads. *)
Lemma stored_neighbor_is_cheapest_candidate_witness :
  ∃ aux',
    search_neighbors 10 three_cyl_nodes 0 0 3 2 zeros = Some aux' ∧
    length aux' = length zeros.
Proof.
  destruct (stored_neighbor_is_cheapest_candidate 10 2 three_cyl_nodes zeros
              0 0 3) as (aux' & Hrun & Hlen & _).
  - lia.
  - rewrite size_modulus_eq. lia.
  - rewrite size_modulus_eq. lia.
  - simpl. lia.
  - rewrite size_modulus_eq. lia.
  - simpl. lia.
  - exists aux'. split; [exact Hrun|exact Hlen].
Defined.

(** X5 on the two leaves: with radius 0 the round faults. *)
Lemma zero_radius_round_faults_witness :
  cluster 0 1 two_leaves spare_nodes zeros 0 3 1 3 3 = None.
Proof.
  destruct (zero_radius_round_faults 1 two_leaves spare_nodes zeros 0 3 1 3 3)
    as (_ & Hfault).
  - rewrite size_modulus_eq. lia.
  - simpl. lia.
  - unfold SIZE_MAX. rewrite size_modulus_eq. simpl. lia.
  - exact Hfault.
Defined.

(** X6 on the first round of a build of two boxes. *)
Lemma round_shrinks_window_at_most_by_half_witness :
  ∃ out' aux' next_begin next_end,
    cluster 10 1 two_leaves spare_nodes zeros 0 3 1 3 3
      = Some (out', aux', (next_begin, next_end)) ∧
    0 ≤ next_begin < 1 ∧ next_begin < next_end ∧ next_end < 3.
Proof.
  assert (cluster_assumptions 10 1 two_leaves spare_nodes zeros 0 3 1 3 3)
    as call by (split; rewrite ?size_modulus_eq; simpl; lia).
  destruct (round_shrinks_window_at_most_by_half 10 1 two_leaves spare_nodes
              zeros 0 3 1 3 3 call)
    as (out' & aux' & nb & ne & Hrun & Hb & He & Hlt & _).
  exists out', aux', nb, ne. split; [exact Hrun|]. split; [exact Hb|].
  split; [exact He|exact Hlt].
Defined.

(** X7 on the same round. *)
Lemma round_writes_only_its_ranges_witness :
  ∃ out' aux' next_begin next_end,
    cluster 10 1 two_leaves spare_nodes zeros 0 3 1 3 3
      = Some (out', aux', (next_begin, next_end)) ∧
    length out' = length spare_nodes ∧ length aux' = length zeros.
Proof.
  assert (cluster_assumptions 10 1 two_leaves spare_nodes zeros 0 3 1 3 3)
    as call by (split; rewrite ?size_modulus_eq; simpl; lia).
  destruct (round_writes_only_its_ranges 10 1 two_leaves spare_nodes
              zeros 0 3 1 3 3 call)
    as (out' & aux' & nb & ne & Hrun & Hlen & Hlen' & _).
  exists out', aux', nb, ne. split; [exact Hrun|]. split; [exact Hlen|exact Hlen'].
Defined.

(** X8 on an arena of three cylinder nodes of which two are converted. *)
Lemma handoff_converts_indices_below_primitive_count_witness :
  ∃ bnodes',
    make_boxes cyl_AABB three_cyl_nodes 2 0 1 spare_nodes = Some bnodes' ∧
    length bnodes' = length spare_nodes.
Proof.
  destruct (handoff_converts_indices_below_primitive_count cyl_AABB
              three_cyl_nodes spare_nodes 2 0 1) as (bnodes' & Hrun & Hlen & _).
  - simpl. lia.
  - simpl. lia.
  - exists bnodes'. split; [exact Hrun|exact Hlen].
Defined.

(** X9 for two cylinders and [iteration = 1]. *)
Lemma hybrid_build_completes_witness :
  ∃ run tree,
    hybrid_rounds cyl_AABB 10 0 one_thread 2 two_cyls
      (sort_primitives_by_morton_code origin_box two_centers 2) 2 1 = Some run ∧
    build_hybrid cyl_AABB 10 0 one_thread 2 empty_bvh origin_box two_cyls
      two_centers 2 1 = Some tree ∧
    nodes tree = st_nodes (box_phase run) ∧
    cnodes tree = st_nodes (cylinder_phase run).
Proof.
  destruct (hybrid_build_completes cyl_AABB 10 0 one_thread 2%nat empty_bvh
              origin_box two_cyls two_centers 2 1)
    as (run & tree & Hrun & Hbuild & Hnodes & Hcnodes & _).
  - apply small_build_assumptions; [intros; unfold one_thread; lia|lia].
  - reflexivity.
  - apply identity_order_permutation.
  - simpl. lia.
  - rewrite size_modulus_eq. simpl. lia.
  - exists run, tree. split; [exact Hrun|]. split; [exact Hbuild|].
    split; [exact Hnodes|exact Hcnodes].
Defined.

(** X10 for two cylinders. *)
Lemma hybrid_iteration_zero_is_cylinder_build_witness :
  ∃ tree cylinder_tree,
    build_hybrid cyl_AABB 10 0 one_thread 2 empty_bvh origin_box two_cyls
      two_centers 2 0 = Some tree ∧
    build_cylinders_in_box 10 0 one_thread 2 empty_bvh origin_box two_cyls
      two_centers 2 = Some cylinder_tree ∧
    cnodes tree = cnodes cylinder_tree.
Proof.
  destruct (hybrid_iteration_zero_is_cylinder_build cyl_AABB 10 0 one_thread
              2%nat empty_bvh origin_box two_cyls two_centers 2)
    as (tree & cylinder_tree & root & Hhybrid & Hbuild & Hcnodes & _).
  - apply small_build_assumptions; [intros; unfold one_thread; lia|lia].
  - reflexivity.
  - apply identity_order_permutation.
  - simpl. lia.
  - rewrite size_modulus_eq. simpl. lia.
  - exists tree, cylinder_tree. split; [exact Hhybrid|].
    split; [exact Hbuild|exact Hcnodes].
Defined.

(** X16 for four cylinders and [iteration = 1]. *)
Lemma cylinder_rounds_at_most_halve_the_window_witness :
  ∃ run,
    hybrid_rounds cyl_AABB 10 0 one_thread 4 four_cyls
      (sort_primitives_by_morton_code origin_box four_centers 4) 4 1
      = Some run ∧
    4 ≤ 2 ^ cylinder_rounds run *
        (st_end (cylinder_phase run) - st_begin (cylinder_phase run)).
Proof.
  destruct (cylinder_rounds_at_most_halve_the_window cyl_AABB 10 0 one_thread
              4%nat origin_box four_cyls four_centers 4 1)
    as (run & Hrun & _ & Hhalf & _).
  - apply small_build_assumptions; [intros; unfold one_thread; lia|lia].
  - reflexivity.
  - apply identity_order_permutation.
  - simpl. lia.
  - rewrite size_modulus_eq. simpl. lia.
  - exists run. split; [exact Hrun|exact Hhalf].
Defined.

(** X11 for the box build of two boxes. *)
Lemma finished_arena_is_a_tree_witness :
  ∃ tree,
    build (C:=Cyl) 10 0 one_thread 2 empty_bvh origin_box two_boxes
      two_centers 2 = Some tree ∧
    is_tree 2 (nodes tree).
Proof.
  destruct (finished_arena_is_a_tree 10 0 one_thread 2%nat
              empty_bvh origin_box origin_cyl two_boxes two_cyls two_centers 2)
    as (Hbox & _).
  - apply small_build_assumptions; [intros; unfold one_thread; lia|lia].
  - reflexivity.
  - reflexivity.
  - apply identity_order_permutation.
  - apply identity_order_permutation.
  - simpl. lia.
  - exact Hbox.
Defined.

(** X12 for the box build of two boxes. *)
Lemma leaves_keep_their_primitive_witness :
  ∃ tree,
    build (C:=Cyl) 10 0 one_thread 2 empty_bvh origin_box two_boxes
      two_centers 2 = Some tree ∧
    leaves_are_primitives two_boxes (primitive_indices tree) 2 (nodes tree).
Proof.
  destruct (leaves_keep_their_primitive 10 0 one_thread 2%nat
              empty_bvh origin_box origin_cyl two_boxes two_cyls two_centers 2)
    as (Hbox & _).
  - apply small_build_assumptions; [intros; unfold one_thread; lia|lia].
  - reflexivity.
  - reflexivity.
  - apply identity_order_permutation.
  - apply identity_order_permutation.
  - simpl. lia.
  - exact Hbox.
Defined.

(** X13 for the unit box and a cylinder, with [iteration = 3]. *)
Lemma single_primitive_tree_is_one_leaf_witness :
  build (C:=Cyl) 10 0 one_thread 0 empty_bvh origin_box [unit_box 0]
    [(0, 0, 0)] 1 =
    Some (mkBvh [mkNode (unit_box 0) true 1 0 0] (cnodes empty_bvh) [0]
            (cylinder empty_bvh) (hybrid empty_bvh) 1).
Proof.
  destruct (single_primitive_tree_is_one_leaf cyl_AABB 10 0 one_thread 0%nat
              empty_bvh origin_box origin_cyl (unit_box 0) (mkCyl 0 1 1)
              [(0, 0, 0)] 3)
    as (Hbox & _).
  - simpl. lia.
  - apply identity_order_permutation.
  - apply identity_order_permutation.
  - exact Hbox.
Defined.

(** X14 for the box build of two boxes. *)
Lemma tree_has_one_leaf_per_primitive_witness :
  ∃ tree,
    build (C:=Cyl) 10 0 one_thread 2 empty_bvh origin_box two_boxes
      two_centers 2 = Some tree ∧
    leaf_count 2 (nodes tree) = 2 ∧ internal_count 2 (nodes tree) = 2 - 1.
Proof.
  destruct (tree_has_one_leaf_per_primitive 10 0 one_thread 2%nat
              empty_bvh origin_box origin_cyl two_boxes two_cyls two_centers 2)
    as (Hbox & _).
  - apply small_build_assumptions; [intros; unfold one_thread; lia|lia].
  - reflexivity.
  - reflexivity.
  - apply identity_order_permutation.
  - apply identity_order_permutation.
  - simpl. lia.
  - exact Hbox.
Defined.

(** X15 for the box build of two boxes. *)
Lemma root_encloses_every_primitive_witness :
  ∃ tree,
    build (C:=Cyl) 10 0 one_thread 2 empty_bvh origin_box two_boxes
      two_centers 2 = Some tree ∧
    root_encloses_all two_boxes 2 (nodes tree).
Proof.
  destruct (root_encloses_every_primitive 10 0 one_thread 2%nat
              empty_bvh origin_box origin_cyl two_boxes two_cyls two_centers 2)
    as (Hbox & _).
  - apply small_build_assumptions; [intros; unfold one_thread; lia|lia].
  - reflexivity.
  - reflexivity.
  - apply identity_order_permutation.
  - apply identity_order_permutation.
  - simpl. lia.
  - exact Hbox.
Defined.

(** X17 for the box build of two boxes. *)
Lemma internal_volumes_are_unions_witness :
  ∃ tree,
    build (C:=Cyl) 10 0 one_thread 2 empty_bvh origin_box two_boxes
      two_centers 2 = Some tree ∧
    volumes_are_unions 2 (nodes tree) 0.
Proof.
  destruct (internal_volumes_are_unions cyl_AABB 10 0 one_thread 2%nat
              empty_bvh origin_box origin_cyl two_boxes two_cyls two_centers
              2 1)
    as (Hbox & _).
  - apply small_build_assumptions; [intros; unfold one_thread; lia|lia].
  - reflexivity.
  - reflexivity.
  - apply identity_order_permutation.
  - apply identity_order_permutation.
  - simpl. lia.
  - exact Hbox.
Defined.

(** X18 for the box build of two boxes. *)
Lemma non_hybrid_siblings_adjacent_witness :
  ∃ tree,
    build (C:=Cyl) 10 0 one_thread 2 empty_bvh origin_box two_boxes
      two_centers 2 = Some tree ∧
    siblings_adjacent 2 (nodes tree).
Proof.
  destruct (non_hybrid_siblings_adjacent cyl_AABB 10 0 one_thread 2%nat
              empty_bvh origin_box origin_cyl two_boxes two_cyls two_centers 2)
    as (Hbox & _).
  - apply small_build_assumptions; [intros; unfold one_thread; lia|lia].
  - reflexivity.
  - reflexivity.
  - apply identity_order_permutation.
  - apply identity_order_permutation.
  - simpl. lia.
  - exact Hbox.
Defined.

End Examples.
